(** * Crossword constraint solver (crossword/generate.py)

    A shallow embedding of [CrosswordCreator]: node consistency, AC-3,
    the consistency test on assignments, the two ordering heuristics and
    the backtracking search, followed by the properties of the
    specification.

    Conventions of the embedding.
    - A Python [set] is a list that enumerates its elements in iteration
      order; [set.pop()] takes the first one and [set.add] puts a new
      element last.
    - A Python [dict] is an association list in insertion order.
    - Exceptions are values of [result]; the loops of [ac3] and the
      recursion of [backtrack] are driven by a fuel argument that the
      top-level functions choose large enough (shown below). *)

From Stdlib Require Import List String Ascii Arith Bool Lia PeanoNat.
From Stdlib Require Import Permutation Sorted.
Import ListNotations.

Open Scope string_scope.
Open Scope nat_scope.
Open Scope list_scope.

(** ** Exceptions *)

Inductive exn : Type := KeyError | TypeError | IndexError.

Inductive result (A : Type) : Type :=
| Ok (a : A)
| Raise (e : exn)
| OutOfFuel.

Arguments Ok {A} a.
Arguments Raise {A} e.
Arguments OutOfFuel {A}.

Definition bind {A B : Type} (m : result A) (k : A -> result B) : result B :=
  match m with
  | Ok a => k a
  | Raise e => Raise e
  | OutOfFuel => OutOfFuel
  end.

Declare Scope result_scope.
Delimit Scope result_scope with result.
Notation "x <- m ;; k" := (bind m (fun x => k))
  (at level 100, m at next level, right associativity) : result_scope.
Notation "' p <- m ;; k" := (bind m (fun p => k))
  (at level 100, p pattern, m at next level, right associativity) : result_scope.
Open Scope result_scope.

(** ** Keys: the [__eq__] of the source's hashable values *)

Class EqKey (K : Type) : Type := {
  key_eqb : K -> K -> bool;
  key_eqb_eq : forall x y, key_eqb x y = true <-> x = y
}.

#[export] Instance EqKey_string : EqKey string :=
  {| key_eqb := String.eqb; key_eqb_eq := String.eqb_eq |}.

#[export] Instance EqKey_nat : EqKey nat :=
  {| key_eqb := Nat.eqb; key_eqb_eq := Nat.eqb_eq |}.

#[export, refine] Instance EqKey_pair {A B} `{EqKey A} `{EqKey B} : EqKey (A * B) :=
  {| key_eqb := fun p q => key_eqb (fst p) (fst q) && key_eqb (snd p) (snd q) |}.
Proof.
  intros [a b] [c d]; simpl. rewrite andb_true_iff, !key_eqb_eq.
  split; [intros [-> ->]; reflexivity | intros E; inversion E; auto].
Defined.

(** ** Sets as lists *)

Section ListSet.
Context {K : Type} `{EqKey K}.

Definition set_mem (x : K) (s : list K) : bool := existsb (key_eqb x) s.

(** [s.add(x)] *)
Definition set_add (s : list K) (x : K) : list K :=
  if set_mem x s then s else s ++ [x].

Definition set_subset (s t : list K) : bool :=
  forallb (fun x => set_mem x t) s.

(** [s == t] on sets *)
Definition set_eq (s t : list K) : bool := set_subset s t && set_subset t s.

(** [set(l)]: duplicates coalesce *)
Definition set_of_list (l : list K) : list K := fold_left set_add l [].
End ListSet.

(** ** Dictionaries as association lists *)

Section Dict.
Context {K V : Type} `{EqKey K}.

Fixpoint dict_find (d : list (K * V)) (k : K) : option V :=
  match d with
  | [] => None
  | (k', v) :: d' => if key_eqb k k' then Some v else dict_find d' k
  end.

(** [k in d] *)
Definition dict_mem (k : K) (d : list (K * V)) : bool :=
  match dict_find d k with Some _ => true | None => false end.

(** [d[k]] *)
Definition dict_get (d : list (K * V)) (k : K) : result V :=
  match dict_find d k with Some v => Ok v | None => Raise KeyError end.

(** [d[k] = v] and [d.update({k: v})]: an existing key keeps its place,
    a new key goes last. *)
Fixpoint dict_set (d : list (K * V)) (k : K) (v : V) : list (K * V) :=
  match d with
  | [] => [(k, v)]
  | (k', v') :: d' =>
      if key_eqb k k' then (k', v) :: d' else (k', v') :: dict_set d' k v
  end.

Fixpoint dict_remove (d : list (K * V)) (k : K) : list (K * V) :=
  match d with
  | [] => []
  | (k', v') :: d' => if key_eqb k k' then d' else (k', v') :: dict_remove d' k
  end.

(** [d.pop(k)], value dropped *)
Definition dict_pop (d : list (K * V)) (k : K) : result (list (K * V)) :=
  if dict_mem k d then Ok (dict_remove d k) else Raise KeyError.

Definition dict_keys (d : list (K * V)) : list K := map fst d.
End Dict.

(** ** Data model *)

Inductive Direction : Type := ACROSS | DOWN.

(** [Variable] of crossword.py: a slot of the grid. *)
Record Slot : Type := mkSlot {
  var_i : nat;
  var_j : nat;
  var_direction : Direction;
  var_length : nat
}.

Definition direction_eqb (d e : Direction) : bool :=
  match d, e with
  | ACROSS, ACROSS | DOWN, DOWN => true
  | _, _ => false
  end.

(** [Variable.__eq__]: all four fields agree. *)
Definition slot_eqb (x y : Slot) : bool :=
  (var_i x =? var_i y) && (var_j x =? var_j y)
  && direction_eqb (var_direction x) (var_direction y)
  && (var_length x =? var_length y).

#[export, refine] Instance EqKey_Slot : EqKey Slot := {| key_eqb := slot_eqb |}.
Proof.
  intros x y. unfold slot_eqb. rewrite !andb_true_iff, !Nat.eqb_eq.
  destruct x as [a b d l], y as [a' b' d' l']; simpl. split.
  - intros [[[-> ->] Hd] ->]. destruct d, d'; simpl in Hd; congruence.
  - intros E; inversion E; subst. destruct d'; auto.
Defined.

(** Modelled from the spec: the Puzzle Model (class [Crossword] of
    crossword.py, which is not among the sources).  It supplies the set of
    slots, the vocabulary and the overlap table, a dictionary from ordered
    pairs of distinct slots to [None] or a pair of offsets. *)
Record Crossword : Type := mkCrossword {
  variables : list Slot;
  words : list string;
  overlaps : list ((Slot * Slot) * option (nat * nat))
}.

(** Modelled from the spec: [neighbors(slot)], all slots whose overlap
    table entry with [slot] is not [None]. *)
Definition neighbors (cw : Crossword) (var : Slot) : list Slot :=
  filter (fun v =>
            negb (key_eqb v var)
            && match dict_find (overlaps cw) (v, var) with
               | Some (Some _) => true
               | _ => false
               end)
         (variables cw).

(** Domain store: [self.domains]. *)
Definition domains := list (Slot * list string).

(** Assignment: slot to word. *)
Definition assignment := list (Slot * string).

(** [s[n]] on strings *)
Definition str_index (s : string) (n : nat) : result ascii :=
  match String.get n s with
  | Some c => Ok c
  | None => Raise IndexError
  end.

(** [overlap[0]], [overlap[1]]: subscripting [None] is a TypeError. *)
Definition subscript0 (o : option (nat * nat)) : result nat :=
  match o with Some (i, _) => Ok i | None => Raise TypeError end.
Definition subscript1 (o : option (nat * nat)) : result nat :=
  match o with Some (_, j) => Ok j | None => Raise TypeError end.

(** [__init__]: every slot starts with a copy of the vocabulary. *)
Definition init_domains (cw : Crossword) : domains :=
  map (fun var => (var, words cw)) (variables cw).

(** ** Node consistency *)

(** [enforce_node_consistency]: in every entry of [self.domains] keep the
    words whose length is the slot's. *)
Definition enforce_node_consistency (doms : domains) : domains :=
  map (fun kv : Slot * list string =>
         (fst kv,
          filter (fun word => String.length word =? var_length (fst kv)) (snd kv)))
      doms.

(** ** Arc consistency *)

(** Inner loop of [revise]: is there a [wordY] with
    [wordX[i] == wordY[j]]?  Stops at the first one ([break]). *)
Fixpoint revise_inner (wordX : string) (i j : nat) (dy : list string)
  : result bool :=
  match dy with
  | [] => Ok false
  | wordY :: rest =>
      cx <- str_index wordX i ;;
      cy <- str_index wordY j ;;
      if Ascii.eqb cx cy then Ok true else revise_inner wordX i j rest
  end.

(** Outer loop of [revise]: collects [valid_words]. *)
Fixpoint revise_outer (doms : domains) (y : Slot) (i j : nat)
  (dx : list string) (valid_words : list string) : result (list string) :=
  match dx with
  | [] => Ok valid_words
  | wordX :: rest =>
      dy <- dict_get doms y ;;
      found <- revise_inner wordX i j dy ;;
      revise_outer doms y i j rest
        (if found then set_add valid_words wordX else valid_words)
  end.

Definition revise (cw : Crossword) (doms : domains) (x y : Slot)
  : result (bool * domains) :=
  overlap <- dict_get (overlaps cw) (x, y) ;;
  i <- subscript0 overlap ;;
  j <- subscript1 overlap ;;
  match overlap with
  | Some _ =>
      dx <- dict_get doms x ;;
      valid_words <- revise_outer doms y i j dx [] ;;
      if set_eq valid_words dx then Ok (false, doms)
      else Ok (true, dict_set doms x valid_words)
  | None => Ok (false, doms)
  end.

(** Initial worklist of [ac3] when [arcs] is [None]. *)
Definition all_arcs (cw : Crossword) : list (Slot * Slot) :=
  fold_left
    (fun arcs variable =>
       fold_left (fun arcs neighbor => set_add arcs (variable, neighbor))
                 (neighbors cw variable) arcs)
    (variables cw) [].

(** Arcs put back after the domain of [X] changed. *)
Definition requeue (cw : Crossword) (arcs : list (Slot * Slot)) (X : Slot)
  : list (Slot * Slot) :=
  match neighbors cw X with
  | [] => arcs
  | ns => fold_left (fun arcs Z => set_add (set_add arcs (X, Z)) (Z, X)) ns arcs
  end.

(** One pass of the [while] loop of [ac3] over the worklist: an arc whose
    revision changes nothing is consumed; after a revision that changed
    the domain of [X] the loop goes on ([continue_with]) with the new
    domains and the enlarged worklist. *)
Fixpoint ac3_pass (cw : Crossword)
  (continue_with : domains -> list (Slot * Slot) -> result (bool * domains))
  (doms : domains) (arcs : list (Slot * Slot)) : result (bool * domains) :=
  match arcs with
  | [] => Ok (true, doms)
  | (X, Y) :: arcs' =>
      r <- revise cw doms X Y ;;
      if fst r then
        dX <- dict_get (snd r) X ;;
        if List.length dX =? 0 then Ok (false, snd r)
        else continue_with (snd r) (requeue cw arcs' X)
      else ac3_pass cw continue_with doms arcs'
  end.

(** The [while] loop of [ac3]; every revision that changes a domain costs
    one unit of fuel. *)
Fixpoint ac3_loop (fuel : nat) (cw : Crossword) (doms : domains)
  (arcs : list (Slot * Slot)) {struct fuel} : result (bool * domains) :=
  match fuel with
  | O => OutOfFuel
  | S fuel' => ac3_pass cw (ac3_loop fuel' cw) doms arcs
  end.

Definition domains_size (doms : domains) : nat :=
  fold_right (fun kv n => List.length (snd kv) + n) 0 doms.

(** [ac3(arcs)]; a non-empty [arcs] becomes a set, an empty one is used as
    it is, [None] stands for all arcs of the puzzle. *)
Definition ac3 (cw : Crossword) (doms : domains)
  (arcs : option (list (Slot * Slot))) : result (bool * domains) :=
  let arcs :=
    match arcs with
    | Some (_ :: _ as l) => set_of_list l
    | Some [] => []
    | None => all_arcs cw
    end in
  ac3_loop (S (domains_size doms)) cw doms arcs.

(** ** Assignments *)

(** Truth value of a word: the empty string is false. *)
Definition truthy (w : string) : bool := negb (String.eqb w "").

(** [assignment_complete] *)
Definition assignment_complete (cw : Crossword) (a : assignment) : bool :=
  forallb (fun variable =>
             match dict_find a variable with
             | None => false
             | Some w => truthy w
             end)
          (variables cw).

(** Loop of [consistent] over the neighbors of [variable]; [Ok false] is
    the early [return False], [Ok true] lets the enclosing loop go on. *)
Fixpoint consistent_neighbors (cw : Crossword) (a : assignment)
  (variable : Slot) (value : string) (ns : list Slot) : result bool :=
  match ns with
  | [] => Ok true
  | neighbor :: ns' =>
      match dict_find a neighbor with
      | Some n_value =>
          if truthy n_value then
            if String.eqb value n_value then Ok false
            else
              overlap <- dict_get (overlaps cw) (variable, neighbor) ;;
              match overlap with
              | Some (i, j) =>
                  cx <- str_index value i ;;
                  cy <- str_index n_value j ;;
                  if negb (Ascii.eqb cx cy) then Ok false
                  else consistent_neighbors cw a variable value ns'
              | None => consistent_neighbors cw a variable value ns'
              end
          else consistent_neighbors cw a variable value ns'
      | None => consistent_neighbors cw a variable value ns'
      end
  end.

(** Loop of [consistent] over the slots of the puzzle. *)
Fixpoint consistent_vars (cw : Crossword) (a : assignment) (vs : list Slot)
  : result bool :=
  match vs with
  | [] => Ok true
  | variable :: vs' =>
      match dict_find a variable with
      | Some value =>
          if truthy value then
            if negb (String.length value =? var_length variable) then Ok false
            else
              ok <- consistent_neighbors cw a variable value
                      (neighbors cw variable) ;;
              if ok then consistent_vars cw a vs' else Ok false
          else consistent_vars cw a vs'
      | None => consistent_vars cw a vs'
      end
  end.

Definition consistent (cw : Crossword) (a : assignment) : result bool :=
  consistent_vars cw a (variables cw).

(** ** Ordering heuristics *)

(** [sorted(..., key=...)] is stable: a new element goes before the first
    one that must come after it. *)
Fixpoint insert_sorted {A : Type} (before : A -> A -> bool) (x : A)
  (l : list A) : list A :=
  match l with
  | [] => [x]
  | y :: l' => if before x y then x :: l else y :: insert_sorted before x l'
  end.

Definition sorted_items {A : Type} (before : A -> A -> bool) (l : list A)
  : list A :=
  fold_left (fun acc x => insert_sorted before x acc) l [].

(** [sorted(d.items(), key=lambda item: item[1])] *)
Definition sorted_by_value {K : Type} (d : list (K * nat)) : list (K * nat) :=
  sorted_items (fun x y => snd x <? snd y) d.

(** [sorted(d.items(), key=lambda item: item[1], reverse=True)] *)
Definition sorted_by_value_rev {K : Type} (d : list (K * nat))
  : list (K * nat) :=
  sorted_items (fun x y => snd y <? snd x) d.

(** [d[k] += n] *)
Definition dict_incr {K : Type} `{EqKey K} (d : list (K * nat)) (k : K)
  (n : nat) : result (list (K * nat)) :=
  c <- dict_get d k ;;
  Ok (dict_set d k (c + n)).

(** Innermost loop of [order_domain_values]. *)
Fixpoint odv_count (value : string) (i j : nat) (dn : list string)
  (order_values : list (string * nat)) : result (list (string * nat)) :=
  match dn with
  | [] => Ok order_values
  | n_value :: dn' =>
      cx <- str_index value i ;;
      cy <- str_index n_value j ;;
      order_values' <- (if negb (Ascii.eqb cx cy)
                        then dict_incr order_values value 1
                        else Ok order_values) ;;
      odv_count value i j dn' order_values'
  end.

(** Loop over the neighbors of [var]; assigned ones are skipped. *)
Fixpoint odv_neighbors (cw : Crossword) (doms : domains) (a : assignment)
  (var : Slot) (value : string) (ns : list Slot)
  (order_values : list (string * nat)) : result (list (string * nat)) :=
  match ns with
  | [] => Ok order_values
  | neighbor :: ns' =>
      if dict_mem neighbor a then
        odv_neighbors cw doms a var value ns' order_values
      else
        overlap <- dict_get (overlaps cw) (var, neighbor) ;;
        i <- subscript0 overlap ;;
        j <- subscript1 overlap ;;
        dn <- dict_get doms neighbor ;;
        order_values' <- odv_count value i j dn order_values ;;
        odv_neighbors cw doms a var value ns' order_values'
  end.

(** Loop over the words of the domain of [var]. *)
Fixpoint odv_values (cw : Crossword) (doms : domains) (a : assignment)
  (var : Slot) (vals : list string) (order_values : list (string * nat))
  : result (list (string * nat)) :=
  match vals with
  | [] => Ok order_values
  | value :: vals' =>
      order_values' <- odv_neighbors cw doms a var value (neighbors cw var)
                         order_values ;;
      odv_values cw doms a var vals' order_values'
  end.

Definition order_domain_values (cw : Crossword) (doms : domains)
  (var : Slot) (a : assignment) : result (list string) :=
  dv <- dict_get doms var ;;
  let order_values := fold_left (fun d value => dict_set d value 0) dv [] in
  order_values' <- odv_values cw doms a var dv order_values ;;
  Ok (map fst (sorted_by_value order_values')).

(** [l[n]] on lists *)
Definition list_index {A : Type} (l : list A) (n : nat) : result A :=
  match nth_error l n with
  | Some x => Ok x
  | None => Raise IndexError
  end.

(** First loop of [select_unassigned_variable]: domain sizes. *)
Fixpoint suv_sizes (doms : domains) (a : assignment) (vs : list Slot)
  (variable_values : list (Slot * nat)) : result (list (Slot * nat)) :=
  match vs with
  | [] => Ok variable_values
  | var :: vs' =>
      if negb (dict_mem var a) then
        dv <- dict_get doms var ;;
        variable_values' <- dict_incr variable_values var (List.length dv) ;;
        suv_sizes doms a vs' variable_values'
      else suv_sizes doms a vs' variable_values
  end.

(** Loop over [duplicate_indexes]: the pairs [(0, j)]. *)
Fixpoint suv_degrees (cw : Crossword) (sorted_vars : list Slot)
  (duplicate_indexes : list (nat * nat)) (num_neigbors : list (Slot * nat))
  : result (list (Slot * nat)) :=
  match duplicate_indexes with
  | [] => Ok num_neigbors
  | index :: rest =>
      var1 <- list_index sorted_vars (fst index) ;;
      var2 <- list_index sorted_vars (snd index) ;;
      let neighbor1 := List.length (neighbors cw var1) in
      let neighbor2 := List.length (neighbors cw var2) in
      suv_degrees cw sorted_vars rest
        (dict_set (dict_set num_neigbors var1 neighbor1) var2 neighbor2)
  end.

Definition select_unassigned_variable (cw : Crossword) (doms : domains)
  (a : assignment) : result Slot :=
  let variables := variables cw in
  let variable_values :=
    fold_left (fun d variable =>
                 if negb (dict_mem variable a) then dict_set d variable 0 else d)
              variables [] in
  variable_values <- suv_sizes doms a variables variable_values ;;
  let sorted_variables := map fst (sorted_by_value variable_values) in
  if List.length (map snd variable_values)
     =? List.length (set_of_list (map snd variable_values))
  then list_index sorted_variables 0
  else
    let sorted_vars := sorted_variables in
    sorted_values <-
      fold_left (fun acc variable =>
                   l <- acc ;;
                   v <- dict_get variable_values variable ;;
                   Ok (l ++ [v]))
                sorted_variables (Ok []) ;;
    duplicate_indexes <-
      fold_left (fun acc j =>
                   l <- acc ;;
                   v0 <- list_index sorted_values 0 ;;
                   vj <- list_index sorted_values j ;;
                   Ok (if v0 =? vj then l ++ [(0, j)] else l))
                (seq 1 (List.length sorted_values - 1)) (Ok []) ;;
    num_neigbors <- suv_degrees cw sorted_vars duplicate_indexes [] ;;
    let sorted_num_neighbors := map fst (sorted_by_value_rev num_neigbors) in
    match sorted_num_neighbors with
    | v :: _ => Ok v
    | [] => list_index sorted_variables 0
    end.

(** ** Backtracking search *)

(** What the search does to the assignment, in order. *)
Inductive event : Type :=
| Enter (a : assignment)
| Assign (variable : Slot) (word : string)
| Unassign (variable : Slot).

(** Outcome of a call of [backtrack]: the returned value ([None] or the
    assignment object), the content of the assignment object when the call
    ends, and the events of the call. *)
Record search : Type := mkSearch {
  returned : option assignment;
  final : assignment;
  trace : list event
}.

(** [if result:] on [None] or a dictionary *)
Definition truthy_result (r : option assignment) : bool :=
  match r with
  | Some (_ :: _) => true
  | _ => false
  end.

(** The loop [for domain in self.domains[variable]] of [backtrack];
    [recurse] is the recursive call, [a] the current content of the
    assignment object and [tr] the events so far. *)
Fixpoint try_values (cw : Crossword) (recurse : assignment -> result search)
  (variable : Slot) (ds : list string) (a : assignment) (tr : list event)
  : result search :=
  match ds with
  | [] => Ok (mkSearch None a tr)
  | domain :: ds' =>
      let a1 := dict_set a variable domain in
      let tr1 := tr ++ [Assign variable domain] in
      ok <- consistent cw a1 ;;
      if ok then
        sub <- recurse a1 ;;
        if truthy_result (returned sub) then
          Ok (mkSearch (returned sub) (final sub) (tr1 ++ trace sub))
        else
          a2 <- dict_pop (final sub) variable ;;
          try_values cw recurse variable ds' a2
            (tr1 ++ trace sub ++ [Unassign variable])
      else
        a2 <- dict_pop a1 variable ;;
        try_values cw recurse variable ds' a2 (tr1 ++ [Unassign variable])
  end.

(** The slot [backtrack] works on: the first one, in iteration order,
    that is not a key of the assignment. *)
Definition first_unassigned (cw : Crossword) (a : assignment) : option Slot :=
  find (fun variable => negb (dict_mem variable a)) (variables cw).

Fixpoint backtrack_fuel (fuel : nat) (cw : Crossword) (doms : domains)
  (a : assignment) {struct fuel} : result search :=
  match fuel with
  | O => OutOfFuel
  | S fuel' =>
      if List.length (variables cw) =? List.length a then
        Ok (mkSearch (Some a) a [Enter a])
      else
        match first_unassigned cw a with
        | Some variable =>
            dv <- dict_get doms variable ;;
            try_values cw (backtrack_fuel fuel' cw doms) variable dv a [Enter a]
        | None => Ok (mkSearch None a [Enter a])
        end
  end.

Definition backtrack (cw : Crossword) (doms : domains) (a : assignment)
  : result search :=
  backtrack_fuel (S (List.length (variables cw))) cw doms a.

(** [solve]: the value of [self.ac3()] is dropped. *)
Definition solve (cw : Crossword) : result search :=
  let doms := enforce_node_consistency (init_domains cw) in
  r <- ac3 cw doms None ;;
  backtrack cw (snd r) [].

(** ** Rendering *)

(** The grid of letters: a cell holds [None] or a character. *)
Definition grid := list (list (option ascii)).

(** [[[None for _ in range(width)] for _ in range(height)]] *)
Definition blank_grid (height width : nat) : grid :=
  repeat (repeat None width) height.

(** [l[n] = x] on lists: an index past the end is an IndexError. *)
Fixpoint list_set {A : Type} (l : list A) (n : nat) (x : A) : result (list A) :=
  match l, n with
  | [], _ => Raise IndexError
  | _ :: l', O => Ok (x :: l')
  | y :: l', S n' => l'' <- list_set l' n' x ;; Ok (y :: l'')
  end.

(** [letters[i][j] = c] *)
Definition grid_set (letters : grid) (i j : nat) (c : ascii) : result grid :=
  row <- list_index letters i ;;
  row' <- list_set row j (Some c) ;;
  list_set letters i row'.

(** Row and column of the [k]-th cell of a slot. *)
Definition cell_row (variable : Slot) (k : nat) : nat :=
  var_i variable + match var_direction variable with DOWN => k | ACROSS => 0 end.
Definition cell_col (variable : Slot) (k : nat) : nat :=
  var_j variable + match var_direction variable with ACROSS => k | DOWN => 0 end.

(** The loop [for k in range(len(word))] of [letter_grid]. *)
Fixpoint letter_grid_word (variable : Slot) (word : string) (ks : list nat)
  (letters : grid) : result grid :=
  match ks with
  | [] => Ok letters
  | k :: ks' =>
      let i := cell_row variable k in
      let j := cell_col variable k in
      c <- str_index word k ;;
      letters' <- grid_set letters i j c ;;
      letter_grid_word variable word ks' letters'
  end.

(** The loop over [assignment.items()]. *)
Fixpoint letter_grid_items (items : assignment) (letters : grid) : result grid :=
  match items with
  | [] => Ok letters
  | (variable, word) :: items' =>
      letters' <- letter_grid_word variable word (seq 0 (String.length word))
                    letters ;;
      letter_grid_items items' letters'
  end.

(** [letter_grid]; [height] and [width] are the fields of that name of
    [self.crossword]. *)
Definition letter_grid (height width : nat) (a : assignment) : result grid :=
  letter_grid_items a (blank_grid height width).

(** ** Vocabulary of the specification *)

(** Two words agree at offsets [i], [j]: both positions exist and hold the
    same character. *)
Definition agree (i j : nat) (wx wy : string) : Prop :=
  exists c, String.get i wx = Some c /\ String.get j wy = Some c.

Definition agreeb (i j : nat) (wx wy : string) : bool :=
  match String.get i wx, String.get j wy with
  | Some cx, Some cy => Ascii.eqb cx cy
  | _, _ => false
  end.

(** The arc [(x, y)] is consistent: every word left for [x] has a partner
    left for [y] that agrees with it at the overlap offsets. *)
Definition arc_ok (cw : Crossword) (doms : domains) (x y : Slot) : Prop :=
  exists i j,
    dict_find (overlaps cw) (x, y) = Some (Some (i, j))
    /\ forall dx w,
        dict_find doms x = Some dx -> In w dx ->
        exists dy w', dict_find doms y = Some dy /\ In w' dy /\ agree i j w w'.

Definition arc_consistent (cw : Crossword) (doms : domains) : Prop :=
  forall x y, In x (variables cw) -> In y (neighbors cw x) -> arc_ok cw doms x y.

(** Every word of every domain has the length of its slot. *)
Definition node_consistent (doms : domains) : Prop :=
  forall v ws w, In (v, ws) doms -> In w ws -> String.length w = var_length v.

(** What the specification asks of the Puzzle Model: the slots are
    pairwise distinct, every ordered pair of distinct slots has an entry in
    the overlap table, offsets lie inside the two slots, and the table is
    symmetric. *)
Definition overlap_entry_ok (cw : Crossword) (x y : Slot) : bool :=
  match dict_find (overlaps cw) (x, y) with
  | Some (Some (i, j)) =>
      (i <? var_length x) && (j <? var_length y)
      && match dict_find (overlaps cw) (y, x) with
         | Some (Some (j', i')) => (i =? i') && (j =? j')
         | _ => false
         end
  | Some None => true
  | None => false
  end.

Fixpoint distinct {K : Type} `{EqKey K} (l : list K) : bool :=
  match l with
  | [] => true
  | x :: l' => negb (set_mem x l') && distinct l'
  end.

Definition well_formed (cw : Crossword) : bool :=
  distinct (variables cw)
  && forallb (fun x =>
                forallb (fun y => key_eqb x y || overlap_entry_ok cw x y)
                        (variables cw))
             (variables cw).

(** The reading of [consistent] in the specification, with a slot counted
    as assigned when it is a key of the assignment. *)
Definition consistent_as_stated (cw : Crossword) (a : assignment) : Prop :=
  (forall x wx, In x (variables cw) -> dict_find a x = Some wx ->
                String.length wx = var_length x)
  /\ (forall x y i j wx wy,
        In x (variables cw) -> In y (variables cw) -> x <> y ->
        dict_find (overlaps cw) (x, y) = Some (Some (i, j)) ->
        dict_find a x = Some wx -> dict_find a y = Some wy ->
        wx <> wy /\ agree i j wx wy).

(** The same with the slots mapped to the empty word left out, as
    [if value:] does. *)
Definition consistent_nonempty (cw : Crossword) (a : assignment) : Prop :=
  (forall x wx, In x (variables cw) -> dict_find a x = Some wx -> wx <> "" ->
                String.length wx = var_length x)
  /\ (forall x y i j wx wy,
        In x (variables cw) -> In y (variables cw) -> x <> y ->
        dict_find (overlaps cw) (x, y) = Some (Some (i, j)) ->
        dict_find a x = Some wx -> dict_find a y = Some wy ->
        wx <> "" -> wy <> "" ->
        wx <> wy /\ agree i j wx wy).

(** Elimination count of a word of [var]: over the neighbors that are not
    keys of the assignment, the words of the neighbor's domain that fail
    to agree with it at the overlap offsets. *)
Definition eliminated_in (cw : Crossword) (doms : domains) (var : Slot)
  (value : string) (neighbor : Slot) : nat :=
  match dict_find (overlaps cw) (var, neighbor), dict_find doms neighbor with
  | Some (Some (i, j)), Some dn =>
      List.length (filter (fun n_value => negb (agreeb i j value n_value)) dn)
  | _, _ => 0
  end.

Definition elimination_count (cw : Crossword) (doms : domains)
  (a : assignment) (var : Slot) (value : string) : nat :=
  list_sum
    (map (eliminated_in cw doms var value)
         (filter (fun neighbor => negb (dict_mem neighbor a)) (neighbors cw var))).

(** No domain holds the empty word. *)
Definition no_empty_word (doms : domains) : bool :=
  forallb (fun kv : Slot * list string => negb (set_mem "" (snd kv))) doms.

(** A starting assignment for the search: distinct keys, all of them slots
    of the puzzle, and no empty word. *)
Definition proper_start (cw : Crossword) (a : assignment) : bool :=
  distinct (dict_keys a)
  && set_subset (dict_keys a) (variables cw)
  && forallb (fun kv : Slot * string => truthy (snd kv)) a.

(** The words that a trace assigns to [variable], in order. *)
Fixpoint assigned_words (variable : Slot) (tr : list event) : list string :=
  match tr with
  | [] => []
  | Assign v w :: tr' =>
      if key_eqb v variable then w :: assigned_words variable tr'
      else assigned_words variable tr'
  | _ :: tr' => assigned_words variable tr'
  end.

(** The first tentative assignment of a trace. *)
Fixpoint first_assign (tr : list event) : option (Slot * string) :=
  match tr with
  | [] => None
  | Assign v w :: _ => Some (v, w)
  | _ :: tr' => first_assign tr'
  end.

(** The calls of [backtrack] in a trace. *)
Definition calls (tr : list event) : list assignment :=
  flat_map (fun e => match e with Enter a => [a] | _ => [] end) tr.

(** ** Invariants of the loops and of the search *)

(** A call either fails and leaves the assignment as it found it, or
    returns the assignment object itself, with no fewer entries than it
    had at entry. *)
Definition search_ok (a : assignment) (s : search) : Prop :=
  match returned s with
  | None => final s = a
  | Some r => final s = r /\ List.length a <= List.length r
  end.

(** The slots that are not keys of the assignment. *)
Definition unassigned (cw : Crossword) (a : assignment) : list Slot :=
  filter (fun v => negb (dict_mem v a)) (variables cw).

(** A word of [x] has a partner among the words of [y]. *)
Definition supported (doms : domains) (y : Slot) (i j : nat) (w : string)
  : Prop :=
  exists dy w', dict_find doms y = Some dy /\ In w' dy /\ agree i j w w'.

(** On success the invariant holds of the final domains and the empty
    worklist; on failure it held when the arc that emptied a domain
    was taken from the worklist. *)
Definition ac3_post (cw : Crossword)
  (Inv : domains -> list (Slot * Slot) -> Prop) (r : bool * domains) : Prop :=
  if fst r then Inv (snd r) []
  else exists doms X Y arcs,
      Inv doms ((X, Y) :: arcs)
      /\ revise cw doms X Y = Ok (true, snd r)
      /\ dict_find (snd r) X = Some [].

(** [d] keeps every key of [d0] with a sub-domain of what [d0] has. *)
Definition shrinks (d d0 : domains) : Prop :=
  forall v ws0, dict_find d0 v = Some ws0 ->
    exists ws, dict_find d v = Some ws /\ incl ws ws0
               /\ List.length ws <= List.length ws0.

(** The state of the loop is in order: the domain store has the slots
    of the puzzle as keys, holds words of the right length only, and the
    worklist holds pairs of neighbors. *)
Definition ac3_safe (cw : Crossword) (doms : domains) (arcs : list (Slot * Slot)) : Prop :=
  dict_keys doms = variables cw
  /\ node_consistent doms
  /\ forall x y, In (x, y) arcs -> In x (variables cw) /\ In y (neighbors cw x).

(** Every arc of the puzzle is waiting in the worklist or consistent. *)
Definition pending_or_ok (cw : Crossword) (doms : domains) (arcs : list (Slot * Slot)) : Prop :=
  forall x y, In x (variables cw) -> In y (neighbors cw x) ->
              In (x, y) arcs \/ arc_ok cw doms x y.

(** The non-empty words of the assignment fit their slots. *)
Definition lengths_ok (cw : Crossword) (a : assignment) : Prop :=
  forall v w, In v (variables cw) -> dict_find a v = Some w -> w <> "" ->
              String.length w = var_length v.

(** The entry of [value] has grown by [n]; nothing else has changed. *)
Definition bumped (ov ov' : list (string * nat)) (value : string) (n : nat)
  : Prop :=
  dict_keys ov' = dict_keys ov
  /\ (forall c, dict_find ov value = Some c -> dict_find ov' value = Some (c + n))
  /\ (forall w, w <> value -> dict_find ov' w = dict_find ov w).

(** The assignments the search works on. *)
Definition good_assignment (cw : Crossword) (a : assignment) : Prop :=
  consistent cw a = Ok true
  /\ NoDup (dict_keys a)
  /\ incl (dict_keys a) (variables cw)
  /\ (forall v w, In (v, w) a -> w <> "").

(** A complete and consistent assignment. *)
Definition solution (cw : Crossword) (r : assignment) : Prop :=
  assignment_complete cw r = true /\ consistent cw r = Ok true.

(** [a] agrees with [sol] on its keys. *)
Definition part_of_sol (sol a : assignment) : Prop :=
  forall v w, dict_find a v = Some w -> dict_find sol v = Some w.

(** A call assigns nothing to the slots that are keys at its entry. *)
Definition leaves_keys (a : assignment) (s : search) : Prop :=
  forall v, In v (dict_keys a) -> assigned_words v (trace s) = [].

(** ** Solutions and the domain store *)

(** Every word that the assignment gives to a slot of the puzzle lies in
    the domain of that slot. *)
Definition drawn_from (cw : Crossword) (doms : domains) (sol : assignment)
  : Prop :=
  forall v w, In v (variables cw) -> dict_find sol v = Some w ->
              exists dv, dict_find doms v = Some dv /\ In w dv.

(** Every word that the assignment gives to a slot of the puzzle is a word
    of the vocabulary. *)
Definition in_vocabulary (cw : Crossword) (sol : assignment) : Prop :=
  forall v w, In v (variables cw) -> dict_find sol v = Some w -> In w (words cw).

(** Every slot has at least one cell. *)
Definition positive_lengths (cw : Crossword) : bool :=
  forallb (fun v => 0 <? var_length v) (variables cw).


(** [r] is [a] followed by entries for slots of the puzzle, each with a
    word of the slot's domain. *)
Definition extension_of (cw : Crossword) (doms : domains) (a r : assignment)
  : Prop :=
  exists ext,
    r = a ++ ext
    /\ forall v w, In (v, w) ext ->
         In v (variables cw) /\ exists dv, dict_find doms v = Some dv /\ In w dv.

(** ** Vocabulary for the grid of letters *)

(** [letters[i][j]], when the cell exists. *)
Definition grid_get (letters : grid) (i j : nat) : option (option ascii) :=
  match nth_error letters i with
  | Some row => nth_error row j
  | None => None
  end.

(** The entry [(variable, word)] puts the character [c] on cell
    [(i, j)]. *)
Definition covers (variable : Slot) (word : string) (i j : nat) (c : ascii)
  : Prop :=
  exists k, cell_row variable k = i /\ cell_col variable k = j
            /\ String.get k word = Some c.

(** Some entry of the assignment puts [c] on cell [(i, j)]. *)
Definition written (a : assignment) (i j : nat) (c : ascii) : Prop :=
  exists variable word, In (variable, word) a /\ covers variable word i j c.

(** Entries that share a cell put the same character on it. *)
Definition compatible (a : assignment) : Prop :=
  forall i j c c', written a i j c -> written a i j c' -> c = c'.

(** Every cell of every word lies inside the grid. *)
Definition fits (height width : nat) (a : assignment) : Prop :=
  forall variable word k,
    In (variable, word) a -> k < String.length word ->
    cell_row variable k < height /\ cell_col variable k < width.

(** The grid has [height] rows of [width] cells. *)
Definition grid_shape (height width : nat) (letters : grid) : Prop :=
  List.length letters = height
  /\ forall row, In row letters -> List.length row = width.

(** ** Vocabulary for the choice of a slot *)

(** [len(self.domains[v])] *)
Definition domain_size (doms : domains) (v : Slot) : nat :=
  match dict_find doms v with
  | Some dv => List.length dv
  | None => 0
  end.

(** [len(self.crossword.neighbors(v))] *)
Definition degree (cw : Crossword) (v : Slot) : nat :=
  List.length (neighbors cw v).

(** The slots among which the degree decides: the first of the sorted
    list and those at the indexes [J] of [duplicate_indexes]. *)
Definition tied (sorted_vars : list Slot) (J : list nat) (k : Slot) : Prop :=
  nth_error sorted_vars 0 = Some k
  \/ exists j, In j J /\ nth_error sorted_vars j = Some k.

(** ** Sample puzzles *)

Module Sample.
(** An across slot and a down slot through its second cell, and a slot
    of length four apart from both. *)
Definition across : Slot := mkSlot 0 0 ACROSS 3.
Definition down : Slot := mkSlot 0 1 DOWN 3.
Definition apart : Slot := mkSlot 5 0 ACROSS 4.

Definition crossing : list ((Slot * Slot) * option (nat * nat)) :=
  [((across, down), Some (1, 0)); ((down, across), Some (0, 1))].

(** Solvable: CAT across, ARE down. *)
Definition solvable : Crossword :=
  mkCrossword [across; down] ["CAT"; "ARE"; "DOG"; "BIRD"] crossing.

(** No word starts with the second letter of another one. *)
Definition unsolvable : Crossword :=
  mkCrossword [across; down] ["CAT"; "DOG"; "BIRD"] crossing.

(** Two slots that do not meet. *)
Definition disjoint : Crossword :=
  mkCrossword [across; apart] ["CAT"; "DOG"; "BIRD"]
    [((across, apart), None); ((apart, across), None)].

(** The three slots together; the vocabulary lists DOG first. *)
Definition three_slots : Crossword :=
  mkCrossword [across; down; apart] ["DOG"; "CAT"; "ARE"; "BIRD"]
    (crossing
     ++ [((across, apart), None); ((apart, across), None);
         ((down, apart), None); ((apart, down), None)]).

Definition pruned (cw : Crossword) : domains :=
  enforce_node_consistency (init_domains cw).

(** The solvable puzzle with its slots in the other order. *)
Definition swapped : Crossword :=
  mkCrossword [down; across] ["CAT"; "ARE"; "DOG"; "BIRD"] crossing.

(** CAT across and ARE down. *)
Definition cat_are : assignment := [(across, "CAT"); (down, "ARE")].
End Sample.

(** * Properties *)

(** ** Keys *)

Lemma key_eqb_refl {K} `{EqKey K} (x : K) : key_eqb x x = true.
Proof. now apply key_eqb_eq. Qed.

Lemma key_eqb_neq {K} `{EqKey K} (x y : K) : key_eqb x y = false <-> x <> y.
Proof.
  split; intros Hxy.
  - intros ->. rewrite key_eqb_refl in Hxy. discriminate.
  - destruct (key_eqb x y) eqn:E; [|reflexivity].
    apply key_eqb_eq in E. contradiction.
Qed.

Lemma key_eq_dec {K} `{EqKey K} (x y : K) : {x = y} + {x <> y}.
Proof.
  destruct (key_eqb x y) eqn:E.
  - left. now apply key_eqb_eq.
  - right. now apply key_eqb_neq.
Defined.

(** ** The exception monad *)

Lemma bind_Ok {A B} (m : result A) (k : A -> result B) (b : B) :
  bind m k = Ok b -> exists a, m = Ok a /\ k a = Ok b.
Proof. destruct m; simpl; try discriminate. intros E. now exists a. Qed.

(** Splits a hypothesis [bind m k = Ok b] into its two steps. *)
Ltac bind_inv H :=
  let x := fresh "x" in
  let E := fresh "E" in
  apply bind_Ok in H; destruct H as (x & E & H).

Lemma bind_not_fuel {A B} (m : result A) (k : A -> result B) :
  m <> OutOfFuel -> (forall a, m = Ok a -> k a <> OutOfFuel) ->
  bind m k <> OutOfFuel.
Proof.
  destruct m; simpl; intros Hm Hk; [now apply Hk | discriminate | contradiction].
Qed.

(** Lookups and subscripts use no fuel. *)
Lemma dict_get_not_fuel {K V} `{EqKey K} (d : list (K * V)) (k : K) :
  dict_get d k <> OutOfFuel.
Proof. unfold dict_get. destruct (dict_find d k); discriminate. Qed.

Lemma str_index_not_fuel (s : string) (n : nat) : str_index s n <> OutOfFuel.
Proof. unfold str_index. destruct (String.get n s); discriminate. Qed.

(** ** Sets and dictionaries *)

Section ListSetFacts.
Context {K : Type} `{EqKey K}.

Lemma set_mem_In (x : K) (s : list K) : set_mem x s = true <-> In x s.
Proof.
  unfold set_mem. rewrite existsb_exists. split.
  - intros (y & Hy & E). apply key_eqb_eq in E. now subst.
  - intros Hx. exists x. split; [assumption | apply key_eqb_refl].
Qed.

Lemma set_mem_not_In (x : K) (s : list K) : set_mem x s = false <-> ~ In x s.
Proof.
  rewrite <- set_mem_In. destruct (set_mem x s); split; congruence.
Qed.

Lemma set_add_In (s : list K) (x y : K) :
  In y (set_add s x) <-> In y s \/ y = x.
Proof.
  unfold set_add. destruct (set_mem x s) eqn:E.
  - apply set_mem_In in E. split; [auto | intros [?| ->]; auto].
  - rewrite in_app_iff. simpl. intuition congruence.
Qed.

Lemma set_add_NoDup (s : list K) (x : K) : NoDup s -> NoDup (set_add s x).
Proof.
  intros Hs. unfold set_add. destruct (set_mem x s) eqn:E; [assumption|].
  apply set_mem_not_In in E. apply NoDup_app; auto.
  - constructor; [easy | constructor].
  - intros a Ha [<- | []]. contradiction.
Qed.

Lemma set_subset_incl (s t : list K) : set_subset s t = true <-> incl s t.
Proof.
  unfold set_subset. rewrite forallb_forall. unfold incl.
  split; intros Hs x Hx; apply set_mem_In; auto.
Qed.

Lemma set_eq_iff (s t : list K) :
  set_eq s t = true <-> (forall x, In x s <-> In x t).
Proof.
  unfold set_eq. rewrite andb_true_iff, !set_subset_incl. unfold incl.
  split; [intros [H1 H2] x; split; auto | intros Hx; split; intros x; apply Hx].
Qed.
End ListSetFacts.

Section DictFacts.
Context {K V : Type} `{EqKey K}.
Implicit Types (d : list (K * V)) (k : K) (v : V).

Lemma dict_find_None d k : dict_find d k = None <-> ~ In k (dict_keys d).
Proof.
  induction d as [|[k' v'] d IH]; simpl; [tauto|].
  destruct (key_eqb k k') eqn:E.
  - apply key_eqb_eq in E. subst. split; [discriminate | intros Hn; exfalso; auto].
  - apply key_eqb_neq in E. rewrite IH. split; [intros Hn [?|?]; auto | tauto].
Qed.

Lemma dict_find_In d k v : dict_find d k = Some v -> In (k, v) d.
Proof.
  induction d as [|[k' v'] d IH]; simpl; [discriminate|].
  destruct (key_eqb k k') eqn:E.
  - apply key_eqb_eq in E. intros [= ->]. subst. now left.
  - auto.
Qed.

Lemma dict_find_Some_key d k v : dict_find d k = Some v -> In k (dict_keys d).
Proof. intros Hf. apply dict_find_In in Hf. now apply (in_map fst) in Hf. Qed.

Lemma dict_mem_In k d : dict_mem k d = true <-> In k (dict_keys d).
Proof.
  unfold dict_mem. destruct (dict_find d k) eqn:E.
  - split; [intros _; eauto using dict_find_Some_key | reflexivity].
  - apply dict_find_None in E. split; [discriminate | contradiction].
Qed.

Lemma dict_mem_false k d : dict_mem k d = false <-> dict_find d k = None.
Proof. unfold dict_mem. destruct (dict_find d k); split; congruence. Qed.

Lemma dict_find_set_same d k v : dict_find (dict_set d k v) k = Some v.
Proof.
  induction d as [|[k' v'] d IH]; simpl.
  - now rewrite key_eqb_refl.
  - destruct (key_eqb k k') eqn:E; simpl; rewrite E; auto.
Qed.

Lemma dict_find_set_other d k k' v :
  k <> k' -> dict_find (dict_set d k v) k' = dict_find d k'.
Proof.
  intros Hk. induction d as [|[k0 v0] d IH]; simpl.
  - apply not_eq_sym, key_eqb_neq in Hk. now rewrite Hk.
  - destruct (key_eqb k k0) eqn:E; simpl.
    + apply key_eqb_eq in E. subst k0.
      apply not_eq_sym, key_eqb_neq in Hk. now rewrite Hk.
    + now rewrite IH.
Qed.

Lemma dict_set_fresh d k v :
  dict_find d k = None -> dict_set d k v = d ++ [(k, v)].
Proof.
  induction d as [|[k' v'] d IH]; simpl; [reflexivity|].
  destruct (key_eqb k k'); [discriminate|]. intros Hf. now rewrite IH.
Qed.

Lemma dict_remove_last d k v :
  dict_find d k = None -> dict_remove (d ++ [(k, v)]) k = d.
Proof.
  induction d as [|[k' v'] d IH]; simpl.
  - now rewrite key_eqb_refl.
  - destruct (key_eqb k k'); [discriminate|]. intros Hf. now rewrite IH.
Qed.

Lemma dict_pop_set_fresh d k v :
  dict_find d k = None -> dict_pop (dict_set d k v) k = Ok d.
Proof.
  intros Hf. unfold dict_pop, dict_mem. rewrite dict_find_set_same.
  now rewrite dict_set_fresh, dict_remove_last.
Qed.

Lemma dict_keys_set_fresh d k v :
  dict_find d k = None -> dict_keys (dict_set d k v) = dict_keys d ++ [k].
Proof.
  intros Hf. rewrite dict_set_fresh by assumption.
  unfold dict_keys. now rewrite map_app.
Qed.

Lemma dict_keys_set_present d k v :
  In k (dict_keys d) -> dict_keys (dict_set d k v) = dict_keys d.
Proof.
  induction d as [|[k' v'] d IH]; simpl; [contradiction|].
  destruct (key_eqb k k') eqn:E; simpl; [reflexivity|].
  apply key_eqb_neq in E. intros [?|Hin]; [congruence|]. now rewrite IH.
Qed.
End DictFacts.

(** ** [revise] on a pair of slots without overlap *)

(** C3 (as the code behaves): when the overlap table maps [(x, y)] to
    [None], [revise(x, y)] does not return false; subscripting the entry
    before the test [if overlap] raises TypeError. *)
Theorem revise_no_overlap_raises (cw : Crossword) (doms : domains) (x y : Slot) :
  dict_find (overlaps cw) (x, y) = Some None ->
  revise cw doms x y = Raise TypeError.
Proof.
  intros Hov. unfold revise, dict_get. now rewrite Hov.
Qed.

(** ** [consistent] uses no fuel *)

Lemma consistent_neighbors_not_fuel (cw : Crossword) (a : assignment)
  (variable : Slot) (value : string) (ns : list Slot) :
  consistent_neighbors cw a variable value ns <> OutOfFuel.
Proof.
  induction ns as [|n ns IH]; simpl; [discriminate|].
  destruct (dict_find a n) as [n_value|]; [|assumption].
  destruct (truthy n_value); [|assumption].
  destruct (String.eqb value n_value); [discriminate|].
  apply bind_not_fuel; [apply dict_get_not_fuel|]. intros [[i j]|] _; [|assumption].
  apply bind_not_fuel; [apply str_index_not_fuel|]. intros cx _.
  apply bind_not_fuel; [apply str_index_not_fuel|]. intros cy _.
  destruct (negb (Ascii.eqb cx cy)); [discriminate | assumption].
Qed.

Lemma consistent_not_fuel (cw : Crossword) (a : assignment) :
  consistent cw a <> OutOfFuel.
Proof.
  unfold consistent. induction (variables cw) as [|v vs IH]; simpl; [discriminate|].
  destruct (dict_find a v) as [value|]; [|assumption].
  destruct (truthy value); [|assumption].
  destruct (negb (String.length value =? var_length v)); [discriminate|].
  apply bind_not_fuel; [apply consistent_neighbors_not_fuel|].
  intros [|] _; [assumption | discriminate].
Qed.

(** ** The assignment object across a call of [backtrack] *)


Lemma length_dict_set_fresh {K V} `{EqKey K} (d : list (K * V)) (k : K) (v : V) :
  dict_find d k = None -> List.length (dict_set d k v) = S (List.length d).
Proof.
  intros Hf. rewrite dict_set_fresh by assumption. rewrite length_app. simpl. lia.
Qed.

Section Backtrack.
Variable cw : Crossword.
Variable doms : domains.

Lemma first_unassigned_Some (a : assignment) (v : Slot) :
  first_unassigned cw a = Some v ->
  In v (variables cw) /\ dict_find a v = None.
Proof.
  unfold first_unassigned. intros Hf. apply find_some in Hf as [Hin Hm].
  split; [assumption|]. apply dict_mem_false. now apply negb_true_iff.
Qed.

Lemma try_values_search_ok (recurse : assignment -> result search)
  (variable : Slot) :
  (forall a s, recurse a = Ok s -> search_ok a s) ->
  forall ds a tr s,
    dict_find a variable = None ->
    try_values cw recurse variable ds a tr = Ok s ->
    search_ok a s.
Proof.
  intros Hrec. induction ds as [|domain ds IH]; intros a tr s Hfresh Hs.
  - simpl in Hs. injection Hs as <-. reflexivity.
  - simpl in Hs. bind_inv Hs. destruct x.
    + bind_inv Hs. rename x into sub. apply Hrec in E0. unfold search_ok in E0.
      pose proof (length_dict_set_fresh a variable domain Hfresh) as Hlen.
      destruct (returned sub) as [[|e r]|] eqn:Hret; simpl in Hs.
      * destruct E0 as [_ E0]. simpl in E0. lia.
      * injection Hs as <-. unfold search_ok. simpl.
        split; [tauto | simpl in E0; lia].
      * rewrite E0, dict_pop_set_fresh in Hs by assumption. simpl in Hs. eauto.
    + rewrite dict_pop_set_fresh in Hs by assumption. simpl in Hs. eauto.
Qed.

Lemma backtrack_fuel_search_ok (fuel : nat) :
  forall a s, backtrack_fuel fuel cw doms a = Ok s -> search_ok a s.
Proof.
  induction fuel as [|fuel IH]; intros a s Hs; simpl in Hs; [discriminate|].
  destruct (List.length (variables cw) =? List.length a).
  - injection Hs as <-. unfold search_ok. simpl. auto.
  - destruct (first_unassigned cw a) as [variable|] eqn:Hv.
    + apply first_unassigned_Some in Hv as [_ Hfresh].
      bind_inv Hs. eapply try_values_search_ok; eauto.
    + injection Hs as <-. reflexivity.
Qed.

(** *** Enough fuel *)


Lemma dict_mem_set (a : assignment) (v u : Slot) (w : string) :
  dict_mem u (dict_set a v w) = key_eqb v u || dict_mem u a.
Proof.
  unfold dict_mem. destruct (key_eqb v u) eqn:E.
  - apply key_eqb_eq in E. subst. now rewrite dict_find_set_same.
  - apply key_eqb_neq in E. now rewrite dict_find_set_other.
Qed.

Lemma filter_length_lt {A} (f g : A -> bool) (l : list A) (x : A) :
  (forall y, f y = true -> g y = true) ->
  In x l -> g x = true -> f x = false ->
  List.length (filter f l) < List.length (filter g l).
Proof.
  intros Hfg. induction l as [|y l IH]; simpl; [contradiction|].
  assert (Hle : forall l', List.length (filter f l') <= List.length (filter g l')).
  { induction l' as [|z l' IHl]; simpl; [lia|].
    destruct (f z) eqn:Ef; [rewrite (Hfg _ Ef); simpl; lia|].
    destruct (g z); simpl; lia. }
  intros [->|Hin] Hg Hf.
  - rewrite Hg, Hf. simpl. specialize (Hle l). lia.
  - specialize (IH Hin Hg Hf).
    destruct (f y) eqn:Ef; [rewrite (Hfg _ Ef); simpl; lia|].
    destruct (g y); simpl; lia.
Qed.

Lemma unassigned_set_lt (a : assignment) (v : Slot) (w : string) :
  In v (variables cw) -> dict_find a v = None ->
  List.length (unassigned cw (dict_set a v w)) < List.length (unassigned cw a).
Proof.
  intros Hin Hfresh. unfold unassigned. apply filter_length_lt with (x := v).
  - intros y. rewrite dict_mem_set, !negb_true_iff, orb_false_iff. tauto.
  - assumption.
  - apply negb_true_iff. now apply dict_mem_false.
  - rewrite dict_mem_set, key_eqb_refl. reflexivity.
Qed.

Lemma try_values_fuel (recurse : assignment -> result search)
  (variable : Slot) (a : assignment) :
  (forall a s, recurse a = Ok s -> search_ok a s) ->
  (forall w, recurse (dict_set a variable w) <> OutOfFuel) ->
  dict_find a variable = None ->
  forall ds tr, try_values cw recurse variable ds a tr <> OutOfFuel.
Proof.
  intros Hrec Hfuel Hfresh. induction ds as [|domain ds IH]; intros tr; simpl.
  - discriminate.
  - destruct (consistent cw (dict_set a variable domain)) as [[|]| |] eqn:Hc;
      simpl; try discriminate.
    + destruct (recurse (dict_set a variable domain)) as [sub| |] eqn:Hsub;
        simpl; try discriminate.
      * apply Hrec in Hsub. unfold search_ok in Hsub.
        destruct (returned sub) as [[|e r]|]; simpl; try discriminate.
        -- destruct Hsub as [-> _]. discriminate.
        -- rewrite Hsub, dict_pop_set_fresh by assumption. simpl. apply IH.
      * now apply Hfuel in Hsub.
    + rewrite dict_pop_set_fresh by assumption. simpl. apply IH.
    + now apply consistent_not_fuel in Hc.
Qed.

Lemma backtrack_fuel_enough (fuel : nat) :
  forall a, List.length (unassigned cw a) < fuel ->
            backtrack_fuel fuel cw doms a <> OutOfFuel.
Proof.
  induction fuel as [|fuel IH]; intros a Hlt; [lia|]. simpl.
  destruct (List.length (variables cw) =? List.length a); [discriminate|].
  destruct (first_unassigned cw a) as [variable|] eqn:Hv; [|discriminate].
  apply first_unassigned_Some in Hv as [Hin Hfresh].
  unfold dict_get. destruct (dict_find doms variable) as [dv|]; simpl; [|discriminate].
  apply try_values_fuel; [apply backtrack_fuel_search_ok | | assumption].
  intros w. apply IH.
  pose proof (unassigned_set_lt a variable w Hin Hfresh). lia.
Qed.

(** The fuel that [backtrack] starts with is enough. *)
Lemma backtrack_total (a : assignment) : backtrack cw doms a <> OutOfFuel.
Proof.
  apply backtrack_fuel_enough. unfold unassigned.
  pose proof (filter_length_le (fun v => negb (dict_mem v a)) (variables cw)). lia.
Qed.
End Backtrack.

(** C10: when [backtrack] returns [None], the assignment object holds
    what it held at entry: every tentative entry has been removed. *)
Theorem backtrack_failure_restores (cw : Crossword) (doms : domains)
  (a : assignment) (s : search) :
  backtrack cw doms a = Ok s -> returned s = None -> final s = a.
Proof.
  intros Hs Hret. apply backtrack_fuel_search_ok in Hs.
  unfold search_ok in Hs. now rewrite Hret in Hs.
Qed.

(** ** Strings *)

Lemma get_Some_lt (s : string) (n : nat) (c : ascii) :
  String.get n s = Some c -> n < String.length s.
Proof.
  revert n. induction s as [|a s IH]; intros [|n]; simpl; try discriminate; try lia.
  intros Hg. apply IH in Hg. lia.
Qed.

Lemma get_lt_Some (s : string) (n : nat) :
  n < String.length s -> exists c, String.get n s = Some c.
Proof.
  revert n. induction s as [|a s IH]; intros [|n]; simpl; try lia; eauto.
  intros Hn. apply IH. lia.
Qed.

Lemma str_index_Ok (s : string) (n : nat) (c : ascii) :
  str_index s n = Ok c <-> String.get n s = Some c.
Proof.
  unfold str_index. destruct (String.get n s); split; congruence.
Qed.

Lemma truthy_true (w : string) : truthy w = true <-> w <> "".
Proof.
  unfold truthy. rewrite negb_true_iff. split.
  - intros E ->. discriminate.
  - intros Hw. destruct (String.eqb w "") eqn:E; [|reflexivity].
    apply String.eqb_eq in E. contradiction.
Qed.

Lemma agreeb_agree (i j : nat) (wx wy : string) :
  agreeb i j wx wy = true <-> agree i j wx wy.
Proof.
  unfold agreeb, agree. split.
  - destruct (String.get i wx) as [cx|], (String.get j wy) as [cy|]; try discriminate.
    intros E. apply Ascii.eqb_eq in E. subst. eauto.
  - intros (c & -> & ->). apply Ascii.eqb_refl.
Qed.

(** ** [revise] *)

Section Revise.
Variable cw : Crossword.


Lemma revise_inner_true (wordX : string) (i j : nat) (dy : list string) :
  revise_inner wordX i j dy = Ok true ->
  exists wordY, In wordY dy /\ agree i j wordX wordY.
Proof.
  induction dy as [|wordY dy IH]; simpl; [discriminate|]. intros Hr.
  bind_inv Hr. bind_inv Hr. apply str_index_Ok in E, E0.
  destruct (Ascii.eqb x x0) eqn:Ec.
  - apply Ascii.eqb_eq in Ec. subst. exists wordY. split; [now left|].
    now exists x0.
  - destruct (IH Hr) as (w & Hin & Hag). exists w. auto.
Qed.

Lemma revise_outer_inv (doms : domains) (y : Slot) (i j : nat) :
  forall dx acc valid_words,
    revise_outer doms y i j dx acc = Ok valid_words ->
    (forall w, In w valid_words ->
               In w acc \/ (In w dx /\ supported doms y i j w))
    /\ incl acc valid_words
    /\ (NoDup acc -> NoDup valid_words).
Proof.
  induction dx as [|wordX dx IH]; intros acc valid Hr; simpl in Hr.
  - injection Hr as <-. repeat split; auto using incl_refl.
  - bind_inv Hr. rename x into dy. bind_inv Hr. rename x into found.
    unfold dict_get in E. destruct (dict_find doms y) as [dy'|] eqn:Hy; [|discriminate].
    injection E as ->. apply IH in Hr as (Hsup & Hincl & Hnd).
    repeat split.
    + intros w Hw. apply Hsup in Hw as [Hw | [Hw Hs]]; [|right; split; [now right | assumption]].
      destruct found; [|now left].
      apply set_add_In in Hw as [Hw | ->]; [now left|].
      right. split; [now left|]. apply revise_inner_true in E0 as (w' & Hin & Hag).
      exists dy, w'. auto.
    + intros w Hw. apply Hincl. destruct found; [|assumption].
      apply set_add_In. now left.
    + intros Ha. apply Hnd. destruct found; [|assumption]. now apply set_add_NoDup.
Qed.

(** What a call of [revise] that returns has done. *)
Lemma revise_inv (doms doms' : domains) (x y : Slot) (b : bool) :
  revise cw doms x y = Ok (b, doms') ->
  exists i j dx valid_words,
    dict_find (overlaps cw) (x, y) = Some (Some (i, j))
    /\ dict_find doms x = Some dx
    /\ NoDup valid_words
    /\ incl valid_words dx
    /\ (forall w, In w valid_words -> supported doms y i j w)
    /\ ((b = false /\ doms' = doms /\ incl dx valid_words)
        \/ (b = true /\ doms' = dict_set doms x valid_words
            /\ ~ incl dx valid_words)).
Proof.
  unfold revise, dict_get. intros Hr.
  destruct (dict_find (overlaps cw) (x, y)) as [[[i j]|]|]; simpl in Hr; try discriminate.
  destruct (dict_find doms x) as [dx|] eqn:Hx; simpl in Hr; [|discriminate].
  bind_inv Hr. rename x0 into valid.
  apply revise_outer_inv in E as (Hsup & _ & Hnd).
  exists i, j, dx, valid. repeat split; auto.
  - apply Hnd. constructor.
  - intros w Hw. apply Hsup in Hw as [[] | [Hw _]]. assumption.
  - intros w Hw. apply Hsup in Hw as [[] | [_ Hw]]. assumption.
  - destruct (set_eq valid dx) eqn:Heq; injection Hr as <- <-.
    + left. repeat split. intros w Hw. now apply (proj1 (set_eq_iff _ _) Heq).
    + right. repeat split. intros Hincl.
      assert (Ht : set_eq valid dx = true); [|congruence].
      apply set_eq_iff. intros w. split; [|apply Hincl].
      intros Hw. apply Hsup in Hw as [[] | [Hw _]]. assumption.
Qed.

(** A revision that changes the domain of [x] makes it smaller. *)
Lemma revise_shrinks (dx valid_words : list string) :
  NoDup valid_words -> incl valid_words dx -> ~ incl dx valid_words ->
  List.length valid_words < List.length dx.
Proof.
  intros Hnd Hincl Hnot.
  assert (Hex : exists w, In w dx /\ ~ In w valid_words).
  { clear Hnd Hincl. induction dx as [|w dx IH].
    - exfalso. apply Hnot. intros w [].
    - destruct (in_dec string_dec w valid_words) as [Hw|Hw]; [|exists w; split; [now left | assumption]].
      destruct IH as (w' & Hin & Hn).
      + intros Hincl. apply Hnot. intros z [<-|Hz]; auto.
      + exists w'. split; [now right | assumption]. }
  destruct Hex as (w & Hin & Hn).
  assert (Hle : List.length (w :: valid_words) <= List.length dx).
  { apply NoDup_incl_length; [now constructor|].
    intros z [<-|Hz]; auto. }
  simpl in Hle. lia.
Qed.
End Revise.

(** ** The domain store *)

Lemma dict_set_In_inv {K V} `{EqKey K} (d : list (K * V)) (k : K) (v : V) k' v' :
  In (k', v') (dict_set d k v) -> In (k', v') d \/ (k' = k /\ v' = v).
Proof.
  induction d as [|[k0 v0] d IH]; simpl.
  - intros [[= <- <-]|[]]. now right.
  - destruct (key_eqb k k0) eqn:E.
    + apply key_eqb_eq in E. subst k0. intros [[= <- <-]|Hin]; auto.
    + intros [Hin|Hin]; [now left; left|]. apply IH in Hin as [?|?]; auto.
Qed.

Lemma domains_size_set (doms : domains) (x : Slot) (dx ws : list string) :
  dict_find doms x = Some dx ->
  domains_size (dict_set doms x ws) + List.length dx
  = domains_size doms + List.length ws.
Proof.
  induction doms as [|[k v] doms IH]; cbn [dict_find dict_set]; [discriminate|].
  destruct (key_eqb x k); unfold domains_size; cbn [fold_right snd];
    fold (domains_size doms).
  - intros [= ->]. lia.
  - intros Hf. apply IH in Hf. fold (domains_size (dict_set doms x ws)). lia.
Qed.

Lemma dict_keys_set_found {K V} `{EqKey K} (d : list (K * V)) (k : K) (v v' : V) :
  dict_find d k = Some v' -> dict_keys (dict_set d k v) = dict_keys d.
Proof. intros Hf. apply dict_keys_set_present. eauto using dict_find_Some_key. Qed.

(** ** The worklist loop of [ac3] *)

Section AC3.
Variable cw : Crossword.

(** *** Proof rule: a loop invariant on domains and worklist *)
Section Invariant.
Variable Inv : domains -> list (Slot * Slot) -> Prop.

Hypothesis Inv_unchanged : forall doms X Y arcs,
  Inv doms ((X, Y) :: arcs) ->
  revise cw doms X Y = Ok (false, doms) ->
  Inv doms arcs.

Hypothesis Inv_changed : forall doms doms' X Y arcs,
  Inv doms ((X, Y) :: arcs) ->
  revise cw doms X Y = Ok (true, doms') ->
  Inv doms' (requeue cw arcs X).


Lemma ac3_pass_invariant
  (continue_with : domains -> list (Slot * Slot) -> result (bool * domains))
  (doms : domains) :
  (forall doms' arcs r,
      Inv doms' arcs -> continue_with doms' arcs = Ok r -> ac3_post cw Inv r) ->
  forall arcs r,
    Inv doms arcs -> ac3_pass cw continue_with doms arcs = Ok r -> ac3_post cw Inv r.
Proof.
  intros Hcont. induction arcs as [|[X Y] arcs IH]; intros r HI Hr; simpl in Hr.
  - injection Hr as <-. exact HI.
  - bind_inv Hr. destruct x as [[|] doms1]; simpl in Hr.
    + bind_inv Hr. rename x into dX. unfold dict_get in E0.
      destruct (dict_find doms1 X) as [dX'|] eqn:HX; [|discriminate].
      injection E0 as ->. destruct dX as [|w dX]; simpl in Hr.
      * injection Hr as <-. unfold ac3_post. simpl.
        exists doms, X, Y, arcs. auto.
      * eapply Hcont; [|exact Hr]. eapply Inv_changed; eauto.
    + pose proof (revise_inv _ _ _ _ _ _ E) as (i & j & dx & v & _ & _ & _ & _ & _ & Hb).
      destruct Hb as [(_ & -> & _) | (? & _)]; [|discriminate].
      apply IH; [|assumption]. eapply Inv_unchanged; eauto.
Qed.

Lemma ac3_loop_invariant (fuel : nat) :
  forall doms arcs r,
    Inv doms arcs -> ac3_loop fuel cw doms arcs = Ok r -> ac3_post cw Inv r.
Proof.
  induction fuel as [|fuel IH]; intros doms arcs r HI Hr; simpl in Hr; [discriminate|].
  eapply ac3_pass_invariant; eauto.
Qed.

(** *** Enough fuel, no exception *)

Hypothesis Inv_safe : forall doms X Y arcs,
  Inv doms ((X, Y) :: arcs) -> exists r, revise cw doms X Y = Ok r.

Lemma revise_changed_size (doms doms' : domains) (X Y : Slot) :
  revise cw doms X Y = Ok (true, doms') ->
  domains_size doms' < domains_size doms.
Proof.
  intros Hr. apply revise_inv in Hr
    as (i & j & dx & v & _ & Hx & Hnd & Hincl & _ & [(? & _) | (_ & -> & Hnot)]);
    [discriminate|].
  pose proof (revise_shrinks _ _ Hnd Hincl Hnot).
  pose proof (domains_size_set doms X dx v Hx). lia.
Qed.

Lemma ac3_loop_total (fuel : nat) :
  forall doms arcs,
    Inv doms arcs -> domains_size doms < fuel ->
    exists r, ac3_loop fuel cw doms arcs = Ok r.
Proof.
  induction fuel as [|fuel IH]; intros doms arcs HI Hlt; [lia|]. simpl.
  induction arcs as [|[X Y] arcs IHa]; simpl; [eauto|].
  destruct (Inv_safe _ _ _ _ HI) as ([b doms1] & Hr). rewrite Hr. simpl.
  destruct b; simpl.
  - assert (HX : exists dX, dict_find doms1 X = Some dX).
    { pose proof (revise_inv _ _ _ _ _ _ Hr)
        as (i & j & dx & v & _ & _ & _ & _ & _ & [(? & _) | (_ & -> & _)]);
        [discriminate|].
      exists v. apply dict_find_set_same. }
    destruct HX as (dX & HX). unfold dict_get. rewrite HX. simpl.
    destruct dX; simpl; [eauto|]. apply IH.
    + eapply Inv_changed; eauto.
    + apply revise_changed_size in Hr. lia.
  - pose proof (revise_inv _ _ _ _ _ _ Hr) as (i & j & dx & v & _ & _ & _ & _ & _ & Hb).
    destruct Hb as [(_ & -> & _) | (? & _)]; [|discriminate].
    apply IHa. eapply Inv_unchanged; eauto.
Qed.
End Invariant.
End AC3.

(** *** The fuel of [ac3] is enough on every input *)

Lemma revise_inner_not_fuel (wordX : string) (i j : nat) (dy : list string) :
  revise_inner wordX i j dy <> OutOfFuel.
Proof.
  induction dy as [|wordY dy IH]; simpl; [discriminate|].
  apply bind_not_fuel; [apply str_index_not_fuel|]. intros cx _.
  apply bind_not_fuel; [apply str_index_not_fuel|]. intros cy _.
  destruct (Ascii.eqb cx cy); [discriminate | exact IH].
Qed.

Lemma revise_outer_not_fuel (doms : domains) (y : Slot) (i j : nat) :
  forall dx acc, revise_outer doms y i j dx acc <> OutOfFuel.
Proof.
  induction dx as [|wordX dx IH]; intros acc; simpl; [discriminate|].
  apply bind_not_fuel; [apply dict_get_not_fuel|]. intros dy _.
  apply bind_not_fuel; [apply revise_inner_not_fuel|]. intros found _. apply IH.
Qed.

Lemma revise_not_fuel (cw : Crossword) (doms : domains) (x y : Slot) :
  revise cw doms x y <> OutOfFuel.
Proof.
  unfold revise.
  apply bind_not_fuel; [apply dict_get_not_fuel|]. intros overlap _.
  destruct overlap as [[i j]|]; simpl; [|discriminate].
  apply bind_not_fuel; [apply dict_get_not_fuel|]. intros dx _.
  apply bind_not_fuel; [apply revise_outer_not_fuel|]. intros valid _.
  destruct (set_eq valid dx); discriminate.
Qed.

Lemma ac3_loop_fuel (cw : Crossword) (fuel : nat) :
  forall doms arcs,
    domains_size doms < fuel -> ac3_loop fuel cw doms arcs <> OutOfFuel.
Proof.
  induction fuel as [|fuel IH]; intros doms arcs Hlt; [lia|]. simpl.
  induction arcs as [|[X Y] arcs IHa]; simpl; [discriminate|].
  apply bind_not_fuel; [apply revise_not_fuel|]. intros [b doms1] Hr.
  destruct b; simpl.
  - apply bind_not_fuel; [apply dict_get_not_fuel|]. intros dX _.
    destruct (List.length dX =? 0); [discriminate|]. apply IH.
    apply revise_changed_size in Hr. lia.
  - pose proof (revise_inv _ _ _ _ _ _ Hr) as (i & j & dx & v & _ & _ & _ & _ & _ & Hb).
    destruct Hb as [(_ & -> & _) | (? & _)]; [exact IHa | discriminate].
Qed.

(** Whatever the puzzle and the worklist, [ac3] returns or raises. *)
Lemma ac3_terminates (cw : Crossword) (doms : domains)
  (arcs : option (list (Slot * Slot))) :
  ac3 cw doms arcs <> OutOfFuel.
Proof. unfold ac3. apply ac3_loop_fuel. lia. Qed.

(** ** Well-formed puzzles *)

Lemma distinct_NoDup {K} `{EqKey K} (l : list K) : distinct l = true -> NoDup l.
Proof.
  induction l as [|x l IH]; simpl; [constructor|].
  rewrite andb_true_iff, negb_true_iff, set_mem_not_In.
  intros [Hx Hl]. constructor; auto.
Qed.

Section WellFormed.
Variable cw : Crossword.
Hypothesis Hwf : well_formed cw = true.

Lemma wf_NoDup : NoDup (variables cw).
Proof.
  unfold well_formed in Hwf. apply andb_true_iff in Hwf as [Hd _].
  now apply distinct_NoDup.
Qed.

Lemma wf_entry (x y : Slot) :
  In x (variables cw) -> In y (variables cw) -> x <> y ->
  overlap_entry_ok cw x y = true.
Proof.
  intros Hx Hy Hxy. unfold well_formed in Hwf.
  apply andb_true_iff in Hwf as [_ Hall].
  rewrite forallb_forall in Hall. specialize (Hall x Hx).
  rewrite forallb_forall in Hall. specialize (Hall y Hy).
  apply orb_true_iff in Hall as [E|E]; [|assumption].
  apply key_eqb_eq in E. contradiction.
Qed.

(** Offsets lie inside the slots and the table is symmetric. *)
Lemma wf_overlap (x y : Slot) (i j : nat) :
  In x (variables cw) -> In y (variables cw) -> x <> y ->
  dict_find (overlaps cw) (x, y) = Some (Some (i, j)) ->
  i < var_length x /\ j < var_length y
  /\ dict_find (overlaps cw) (y, x) = Some (Some (j, i)).
Proof.
  intros Hx Hy Hxy Hov. pose proof (wf_entry x y Hx Hy Hxy) as He.
  unfold overlap_entry_ok in He. rewrite Hov in He.
  destruct (dict_find (overlaps cw) (y, x)) as [[[j' i']|]|];
    rewrite ?andb_false_r in He; try discriminate.
  rewrite !andb_true_iff, !Nat.ltb_lt, !Nat.eqb_eq in He.
  destruct He as [[Hi Hj] [-> ->]]. auto.
Qed.

Lemma neighbors_In (x y : Slot) :
  In y (neighbors cw x) <->
  In y (variables cw) /\ y <> x
  /\ exists o, dict_find (overlaps cw) (y, x) = Some (Some o).
Proof.
  unfold neighbors. rewrite filter_In, andb_true_iff, negb_true_iff, key_eqb_neq.
  destruct (dict_find (overlaps cw) (y, x)) as [[o|]|].
  - intuition eauto.
  - split; [intros (_ & _ & ?); discriminate | intros (_ & _ & o & ?); discriminate].
  - split; [intros (_ & _ & ?); discriminate | intros (_ & _ & o & ?); discriminate].
Qed.

Lemma wf_neighbor (x y : Slot) :
  In x (variables cw) -> In y (neighbors cw x) ->
  exists i j,
    dict_find (overlaps cw) (x, y) = Some (Some (i, j))
    /\ i < var_length x /\ j < var_length y
    /\ In y (variables cw) /\ x <> y /\ In x (neighbors cw y).
Proof.
  intros Hx Hn. apply neighbors_In in Hn as (Hy & Hyx & [j i] & Hov).
  destruct (wf_overlap y x j i Hy Hx Hyx Hov) as (Hj & Hi & Hsym).
  exists i, j. repeat split; auto.
  apply neighbors_In. repeat split; eauto.
Qed.

Lemma wf_neighbor_overlap (x y : Slot) (i j : nat) :
  In x (variables cw) -> In y (variables cw) -> x <> y ->
  dict_find (overlaps cw) (x, y) = Some (Some (i, j)) ->
  In y (neighbors cw x).
Proof.
  intros Hx Hy Hxy Hov. apply neighbors_In. repeat split; auto.
  destruct (wf_overlap x y i j Hx Hy Hxy Hov) as (_ & _ & Hsym). eauto.
Qed.
End WellFormed.

(** ** Worklists *)

Lemma fold_set_add_In {A K} `{EqKey K} (f : A -> K) (l : list A) :
  forall (acc : list K) (p : K),
    In p (fold_left (fun acc z => set_add acc (f z)) l acc)
    <-> In p acc \/ exists z, In z l /\ p = f z.
Proof.
  induction l as [|z l IH]; intros acc p; simpl.
  - split; [auto | intros [?|(z & [] & _)]; assumption].
  - rewrite IH, set_add_In. split.
    + intros [[?| ->]|(z' & Hz & ->)]; eauto.
    + intros [?|(z' & [<-|Hz] & ->)]; eauto.
Qed.

Lemma all_arcs_In (cw : Crossword) (x y : Slot) :
  In (x, y) (all_arcs cw) <-> In x (variables cw) /\ In y (neighbors cw x).
Proof.
  unfold all_arcs.
  assert (Hgen : forall vs acc,
             In (x, y) (fold_left
                          (fun arcs variable =>
                             fold_left (fun arcs neighbor => set_add arcs (variable, neighbor))
                                       (neighbors cw variable) arcs) vs acc)
             <-> In (x, y) acc \/ (In x vs /\ In y (neighbors cw x))).
  { induction vs as [|v vs IH]; intros acc; simpl.
    - tauto.
    - rewrite IH, (fold_set_add_In (fun n => (v, n))). split.
      + intros [[?|(z & Hz & [= -> ->])]|[? ?]]; auto.
      + intros [?|[[->|?] ?]]; eauto. }
  rewrite Hgen. simpl. tauto.
Qed.

Lemma requeue_In (cw : Crossword) (arcs : list (Slot * Slot)) (X : Slot)
  (p : Slot * Slot) :
  In p (requeue cw arcs X)
  <-> In p arcs \/ exists Z, In Z (neighbors cw X) /\ (p = (X, Z) \/ p = (Z, X)).
Proof.
  unfold requeue.
  assert (Hgen : forall ns acc,
             In p (fold_left (fun arcs Z => set_add (set_add arcs (X, Z)) (Z, X)) ns acc)
             <-> In p acc \/ exists Z, In Z ns /\ (p = (X, Z) \/ p = (Z, X))).
  { induction ns as [|Z ns IH]; intros acc; simpl.
    - split; [auto | intros [?|(Z & [] & _)]; assumption].
    - rewrite IH, !set_add_In. split.
      + intros [[[?| ->]| ->]|(Z' & HZ & Hp)]; eauto 6.
      + intros [?|(Z' & [<-|HZ] & [->| ->])]; eauto 6. }
  destruct (neighbors cw X) as [|Z ns] eqn:En.
  - split; [auto | intros [?|(Z & [] & _)]; assumption].
  - apply Hgen.
Qed.

(** ** Domains only shrink *)


Lemma shrinks_refl (d : domains) : shrinks d d.
Proof. intros v ws Hf. exists ws. auto using incl_refl. Qed.

Lemma shrinks_trans (d1 d2 d3 : domains) :
  shrinks d1 d2 -> shrinks d2 d3 -> shrinks d1 d3.
Proof.
  intros H12 H23 v ws3 Hf. destruct (H23 v ws3 Hf) as (ws2 & Hf2 & Hi2 & Hl2).
  destruct (H12 v ws2 Hf2) as (ws1 & Hf1 & Hi1 & Hl1).
  exists ws1. repeat split; [assumption | eauto using incl_tran | lia].
Qed.

Lemma revise_shrinks_domains (cw : Crossword) (doms doms' : domains)
  (x y : Slot) (b : bool) :
  revise cw doms x y = Ok (b, doms') -> shrinks doms' doms.
Proof.
  intros Hr. apply revise_inv in Hr
    as (i & j & dx & valid & _ & Hx & Hnd & Hincl & _ & [(_ & -> & _) | (_ & -> & _)]).
  - apply shrinks_refl.
  - intros v ws0 Hv. destruct (key_eq_dec x v) as [<-|Hxv].
    + rewrite Hx in Hv. injection Hv as <-. exists valid.
      rewrite dict_find_set_same. repeat split; auto.
      now apply NoDup_incl_length.
    + exists ws0. rewrite dict_find_set_other by assumption.
      auto using incl_refl.
Qed.

Lemma ac3_loop_shrinks (cw : Crossword) (fuel : nat) (doms0 doms : domains)
  (arcs : list (Slot * Slot)) (r : bool * domains) :
  shrinks doms doms0 -> ac3_loop fuel cw doms arcs = Ok r -> shrinks (snd r) doms0.
Proof.
  intros Hs Hr.
  pose proof (ac3_loop_invariant cw (fun d _ => shrinks d doms0)) as Hinv.
  unfold ac3_post in Hinv. specialize (Hinv (fun d _ _ _ H _ => H)).
  assert (Hch : forall d d' X Y (arcs : list (Slot * Slot)),
             shrinks d doms0 -> revise cw d X Y = Ok (true, d') -> shrinks d' doms0).
  { intros d d' X Y _ Hd Hrev. eapply shrinks_trans; [|exact Hd].
    eapply revise_shrinks_domains; eauto. }
  specialize (Hinv Hch fuel doms arcs r Hs Hr).
  destruct (fst r); [assumption|].
  destruct Hinv as (d & X & Y & arcs' & Hd & Hrev & _). eauto.
Qed.

Lemma ac3_shrinks (cw : Crossword) (doms : domains)
  (arcs : option (list (Slot * Slot))) (r : bool * domains) :
  ac3 cw doms arcs = Ok r -> shrinks (snd r) doms.
Proof. apply ac3_loop_shrinks, shrinks_refl. Qed.

Lemma dict_find_enforce (doms : domains) (v : Slot) :
  dict_find (enforce_node_consistency doms) v
  = option_map (filter (fun word => String.length word =? var_length v))
               (dict_find doms v).
Proof.
  induction doms as [|[k ws] doms IH]; cbn [enforce_node_consistency map dict_find fst snd];
    [reflexivity|].
  destruct (key_eqb v k) eqn:E; [|exact IH].
  apply key_eqb_eq in E. now subst.
Qed.

Lemma dict_find_init (cw : Crossword) (v : Slot) :
  In v (variables cw) -> dict_find (init_domains cw) v = Some (words cw).
Proof.
  unfold init_domains. induction (variables cw) as [|k vs IH]; cbn [map dict_find]; [contradiction|].
  destruct (key_eqb v k) eqn:E; [reflexivity|].
  apply key_eqb_neq in E. intros [?|?]; [congruence | auto].
Qed.

Lemma dict_keys_init (cw : Crossword) : dict_keys (init_domains cw) = variables cw.
Proof.
  unfold dict_keys, init_domains. rewrite map_map. simpl. apply map_id.
Qed.

Lemma dict_keys_enforce (doms : domains) :
  dict_keys (enforce_node_consistency doms) = dict_keys doms.
Proof. unfold dict_keys, enforce_node_consistency. now rewrite map_map. Qed.

Lemma enforce_node_consistent (doms : domains) :
  node_consistent (enforce_node_consistency doms).
Proof.
  intros v ws w Hin Hw. unfold enforce_node_consistency in Hin.
  apply in_map_iff in Hin as ([k ws0] & [= <- <-] & _).
  apply filter_In in Hw as [_ Hw]. now apply Nat.eqb_eq in Hw.
Qed.

(** ** [ac3] returns on well-formed puzzles *)

Section AC3Safe.
Variable cw : Crossword.
Hypothesis Hwf : well_formed cw = true.


Lemma dict_find_key (doms : domains) (v : Slot) :
  dict_keys doms = variables cw -> In v (variables cw) ->
  exists ws, dict_find doms v = Some ws.
Proof.
  intros Hk Hv. destruct (dict_find doms v) as [ws|] eqn:E; [eauto|].
  apply dict_find_None in E. rewrite Hk in E. contradiction.
Qed.

Lemma revise_inner_total (wordX : string) (i j : nat) (dy : list string) :
  i < String.length wordX -> (forall w, In w dy -> j < String.length w) ->
  exists b, revise_inner wordX i j dy = Ok b.
Proof.
  intros Hi. induction dy as [|wordY dy IH]; intros Hj; simpl; [eauto|].
  destruct (get_lt_Some wordX i Hi) as (cx & Hcx).
  destruct (get_lt_Some wordY j (Hj wordY (or_introl eq_refl))) as (cy & Hcy).
  unfold str_index. rewrite Hcx, Hcy. simpl.
  destruct (Ascii.eqb cx cy); [eauto|]. apply IH. intros w Hw. apply Hj. now right.
Qed.

Lemma revise_outer_total (doms : domains) (y : Slot) (i j : nat)
  (dy : list string) :
  dict_find doms y = Some dy -> (forall w, In w dy -> j < String.length w) ->
  forall dx acc, (forall w, In w dx -> i < String.length w) ->
                 exists valid_words, revise_outer doms y i j dx acc = Ok valid_words.
Proof.
  intros Hy Hj. induction dx as [|wordX dx IH]; intros acc Hi; simpl; [eauto|].
  unfold dict_get. rewrite Hy. simpl.
  destruct (revise_inner_total wordX i j dy (Hi wordX (or_introl eq_refl)) Hj)
    as (b & ->). simpl. apply IH. intros w Hw. apply Hi. now right.
Qed.

Lemma revise_total (doms : domains) (x y : Slot) :
  dict_keys doms = variables cw -> node_consistent doms ->
  In x (variables cw) -> In y (neighbors cw x) ->
  exists r, revise cw doms x y = Ok r.
Proof.
  intros Hk Hnc Hx Hy.
  destruct (wf_neighbor cw Hwf x y Hx Hy) as (i & j & Hov & Hi & Hj & Hyv & _).
  destruct (dict_find_key doms x Hk Hx) as (dx & Hdx).
  destruct (dict_find_key doms y Hk Hyv) as (dy & Hdy).
  unfold revise, dict_get. rewrite Hov, Hdx. simpl.
  assert (Hly : forall w, In w dy -> j < String.length w).
  { intros w Hw. apply dict_find_In in Hdy. now rewrite (Hnc y dy w Hdy Hw). }
  assert (Hlx : forall w, In w dx -> i < String.length w).
  { intros w Hw. apply dict_find_In in Hdx. now rewrite (Hnc x dx w Hdx Hw). }
  destruct (revise_outer_total doms y i j dy Hdy Hly dx [] Hlx) as (valid & ->).
  simpl. destruct (set_eq valid dx); eauto.
Qed.

Lemma ac3_safe_changed (doms doms' : domains) (X Y : Slot)
  (arcs : list (Slot * Slot)) :
  ac3_safe cw doms ((X, Y) :: arcs) ->
  revise cw doms X Y = Ok (true, doms') ->
  ac3_safe cw doms' (requeue cw arcs X).
Proof.
  intros (Hk & Hnc & Harcs) Hr.
  destruct (Harcs X Y (or_introl eq_refl)) as [HX _].
  apply revise_inv in Hr
    as (i & j & dx & valid & _ & Hx & _ & Hincl & _ & [(? & _) | (_ & -> & _)]);
    [discriminate|].
  split; [|split].
  - rewrite (dict_keys_set_found _ _ _ _ Hx). assumption.
  - intros v ws w Hin Hw. apply dict_set_In_inv in Hin as [Hin | [-> ->]].
    + eapply Hnc; eauto.
    + apply (Hnc X dx w); [now apply dict_find_In | now apply Hincl].
  - intros x y Hin.
    apply requeue_In in Hin as [Hin | (Z & HZ & [[= -> ->] | [= -> ->]])].
    + apply Harcs. now right.
    + auto.
    + destruct (wf_neighbor cw Hwf X Z HX HZ) as (_ & _ & _ & _ & _ & Hv & _ & Hn).
      auto.
Qed.

Lemma ac3_safe_unchanged (doms : domains) (X Y : Slot)
  (arcs : list (Slot * Slot)) :
  ac3_safe cw doms ((X, Y) :: arcs) ->
  revise cw doms X Y = Ok (false, doms) ->
  ac3_safe cw doms arcs.
Proof.
  intros (Hk & Hnc & Harcs) _. split; [|split]; auto.
  intros x y Hin. apply Harcs. now right.
Qed.

Lemma ac3_safe_revise (doms : domains) (X Y : Slot) (arcs : list (Slot * Slot)) :
  ac3_safe cw doms ((X, Y) :: arcs) -> exists r, revise cw doms X Y = Ok r.
Proof.
  intros (Hk & Hnc & Harcs). destruct (Harcs X Y (or_introl eq_refl)).
  now apply revise_total.
Qed.

Lemma ac3_safe_start (doms : domains) :
  dict_keys doms = variables cw -> node_consistent doms ->
  ac3_safe cw doms (all_arcs cw).
Proof.
  intros Hk Hnc. split; [|split]; auto.
  intros x y Hin. now apply all_arcs_In in Hin.
Qed.

(** With all arcs as worklist, [ac3] returns true or false. *)
Lemma ac3_total (doms : domains) :
  dict_keys doms = variables cw -> node_consistent doms ->
  exists r, ac3 cw doms None = Ok r.
Proof.
  intros Hk Hnc. unfold ac3.
  apply (ac3_loop_total cw (ac3_safe cw) ac3_safe_unchanged ac3_safe_changed ac3_safe_revise).
  - now apply ac3_safe_start.
  - lia.
Qed.

(** What is known of the domains that [ac3] leaves. *)
Lemma ac3_result_safe (doms : domains) (r : bool * domains) :
  dict_keys doms = variables cw -> node_consistent doms ->
  ac3 cw doms None = Ok r ->
  dict_keys (snd r) = variables cw /\ node_consistent (snd r)
  /\ (fst r = false ->
      exists X, In X (variables cw) /\ dict_find (snd r) X = Some []).
Proof.
  intros Hk Hnc Hr. unfold ac3 in Hr.
  pose proof (ac3_loop_invariant cw (ac3_safe cw) ac3_safe_unchanged ac3_safe_changed
                _ _ _ _ (ac3_safe_start doms Hk Hnc) Hr) as Hpost.
  unfold ac3_post in Hpost. destruct (fst r).
  - destruct Hpost as (Hk' & Hnc' & _). repeat split; auto. discriminate.
  - destruct Hpost as (d & X & Y & arcs & Hsafe & Hrev & Hempty).
    destruct (ac3_safe_changed _ _ _ _ _ Hsafe Hrev) as (Hk' & Hnc' & _).
    repeat split; auto. intros _. exists X. split; [|assumption].
    destruct Hsafe as (_ & _ & Harcs). now apply (Harcs X Y (or_introl eq_refl)).
Qed.
End AC3Safe.

(** C7: across the consistency phase the domain of every slot only
    shrinks: what [ac3] leaves is included in what node consistency left,
    which is included in the vocabulary, and the sizes are ordered
    accordingly. *)
Theorem domains_only_shrink (cw : Crossword) :
  well_formed cw = true ->
  exists b doms2,
    ac3 cw (enforce_node_consistency (init_domains cw)) None = Ok (b, doms2)
    /\ forall v, In v (variables cw) ->
         exists d1 d2,
           dict_find (enforce_node_consistency (init_domains cw)) v = Some d1
           /\ dict_find doms2 v = Some d2
           /\ incl d2 d1 /\ incl d1 (words cw)
           /\ List.length d2 <= List.length d1 <= List.length (words cw).
Proof.
  intros Hwf.
  destruct (ac3_total cw Hwf (enforce_node_consistency (init_domains cw)))
    as ([b doms2] & Hac3).
  - now rewrite dict_keys_enforce, dict_keys_init.
  - apply enforce_node_consistent.
  - exists b, doms2. split; [assumption|]. intros v Hv.
    pose proof (dict_find_enforce (init_domains cw) v) as Hnc.
    rewrite (dict_find_init cw v Hv) in Hnc. simpl in Hnc.
    apply ac3_shrinks in Hac3. destruct (Hac3 v _ Hnc) as (d2 & Hd2 & Hincl & Hlen).
    eexists _, d2. split; [exact Hnc|]. repeat split; auto.
    + intros w Hw. now apply filter_In in Hw.
    + apply filter_length_le.
Qed.

(** ** Arc consistency after [ac3] *)

Section ArcConsistency.
Variable cw : Crossword.


Lemma pending_unchanged (doms : domains) (X Y : Slot) (arcs : list (Slot * Slot)) :
  pending_or_ok cw doms ((X, Y) :: arcs) ->
  revise cw doms X Y = Ok (false, doms) ->
  pending_or_ok cw doms arcs.
Proof.
  intros Hinv Hr x y Hx Hy. destruct (Hinv x y Hx Hy) as [[[= <- <-]|Hin]|Hok]; auto.
  right. apply revise_inv in Hr
    as (i & j & dx & valid & Hov & Hdx & _ & _ & Hsup & [(_ & _ & Hincl) | (? & _)]);
    [|discriminate].
  exists i, j. split; [assumption|]. intros dx' w Hdx' Hw.
  rewrite Hdx in Hdx'. injection Hdx' as <-. apply Hsup. now apply Hincl.
Qed.

Lemma pending_changed (doms doms' : domains) (X Y : Slot)
  (arcs : list (Slot * Slot)) :
  pending_or_ok cw doms ((X, Y) :: arcs) ->
  revise cw doms X Y = Ok (true, doms') ->
  pending_or_ok cw doms' (requeue cw arcs X).
Proof.
  intros Hinv Hr x y Hx Hy. apply revise_inv in Hr
    as (i & j & dx & valid & Hov & Hdx & _ & Hincl & Hsup & [(? & _) | (_ & -> & _)]);
    [discriminate|].
  assert (Hyx : y <> x) by (apply neighbors_In in Hy; tauto).
  destruct (Hinv x y Hx Hy) as [[[= <- <-]|Hin]|Hok].
  - (* the arc just revised *)
    right. exists i, j. split; [assumption|]. intros dx' w Hdx' Hw.
    rewrite dict_find_set_same in Hdx'. injection Hdx' as <-.
    destruct (Hsup w Hw) as (dy & w' & Hdy & Hw' & Hag).
    exists dy, w'. rewrite dict_find_set_other by auto. auto.
  - left. apply requeue_In. now left.
  - destruct (key_eq_dec y X) as [->|HyX].
    + (* an arc into [X] goes back to the worklist *)
      left. apply requeue_In. right. exists x. split; [|now right].
      destruct Hok as (i' & j' & Hov' & _). apply neighbors_In.
      repeat split; eauto.
    + right. destruct Hok as (i' & j' & Hov' & Hok). exists i', j'.
      split; [assumption|]. intros dx' w Hdx' Hw.
      rewrite dict_find_set_other by auto.
      destruct (key_eq_dec X x) as [->|HXx].
      * rewrite dict_find_set_same in Hdx'. injection Hdx' as <-.
        apply (Hok dx w Hdx). now apply Hincl.
      * rewrite dict_find_set_other in Hdx' by assumption. eauto.
Qed.
End ArcConsistency.

(** C6: when [ac3], started with all arcs, returns true, every word left
    for a slot has, in the domain of each neighbor, a word that agrees
    with it at the overlap offsets. *)
Theorem ac3_success_arc_consistent (cw : Crossword) (doms doms' : domains) :
  ac3 cw doms None = Ok (true, doms') -> arc_consistent cw doms'.
Proof.
  intros Hr. unfold ac3 in Hr.
  pose proof (ac3_loop_invariant cw (pending_or_ok cw) (pending_unchanged cw)
                (pending_changed cw) (S (domains_size doms)) doms (all_arcs cw)
                (true, doms')) as Hpost.
  specialize (Hpost ltac:(intros x y Hx Hy; left; now apply all_arcs_In) Hr).
  unfold ac3_post in Hpost. simpl in Hpost.
  intros x y Hx Hy. destruct (Hpost x y Hx Hy) as [[]|Hok]. exact Hok.
Qed.

(** ** [consistent] *)

Section Consistent.
Variable cw : Crossword.

(** What the loop over the neighbors has checked when it lets the outer
    loop go on. *)
Lemma consistent_neighbors_true (a : assignment) (v : Slot) (value : string) :
  forall ns,
    consistent_neighbors cw a v value ns = Ok true ->
    forall n n_value,
      In n ns -> dict_find a n = Some n_value -> n_value <> "" ->
      value <> n_value
      /\ exists o, dict_find (overlaps cw) (v, n) = Some o
                   /\ match o with
                      | Some (i, j) => agree i j value n_value
                      | None => True
                      end.
Proof.
  induction ns as [|m ns IH]; intros Hc n n_value Hin Hn Hne; [contradiction|].
  simpl in Hc. destruct Hin as [->|Hin].
  - rewrite Hn in Hc. apply truthy_true in Hne. rewrite Hne in Hc.
    destruct (String.eqb value n_value) eqn:Heq; [discriminate|].
    apply String.eqb_neq in Heq. split; [assumption|].
    bind_inv Hc. unfold dict_get in E.
    destruct (dict_find (overlaps cw) (v, n)) as [o|]; [|discriminate].
    injection E as ->. exists x. split; [reflexivity|].
    destruct x as [[i j]|]; [|exact I].
    bind_inv Hc. bind_inv Hc. apply str_index_Ok in E, E0.
    destruct (Ascii.eqb x x0) eqn:Ec; [|discriminate].
    apply Ascii.eqb_eq in Ec. subst. now exists x0.
  - destruct (dict_find a m) as [m_value|]; [|eauto].
    destruct (truthy m_value); [|eauto].
    destruct (String.eqb value m_value); [discriminate|].
    bind_inv Hc. destruct x as [[i j]|]; [|eauto].
    bind_inv Hc. bind_inv Hc. destruct (negb _); [discriminate | eauto].
Qed.

Lemma consistent_vars_true (a : assignment) :
  forall vs,
    consistent_vars cw a vs = Ok true ->
    forall v value,
      In v vs -> dict_find a v = Some value -> value <> "" ->
      String.length value = var_length v
      /\ consistent_neighbors cw a v value (neighbors cw v) = Ok true.
Proof.
  induction vs as [|u vs IH]; intros Hc v value Hin Hv Hne; [contradiction|].
  simpl in Hc. destruct Hin as [->|Hin].
  - rewrite Hv in Hc. apply truthy_true in Hne. rewrite Hne in Hc.
    destruct (String.length value =? var_length v) eqn:Hl; [|discriminate].
    apply Nat.eqb_eq in Hl. split; [assumption|]. simpl in Hc.
    bind_inv Hc. destruct x; [assumption | discriminate].
  - destruct (dict_find a u) as [u_value|]; [|eauto].
    destruct (truthy u_value); [|eauto].
    destruct (negb _); [discriminate|].
    bind_inv Hc. destruct x; [eauto | discriminate].
Qed.

Hypothesis Hwf : well_formed cw = true.


Lemma consistent_neighbors_total (a : assignment) (v : Slot) (value : string) :
  lengths_ok cw a -> In v (variables cw) -> String.length value = var_length v ->
  forall ns, incl ns (neighbors cw v) ->
             exists b, consistent_neighbors cw a v value ns = Ok b.
Proof.
  intros Hlen Hv Hl. induction ns as [|n ns IH]; intros Hincl; simpl; [eauto|].
  assert (Hns : incl ns (neighbors cw v)) by (intros z Hz; apply Hincl; now right).
  destruct (dict_find a n) as [n_value|] eqn:Hn; [|auto].
  destruct (truthy n_value) eqn:Ht; [|auto]. apply truthy_true in Ht.
  destruct (String.eqb value n_value); [eauto|].
  destruct (wf_neighbor cw Hwf v n Hv (Hincl n (or_introl eq_refl)))
    as (i & j & Hov & Hi & Hj & Hnv & _).
  unfold dict_get. rewrite Hov. simpl.
  destruct (get_lt_Some value i) as (cx & Hcx); [lia|].
  destruct (get_lt_Some n_value j) as (cy & Hcy); [rewrite (Hlen n n_value); auto|].
  unfold str_index. rewrite Hcx, Hcy. simpl.
  destruct (negb _); eauto.
Qed.

(** On assignments whose words fit, [consistent] raises nothing. *)
Lemma consistent_total (a : assignment) :
  lengths_ok cw a -> exists b, consistent cw a = Ok b.
Proof.
  intros Hlen. unfold consistent.
  assert (Hgen : forall vs, incl vs (variables cw) ->
                            exists b, consistent_vars cw a vs = Ok b).
  { induction vs as [|v vs IH]; intros Hincl; simpl; [eauto|].
    assert (Hvs : incl vs (variables cw)) by (intros z Hz; apply Hincl; now right).
    assert (Hv : In v (variables cw)) by (apply Hincl; now left).
    destruct (dict_find a v) as [value|] eqn:Ha; [|auto].
    destruct (truthy value) eqn:Ht; [|auto]. apply truthy_true in Ht.
    rewrite (Hlen v value Hv Ha Ht), Nat.eqb_refl. simpl.
    destruct (consistent_neighbors_total a v value Hlen Hv (Hlen v value Hv Ha Ht)
                (neighbors cw v) (incl_refl _)) as (b & ->).
    simpl. destruct b; eauto. }
  apply Hgen, incl_refl.
Qed.

Lemma consistent_neighbors_complete (a : assignment) (v : Slot) (value : string) :
  consistent_nonempty cw a -> In v (variables cw) ->
  dict_find a v = Some value -> value <> "" ->
  forall ns, incl ns (neighbors cw v) ->
             consistent_neighbors cw a v value ns = Ok true.
Proof.
  intros [Hlen Hpair] Hv Ha Hne. induction ns as [|n ns IH]; intros Hincl; simpl;
    [reflexivity|].
  assert (Hns : incl ns (neighbors cw v)) by (intros z Hz; apply Hincl; now right).
  destruct (dict_find a n) as [n_value|] eqn:Hn; [|auto].
  destruct (truthy n_value) eqn:Ht; [|auto]. apply truthy_true in Ht.
  destruct (wf_neighbor cw Hwf v n Hv (Hincl n (or_introl eq_refl)))
    as (i & j & Hov & _ & _ & Hnv & Hvn & _).
  destruct (Hpair v n i j value n_value Hv Hnv Hvn Hov Ha Hn Hne Ht)
    as (Hdiff & c & Hcx & Hcy).
  apply String.eqb_neq in Hdiff. rewrite Hdiff.
  unfold dict_get. rewrite Hov. simpl. unfold str_index. rewrite Hcx, Hcy. simpl.
  rewrite Ascii.eqb_refl. simpl. auto.
Qed.

(** What [consistent] decides. *)
Lemma consistent_iff (a : assignment) :
  consistent cw a = Ok true <-> consistent_nonempty cw a.
Proof.
  unfold consistent. split.
  - intros Hc. split.
    + intros x wx Hx Hax Hne.
      now destruct (consistent_vars_true a _ Hc x wx Hx Hax Hne).
    + intros x y i j wx wy Hx Hy Hxy Hov Hax Hay Hnx Hny.
      destruct (consistent_vars_true a _ Hc x wx Hx Hax Hnx) as [_ Hn].
      pose proof (wf_neighbor_overlap cw Hwf x y i j Hx Hy Hxy Hov) as Hnb.
      destruct (consistent_neighbors_true a x wx _ Hn y wy Hnb Hay Hny)
        as (Hdiff & o & Hov' & Hag).
      rewrite Hov in Hov'. injection Hov' as <-. auto.
  - intros Hspec.
    assert (Hgen : forall vs, incl vs (variables cw) ->
                              consistent_vars cw a vs = Ok true).
    { induction vs as [|v vs IH]; intros Hincl; simpl; [reflexivity|].
      assert (Hvs : incl vs (variables cw)) by (intros z Hz; apply Hincl; now right).
      assert (Hv : In v (variables cw)) by (apply Hincl; now left).
      destruct (dict_find a v) as [value|] eqn:Ha; [|auto].
      destruct (truthy value) eqn:Ht; [|auto]. apply truthy_true in Ht.
      rewrite (proj1 Hspec v value Hv Ha Ht), Nat.eqb_refl. simpl.
      rewrite (consistent_neighbors_complete a v value Hspec Hv Ha Ht _ (incl_refl _)).
      simpl. auto. }
    apply Hgen, incl_refl.
Qed.
End Consistent.

(** C8 (as the code behaves): on a well-formed puzzle [consistent(a)]
    returns true exactly when every slot mapped to a non-empty word has a
    word of the slot's length and any two distinct overlapping slots
    mapped to non-empty words carry different words that agree at the
    overlap offsets; slots mapped to the empty word are passed over. *)
Theorem consistent_characterised (cw : Crossword) (a : assignment) :
  well_formed cw = true ->
  (consistent cw a = Ok true <-> consistent_nonempty cw a).
Proof. intros Hwf. now apply consistent_iff. Qed.

(** ** Stable sorting *)

Section Sorting.
Context {A : Type}.
Variable key : A -> nat.

Lemma insert_sorted_perm (bf : A -> A -> bool) (x : A) (l : list A) :
  Permutation (insert_sorted bf x l) (x :: l).
Proof.
  induction l as [|y l IH]; simpl; [reflexivity|].
  destruct (bf x y); [reflexivity|].
  rewrite IH. apply perm_swap.
Qed.

Lemma sorted_items_perm (bf : A -> A -> bool) (l : list A) :
  Permutation (sorted_items bf l) l.
Proof.
  unfold sorted_items.
  assert (Hgen : forall acc, Permutation (fold_left (fun acc x => insert_sorted bf x acc) l acc)
                                         (acc ++ l)).
  { induction l as [|x l IH]; intros acc; simpl.
    - now rewrite app_nil_r.
    - rewrite IH, insert_sorted_perm. apply Permutation_middle. }
  apply (Hgen []).
Qed.

Lemma insert_sorted_sorted (x : A) (l : list A) :
  StronglySorted (fun x y => key x <= key y) l ->
  StronglySorted (fun x y => key x <= key y)
    (insert_sorted (fun x y => key x <? key y) x l).
Proof.
  induction 1 as [|y l Hl IH Hy]; simpl.
  - repeat constructor.
  - destruct (key x <? key y) eqn:E.
    + apply Nat.ltb_lt in E. constructor; [now constructor|].
      constructor; [lia|].
      eapply Forall_impl; [|exact Hy]. simpl. intros z Hz. lia.
    + apply Nat.ltb_ge in E. constructor; [assumption|].
      eapply Permutation_Forall; [symmetry; apply insert_sorted_perm|].
      constructor; assumption.
Qed.

Lemma sorted_items_sorted (l : list A) :
  StronglySorted (fun x y => key x <= key y)
    (sorted_items (fun x y => key x <? key y) l).
Proof.
  unfold sorted_items.
  assert (Hgen : forall acc,
             StronglySorted (fun x y => key x <= key y) acc ->
             StronglySorted (fun x y => key x <= key y)
               (fold_left (fun acc x => insert_sorted (fun x y => key x <? key y) x acc)
                          l acc)).
  { induction l as [|x l IH]; intros acc Hacc; simpl; [assumption|].
    apply IH. now apply insert_sorted_sorted. }
  apply Hgen. constructor.
Qed.
End Sorting.

Lemma sorted_by_value_perm {K} (d : list (K * nat)) : Permutation (sorted_by_value d) d.
Proof. apply sorted_items_perm. Qed.

Lemma sorted_by_value_sorted {K} (d : list (K * nat)) :
  StronglySorted (fun x y => snd x <= snd y) (sorted_by_value d).
Proof. apply (sorted_items_sorted (@snd K nat)). Qed.

Lemma StronglySorted_map_fst {K} (count : K -> nat) (d : list (K * nat)) :
  (forall k c, In (k, c) d -> c = count k) ->
  StronglySorted (fun x y => snd x <= snd y) d ->
  StronglySorted (fun k1 k2 => count k1 <= count k2) (map fst d).
Proof.
  intros Hc Hs. induction Hs as [|[k c] d Hd IH Hk]; simpl; constructor.
  - apply IH. intros k' c' Hin. apply Hc. now right.
  - apply Forall_forall. intros k' Hk'. apply in_map_iff in Hk' as ([k2 c2] & <- & Hin).
    rewrite Forall_forall in Hk. specialize (Hk _ Hin). simpl in Hk |- *.
    rewrite <- (Hc k c (or_introl eq_refl)), <- (Hc k2 c2 (or_intror Hin)). exact Hk.
Qed.

Lemma dict_In_find {K V} `{EqKey K} (d : list (K * V)) (k : K) (v : V) :
  NoDup (dict_keys d) -> In (k, v) d -> dict_find d k = Some v.
Proof.
  induction d as [|[k' v'] d IH]; simpl; [contradiction|].
  intros Hnd Hin. inversion Hnd as [|? ? Hk' Hd]; subst.
  destruct Hin as [[= -> ->]|Hin].
  - now rewrite key_eqb_refl.
  - destruct (key_eqb k k') eqn:E; [|auto].
    apply key_eqb_eq in E. subst. exfalso. apply Hk'.
    apply (in_map fst) in Hin. exact Hin.
Qed.

(** ** [order_domain_values] *)

Section OrderDomainValues.
Variable cw : Crossword.
Variable doms : domains.
Variable a : assignment.
Variable var : Slot.


Lemma bumped_zero (ov : list (string * nat)) (value : string) : bumped ov ov value 0.
Proof.
  split; [reflexivity|]. split; [|reflexivity].
  intros c ->. f_equal. lia.
Qed.

Lemma bumped_trans (ov1 ov2 ov3 : list (string * nat)) (value : string) (n m : nat) :
  (exists c, dict_find ov1 value = Some c) ->
  bumped ov1 ov2 value n -> bumped ov2 ov3 value m -> bumped ov1 ov3 value (n + m).
Proof.
  intros (c & Hc) (Hk1 & Hv1 & Ho1) (Hk2 & Hv2 & Ho2). split; [congruence|]. split.
  - intros c' Hc'. rewrite (Hv2 _ (Hv1 _ Hc')). f_equal. lia.
  - intros w Hw. now rewrite Ho2, Ho1.
Qed.

Lemma bumped_found (ov ov' : list (string * nat)) (value : string) (n : nat) :
  (exists c, dict_find ov value = Some c) -> bumped ov ov' value n ->
  exists c, dict_find ov' value = Some c.
Proof. intros (c & Hc) (_ & Hv & _). eauto. Qed.

Lemma odv_count_bumped (value : string) (i j : nat) :
  forall dn ov ov',
    (exists c, dict_find ov value = Some c) ->
    odv_count value i j dn ov = Ok ov' ->
    bumped ov ov' value
      (List.length (filter (fun n_value => negb (agreeb i j value n_value)) dn)).
Proof.
  induction dn as [|n_value dn IH]; intros ov ov' Hc Hr; simpl in Hr.
  - injection Hr as <-. apply bumped_zero.
  - bind_inv Hr. bind_inv Hr. bind_inv Hr. rename x1 into ov1.
    apply str_index_Ok in E, E0. simpl. unfold agreeb at 1. rewrite E, E0.
    assert (H1 : bumped ov ov1 value (if negb (Ascii.eqb x x0) then 1 else 0)).
    { destruct (negb (Ascii.eqb x x0)).
      - unfold dict_incr in E1. bind_inv E1. injection E1 as <-.
        unfold dict_get in E2. destruct (dict_find ov value) as [c|] eqn:Hf; [|discriminate].
        injection E2 as <-. split; [|split].
        + eapply dict_keys_set_found; eauto.
        + intros c' Hc'. rewrite Hf in Hc'. injection Hc' as <-.
          apply dict_find_set_same.
        + intros w Hw. apply dict_find_set_other. auto.
      - injection E1 as <-. apply bumped_zero. }
    pose proof (IH ov1 ov' (bumped_found _ _ _ _ Hc H1) Hr) as H2.
    pose proof (bumped_trans _ _ _ _ _ _ Hc H1 H2) as H3.
    destruct (negb (Ascii.eqb x x0)); exact H3.
Qed.

Lemma odv_neighbors_bumped (value : string) :
  forall ns ov ov',
    (exists c, dict_find ov value = Some c) ->
    odv_neighbors cw doms a var value ns ov = Ok ov' ->
    bumped ov ov' value
      (list_sum (map (eliminated_in cw doms var value)
                     (filter (fun neighbor => negb (dict_mem neighbor a)) ns))).
Proof.
  induction ns as [|neighbor ns IH]; intros ov ov' Hc Hr; simpl in Hr.
  - injection Hr as <-. apply bumped_zero.
  - simpl. destruct (dict_mem neighbor a); simpl; [auto|].
    bind_inv Hr. bind_inv Hr. bind_inv Hr. bind_inv Hr. bind_inv Hr.
    rename x into overlap, x0 into i, x1 into j, x2 into dn, x3 into ov1.
    unfold dict_get in E, E2.
    destruct (dict_find (overlaps cw) (var, neighbor)) as [o|] eqn:Hov; [|discriminate].
    injection E as ->. destruct overlap as [[i' j']|]; [|discriminate].
    injection E0 as ->. injection E1 as ->.
    destruct (dict_find doms neighbor) as [dn'|] eqn:Hdn; [|discriminate].
    injection E2 as ->.
    pose proof (odv_count_bumped value i j dn ov ov1 Hc E3) as H1.
    pose proof (IH ov1 ov' (bumped_found _ _ _ _ Hc H1) Hr) as H2.
    pose proof (bumped_trans _ _ _ _ _ _ Hc H1 H2) as H3.
    unfold eliminated_in at 1. rewrite Hov, Hdn. exact H3.
Qed.

Lemma odv_values_counts :
  forall vals ov ov',
    NoDup vals ->
    (forall w, In w vals -> exists c, dict_find ov w = Some c) ->
    odv_values cw doms a var vals ov = Ok ov' ->
    dict_keys ov' = dict_keys ov
    /\ (forall w c, In w vals -> dict_find ov w = Some c ->
                    dict_find ov' w = Some (c + elimination_count cw doms a var w))
    /\ (forall w, ~ In w vals -> dict_find ov' w = dict_find ov w).
Proof.
  induction vals as [|value vals IH]; intros ov ov' Hnd Hkeys Hr; simpl in Hr.
  - injection Hr as <-. repeat split; auto. intros w c [].
  - bind_inv Hr. rename x into ov1. inversion Hnd as [|? ? Hnotin Hnd']; subst.
    pose proof (odv_neighbors_bumped value _ ov ov1 (Hkeys value (or_introl eq_refl)) E)
      as (Hk1 & Hv1 & Ho1).
    destruct (IH ov1 ov' Hnd') as (Hk2 & Hv2 & Ho2); [|assumption|].
    { intros w Hw. rewrite Ho1 by (intros ->; contradiction).
      apply Hkeys. now right. }
    split; [congruence|]. split.
    + intros w c [<-|Hw] Hc.
      * rewrite Ho2 by assumption. now apply Hv1.
      * apply Hv2; [assumption|]. rewrite Ho1 by (intros ->; contradiction). exact Hc.
    + intros w Hw. rewrite Ho2 by (intros Hin; apply Hw; now right).
      apply Ho1. intros ->. apply Hw. now left.
Qed.

Lemma order_values_init (dv : list string) :
  NoDup dv ->
  fold_left (fun d value => dict_set d value 0) dv [] = map (fun w => (w, 0)) dv.
Proof.
  intros Hnd.
  assert (Hgen : forall (acc : list (string * nat)),
             NoDup (dict_keys acc ++ dv) ->
             fold_left (fun d value => dict_set d value 0) dv acc
             = acc ++ map (fun w => (w, 0)) dv).
  { clear Hnd. induction dv as [|w dv IH]; intros acc Hacc; simpl.
    - now rewrite app_nil_r.
    - rewrite IH.
      + rewrite dict_set_fresh, <- app_assoc; [reflexivity|].
        apply dict_find_None. apply NoDup_remove_2 in Hacc.
        intros Hin. apply Hacc. apply in_or_app. now left.
      + rewrite dict_keys_set_fresh, <- app_assoc; [exact Hacc|].
        apply dict_find_None. apply NoDup_remove_2 in Hacc.
        intros Hin. apply Hacc. apply in_or_app. now left. }
  apply (Hgen []). exact Hnd.
Qed.

(** The list that [order_domain_values] returns. *)
Lemma order_domain_values_inv (dv l : list string) :
  dict_find doms var = Some dv -> NoDup dv ->
  order_domain_values cw doms var a = Ok l ->
  Permutation l dv
  /\ StronglySorted
       (fun w1 w2 => elimination_count cw doms a var w1
                     <= elimination_count cw doms a var w2) l.
Proof.
  intros Hdv Hnd Hr. unfold order_domain_values, dict_get in Hr.
  rewrite Hdv in Hr. simpl in Hr. bind_inv Hr. rename x into ov. injection Hr as <-.
  rewrite (order_values_init dv Hnd) in E.
  assert (Hfind0 : forall w, In w dv ->
                             dict_find (map (fun w => (w, 0)) dv) w = Some 0).
  { intros w Hw. apply dict_In_find.
    - unfold dict_keys. rewrite map_map. simpl. now rewrite map_id.
    - apply in_map_iff. eauto. }
  apply odv_values_counts in E as (Hk & Hv & _); [|assumption|eauto].
  assert (Hkeys : dict_keys ov = dv).
  { rewrite Hk. unfold dict_keys. rewrite map_map. simpl. apply map_id. }
  split.
  - rewrite (Permutation_map fst (sorted_by_value_perm ov)). fold (dict_keys ov).
    now rewrite Hkeys.
  - apply StronglySorted_map_fst; [|apply sorted_by_value_sorted].
    intros w c Hin.
    apply (Permutation_in _ (sorted_by_value_perm ov)) in Hin.
    assert (Hw : In w dv) by (rewrite <- Hkeys; apply (in_map fst) in Hin; exact Hin).
    apply dict_In_find in Hin; [|now rewrite Hkeys].
    rewrite (Hv w 0 Hw (Hfind0 w Hw)) in Hin. now injection Hin as <-.
Qed.
End OrderDomainValues.

Lemma dict_find_key_iff {K V} `{EqKey K} (d : list (K * V)) (k : K) :
  In k (dict_keys d) <-> exists v, dict_find d k = Some v.
Proof.
  split.
  - intros Hin. destruct (dict_find d k) as [v|] eqn:E; [eauto|].
    apply dict_find_None in E. contradiction.
  - intros (v & Hv). eauto using dict_find_Some_key.
Qed.

Section OrderDomainValuesTotal.
Variable cw : Crossword.
Variable doms : domains.
Variable a : assignment.
Variable var : Slot.
Hypothesis Hwf : well_formed cw = true.
Hypothesis Hkeys : dict_keys doms = variables cw.
Hypothesis Hnc : node_consistent doms.
Hypothesis Hvar : In var (variables cw).

Lemma odv_count_total (value : string) (i j : nat) :
  i < String.length value ->
  forall dn ov,
    (forall w, In w dn -> j < String.length w) ->
    In value (dict_keys ov) ->
    exists ov', odv_count value i j dn ov = Ok ov'.
Proof.
  intros Hi. induction dn as [|n_value dn IH]; intros ov Hj Hin; simpl; [eauto|].
  destruct (get_lt_Some value i Hi) as (cx & Hcx).
  destruct (get_lt_Some n_value j (Hj n_value (or_introl eq_refl))) as (cy & Hcy).
  unfold str_index. rewrite Hcx, Hcy. simpl.
  assert (Hdn : forall w, In w dn -> j < String.length w)
    by (intros w Hw; apply Hj; now right).
  destruct (negb (Ascii.eqb cx cy)); simpl; [|auto].
  apply dict_find_key_iff in Hin as Hc. destruct Hc as (c & Hc).
  unfold dict_incr, dict_get. rewrite Hc. simpl. apply IH; [assumption|].
  now rewrite (dict_keys_set_found _ _ _ _ Hc).
Qed.

Lemma odv_neighbors_total (value : string) :
  String.length value = var_length var ->
  forall ns ov,
    incl ns (neighbors cw var) -> In value (dict_keys ov) ->
    exists ov', odv_neighbors cw doms a var value ns ov = Ok ov'.
Proof.
  intros Hl. induction ns as [|neighbor ns IH]; intros ov Hincl Hin; simpl; [eauto|].
  assert (Hns : incl ns (neighbors cw var)) by (intros z Hz; apply Hincl; now right).
  destruct (dict_mem neighbor a); [auto|].
  destruct (wf_neighbor cw Hwf var neighbor Hvar (Hincl _ (or_introl eq_refl)))
    as (i & j & Hov & Hi & Hj & Hnv & _).
  destruct (dict_find_key cw doms neighbor Hkeys Hnv) as (dn & Hdn).
  unfold dict_get. rewrite Hov, Hdn. simpl.
  destruct (odv_count_total value i j) with (dn := dn) (ov := ov) as (ov1 & Hov1);
    [lia | | assumption |].
  { intros w Hw. apply dict_find_In in Hdn. rewrite (Hnc _ _ _ Hdn Hw). exact Hj. }
  rewrite Hov1. simpl. apply IH; [assumption|].
  pose proof (proj1 (dict_find_key_iff _ _) Hin) as Hc.
  destruct (odv_count_bumped value i j dn ov ov1 Hc Hov1) as (Hk & _). now rewrite Hk.
Qed.

Lemma odv_values_total :
  forall vals ov,
    (forall w, In w vals -> String.length w = var_length var) ->
    incl vals (dict_keys ov) ->
    exists ov', odv_values cw doms a var vals ov = Ok ov'.
Proof.
  induction vals as [|value vals IH]; intros ov Hl Hincl; simpl; [eauto|].
  destruct (odv_neighbors_total value (Hl _ (or_introl eq_refl)) (neighbors cw var) ov)
    as (ov1 & Hov1); [apply incl_refl | apply Hincl; now left |].
  rewrite Hov1. simpl. apply IH.
  - intros w Hw. apply Hl. now right.
  - assert (Hin : In value (dict_keys ov)) by (apply Hincl; now left).
    apply dict_find_key_iff in Hin.
    destruct (odv_neighbors_bumped cw doms a var value _ ov ov1 Hin Hov1) as (Hk & _).
    rewrite Hk. intros w Hw. apply Hincl. now right.
Qed.

Lemma order_domain_values_total :
  exists l, order_domain_values cw doms var a = Ok l.
Proof.
  destruct (dict_find_key cw doms var Hkeys Hvar) as (dv & Hdv).
  unfold order_domain_values, dict_get. rewrite Hdv. simpl.
  destruct (odv_values_total dv (fold_left (fun d value => dict_set d value 0) dv []))
    as (ov & ->); [| |simpl; eauto].
  - intros w Hw. apply dict_find_In in Hdv. exact (Hnc _ _ _ Hdv Hw).
  - assert (Hgen : forall l (acc : list (string * nat)) w,
               In w l \/ In w (dict_keys acc) ->
               In w (dict_keys (fold_left (fun d value => dict_set d value 0) l acc))).
    { induction l as [|v l IH]; intros acc w [Hw|Hw]; simpl; try contradiction; auto.
      - destruct Hw as [->|Hw]; [|auto]. apply IH. right.
        apply dict_find_key_iff. exists 0. apply dict_find_set_same.
      - apply IH. right. destruct (key_eq_dec v w) as [->|Hvw].
        + apply dict_find_key_iff. exists 0. apply dict_find_set_same.
        + apply dict_find_key_iff. rewrite dict_find_set_other by assumption.
          now apply dict_find_key_iff. }
    intros w Hw. apply Hgen. now left.
Qed.
End OrderDomainValuesTotal.

(** C9: the list that [order_domain_values] returns holds the words of
    the slot's domain in ascending order of elimination count, the number
    of words in the domains of the neighbors outside the assignment that
    disagree with the word at the overlap offsets; on a well-formed puzzle
    with node-consistent domains the list is returned. *)
Theorem order_domain_values_sorted (cw : Crossword) (doms : domains)
  (var : Slot) (a : assignment) (dv : list string) :
  dict_find doms var = Some dv -> distinct dv = true ->
  (forall l, order_domain_values cw doms var a = Ok l ->
             Permutation l dv
             /\ StronglySorted
                  (fun w1 w2 => elimination_count cw doms a var w1
                                <= elimination_count cw doms a var w2) l)
  /\ (well_formed cw = true -> dict_keys doms = variables cw ->
      node_consistent doms -> In var (variables cw) ->
      exists l, order_domain_values cw doms var a = Ok l).
Proof.
  intros Hdv Hd. split.
  - intros l Hl. apply order_domain_values_inv with (dv := dv); auto.
    now apply distinct_NoDup.
  - intros Hwf Hk Hnc Hv. now apply order_domain_values_total.
Qed.

(** ** Soundness of the search *)

Section SearchSound.
Variable cw : Crossword.
Variable doms : domains.



Lemma good_full_complete (a : assignment) :
  good_assignment cw a -> List.length (variables cw) = List.length a ->
  assignment_complete cw a = true.
Proof.
  intros (_ & Hnd & Hincl & Hne) Hlen. unfold assignment_complete.
  apply forallb_forall. intros v Hv.
  assert (Hin : In v (dict_keys a)).
  { apply (@NoDup_length_incl _ (dict_keys a) (variables cw) Hnd); [|assumption|assumption].
    unfold dict_keys. rewrite length_map. lia. }
  apply dict_find_key_iff in Hin as (w & Hw). rewrite Hw.
  apply truthy_true. apply (Hne v). now apply dict_find_In.
Qed.

Lemma good_extend (a : assignment) (variable : Slot) (domain : string) :
  good_assignment cw a -> In variable (variables cw) ->
  dict_find a variable = None -> domain <> "" ->
  consistent cw (dict_set a variable domain) = Ok true ->
  good_assignment cw (dict_set a variable domain).
Proof.
  intros (_ & Hnd & Hincl & Hne) Hv Hfresh Hd Hc. split; [assumption|].
  rewrite dict_keys_set_fresh, dict_set_fresh by assumption. split; [|split].
  - apply NoDup_app; auto.
    + constructor; [easy | constructor].
    + intros v Hin [<-|[]]. now apply dict_find_None in Hfresh.
  - intros v Hin. apply in_app_or in Hin as [Hin|[<-|[]]]; auto.
  - intros v w Hin. apply in_app_or in Hin as [Hin|[[= <- <-]|[]]]; eauto.
Qed.

Hypothesis Hwords : no_empty_word doms = true.

Lemma domain_word_nonempty (v : Slot) (dv : list string) (w : string) :
  dict_find doms v = Some dv -> In w dv -> w <> "".
Proof.
  intros Hdv Hw ->. apply dict_find_In in Hdv. unfold no_empty_word in Hwords.
  rewrite forallb_forall in Hwords. specialize (Hwords _ Hdv). simpl in Hwords.
  apply negb_true_iff, set_mem_not_In in Hwords. contradiction.
Qed.

Lemma try_values_sound (recurse : assignment -> result search) (variable : Slot) :
  (forall a s, recurse a = Ok s -> search_ok a s) ->
  (forall a s r, good_assignment cw a -> recurse a = Ok s ->
                 returned s = Some r -> solution cw r) ->
  In variable (variables cw) ->
  forall ds a tr s r,
    good_assignment cw a -> dict_find a variable = None ->
    (forall w, In w ds -> w <> "") ->
    try_values cw recurse variable ds a tr = Ok s ->
    returned s = Some r -> solution cw r.
Proof.
  intros Hok Hrec Hv. induction ds as [|domain ds IH];
    intros a tr s r Hgood Hfresh Hne Hs Hret; simpl in Hs.
  - injection Hs as <-. discriminate.
  - assert (Hds : forall w, In w ds -> w <> "") by (intros w Hw; apply Hne; now right).
    bind_inv Hs. destruct x.
    + bind_inv Hs. rename x into sub.
      pose proof (Hok _ _ E0) as Hsub. unfold search_ok in Hsub.
      pose proof (length_dict_set_fresh a variable domain Hfresh) as Hlen.
      destruct (returned sub) as [[|e r']|] eqn:Hr; simpl in Hs.
      * destruct Hsub as [_ Hsub]. simpl in Hsub. lia.
      * injection Hs as <-. simpl in Hret. injection Hret as <-.
        apply (Hrec _ _ _ (good_extend a variable domain Hgood Hv Hfresh
                             (Hne _ (or_introl eq_refl)) E) E0 Hr).
      * rewrite Hsub, dict_pop_set_fresh in Hs by assumption. simpl in Hs. eauto.
    + rewrite dict_pop_set_fresh in Hs by assumption. simpl in Hs. eauto.
Qed.

Lemma backtrack_fuel_sound (fuel : nat) :
  forall a s r,
    good_assignment cw a -> backtrack_fuel fuel cw doms a = Ok s ->
    returned s = Some r -> solution cw r.
Proof.
  induction fuel as [|fuel IH]; intros a s r Hgood Hs Hret; simpl in Hs; [discriminate|].
  destruct (List.length (variables cw) =? List.length a) eqn:Hlen.
  - injection Hs as <-. simpl in Hret. injection Hret as <-.
    apply Nat.eqb_eq in Hlen. split; [now apply good_full_complete | apply Hgood].
  - destruct (first_unassigned cw a) as [variable|] eqn:Hv.
    + apply first_unassigned_Some in Hv as [Hin Hfresh].
      bind_inv Hs. rename x into dv. unfold dict_get in E.
      destruct (dict_find doms variable) as [dv'|] eqn:Hdv; [|discriminate].
      injection E as ->.
      eapply try_values_sound; eauto using backtrack_fuel_search_ok.
      intros w Hw. eapply domain_word_nonempty; eauto.
    + injection Hs as <-. discriminate.
Qed.
End SearchSound.

Lemma proper_start_good (cw : Crossword) (a : assignment) :
  proper_start cw a = true -> consistent cw a = Ok true -> good_assignment cw a.
Proof.
  unfold proper_start. rewrite !andb_true_iff. intros [[Hd Hs] Hw] Hc.
  split; [assumption|]. split; [now apply distinct_NoDup|].
  split; [now apply set_subset_incl|].
  intros v w Hin. rewrite forallb_forall in Hw. specialize (Hw _ Hin).
  now apply truthy_true in Hw.
Qed.

(** C4 (as the code behaves): when the search starts from a consistent
    assignment of non-empty words to distinct slots of the puzzle, and no
    domain holds the empty word, an assignment returned by [backtrack]
    passes [assignment_complete] and [consistent]. *)
Theorem backtrack_sound (cw : Crossword) (doms : domains) (a : assignment)
  (s : search) (r : assignment) :
  no_empty_word doms = true ->
  proper_start cw a = true -> consistent cw a = Ok true ->
  backtrack cw doms a = Ok s -> returned s = Some r ->
  assignment_complete cw r = true /\ consistent cw r = Ok true.
Proof.
  intros Hwords Hstart Hc Hs Hret.
  eapply backtrack_fuel_sound; eauto using proper_start_good.
Qed.

(** ** The search on well-formed puzzles with node-consistent domains *)

Lemma try_values_trace (cw : Crossword) (recurse : assignment -> result search)
  (variable : Slot) :
  forall ds a tr s,
    try_values cw recurse variable ds a tr = Ok s -> exists tr', trace s = tr ++ tr'.
Proof.
  induction ds as [|domain ds IH]; intros a tr s Hs; simpl in Hs.
  - injection Hs as <-. exists []. simpl. now rewrite app_nil_r.
  - bind_inv Hs. destruct x.
    + bind_inv Hs. destruct (truthy_result (returned x)).
      * injection Hs as <-. simpl. rewrite <- app_assoc. eauto.
      * bind_inv Hs. apply IH in Hs as (tr' & ->). rewrite <- !app_assoc. eauto.
    + bind_inv Hs. apply IH in Hs as (tr' & ->). rewrite <- !app_assoc. eauto.
Qed.

(** Every call of [backtrack] that returns has been entered. *)
Lemma backtrack_fuel_trace (fuel : nat) (cw : Crossword) (doms : domains)
  (a : assignment) (s : search) :
  backtrack_fuel fuel cw doms a = Ok s -> exists tr, trace s = Enter a :: tr.
Proof.
  destruct fuel as [|fuel]; simpl; [discriminate|].
  destruct (List.length (variables cw) =? List.length a).
  - intros [= <-]. now exists [].
  - destruct (first_unassigned cw a) as [variable|].
    + intros Hs. bind_inv Hs. apply try_values_trace in Hs as (tr' & ->). now exists tr'.
    + intros [= <-]. now exists [].
Qed.

Section SearchTotal.
Variable cw : Crossword.
Variable doms : domains.
Hypothesis Hwf : well_formed cw = true.
Hypothesis Hkeys : dict_keys doms = variables cw.
Hypothesis Hnc : node_consistent doms.

Lemma lengths_ok_extend (a : assignment) (v : Slot) (w : string) :
  lengths_ok cw a -> String.length w = var_length v ->
  lengths_ok cw (dict_set a v w).
Proof.
  intros Hlen Hw u wu Hu Hf Hne. destruct (key_eq_dec v u) as [<-|Hvu].
  - rewrite dict_find_set_same in Hf. now injection Hf as <-.
  - rewrite dict_find_set_other in Hf by assumption. eauto.
Qed.

Lemma domain_word_length (v : Slot) (dv : list string) (w : string) :
  dict_find doms v = Some dv -> In w dv -> String.length w = var_length v.
Proof. intros Hdv Hw. apply dict_find_In in Hdv. eauto. Qed.

Lemma try_values_returns (recurse : assignment -> result search)
  (variable : Slot) (a : assignment) :
  (forall a s, recurse a = Ok s -> search_ok a s) ->
  lengths_ok cw a -> dict_find a variable = None ->
  forall ds tr,
    (forall w, In w ds -> String.length w = var_length variable) ->
    (forall w, In w ds -> exists s, recurse (dict_set a variable w) = Ok s) ->
    exists s, try_values cw recurse variable ds a tr = Ok s.
Proof.
  intros Hok Hlen Hfresh. induction ds as [|domain ds IH]; intros tr Hl Hrec; simpl;
    [eauto|].
  assert (Hl' : forall w, In w ds -> String.length w = var_length variable)
    by (intros w Hw; apply Hl; now right).
  assert (Hrec' : forall w, In w ds -> exists s, recurse (dict_set a variable w) = Ok s)
    by (intros w Hw; apply Hrec; now right).
  destruct (consistent_total cw Hwf (dict_set a variable domain)) as (b & ->).
  { apply lengths_ok_extend; auto. apply Hl. now left. }
  simpl. destruct b.
  - destruct (Hrec domain (or_introl eq_refl)) as (sub & Hsub). rewrite Hsub. simpl.
    apply Hok in Hsub. unfold search_ok in Hsub.
    pose proof (length_dict_set_fresh a variable domain Hfresh) as Hlen1.
    destruct (returned sub) as [[|e r]|]; simpl; [| eauto |].
    + destruct Hsub as [_ Hsub]. simpl in Hsub. lia.
    + rewrite Hsub, dict_pop_set_fresh by assumption. simpl. auto.
  - rewrite dict_pop_set_fresh by assumption. simpl. auto.
Qed.

(** With enough fuel the search returns; it raises nothing. *)
Lemma backtrack_fuel_returns (fuel : nat) :
  forall a, lengths_ok cw a -> List.length (unassigned cw a) < fuel ->
            exists s, backtrack_fuel fuel cw doms a = Ok s.
Proof.
  induction fuel as [|fuel IH]; intros a Hlen Hlt; [lia|]. simpl.
  destruct (List.length (variables cw) =? List.length a); [eauto|].
  destruct (first_unassigned cw a) as [variable|] eqn:Hv; [|eauto].
  apply first_unassigned_Some in Hv as [Hin Hfresh].
  destruct (dict_find_key cw doms variable Hkeys Hin) as (dv & Hdv).
  unfold dict_get. rewrite Hdv. simpl.
  apply try_values_returns;
    [apply backtrack_fuel_search_ok | assumption | assumption | |].
  - intros w Hw. eapply domain_word_length; eauto.
  - intros w Hw. apply IH.
    + apply lengths_ok_extend; [assumption|]. eapply domain_word_length; eauto.
    + pose proof (unassigned_set_lt cw a variable w Hin Hfresh). lia.
Qed.

(** *** A slot with an empty domain makes the search fail *)

Section EmptyDomain.
Variable X : Slot.
Hypothesis HX : In X (variables cw).
Hypothesis Hempty : dict_find doms X = Some [].

Lemma try_values_fails (recurse : assignment -> result search)
  (variable : Slot) (a : assignment) :
  (forall a s, recurse a = Ok s -> search_ok a s) ->
  lengths_ok cw a -> dict_find a variable = None ->
  forall ds tr,
    (forall w, In w ds -> String.length w = var_length variable) ->
    (forall w, In w ds ->
               exists s, recurse (dict_set a variable w) = Ok s /\ returned s = None) ->
    exists s, try_values cw recurse variable ds a tr = Ok s /\ returned s = None.
Proof.
  intros Hok Hlen Hfresh. induction ds as [|domain ds IH]; intros tr Hl Hrec; simpl;
    [eauto|].
  assert (Hl' : forall w, In w ds -> String.length w = var_length variable)
    by (intros w Hw; apply Hl; now right).
  destruct (consistent_total cw Hwf (dict_set a variable domain)) as (b & ->).
  { apply lengths_ok_extend; auto. apply Hl. now left. }
  simpl. destruct b.
  - destruct (Hrec domain (or_introl eq_refl)) as (sub & Hsub & Hnone).
    rewrite Hsub. simpl. apply Hok in Hsub. unfold search_ok in Hsub.
    rewrite Hnone in Hsub |- *. simpl.
    rewrite Hsub, dict_pop_set_fresh by assumption. simpl.
    apply IH; [assumption|]. intros w Hw. apply Hrec. now right.
  - rewrite dict_pop_set_fresh by assumption. simpl.
    apply IH; [assumption|]. intros w Hw. apply Hrec. now right.
Qed.

Lemma backtrack_fuel_fails (fuel : nat) :
  forall a,
    lengths_ok cw a -> NoDup (dict_keys a) -> incl (dict_keys a) (variables cw) ->
    dict_find a X = None -> List.length (unassigned cw a) < fuel ->
    exists s, backtrack_fuel fuel cw doms a = Ok s /\ returned s = None.
Proof.
  induction fuel as [|fuel IH]; intros a Hlen Hnd Hincl HaX Hlt; [lia|]. simpl.
  destruct (List.length (variables cw) =? List.length a) eqn:Hl.
  - exfalso. apply Nat.eqb_eq in Hl.
    assert (Hle : List.length (X :: dict_keys a) <= List.length (variables cw)).
    { apply NoDup_incl_length.
      - constructor; [now apply dict_find_None in HaX | assumption].
      - intros z [<-|Hz]; auto. }
    simpl in Hle. unfold dict_keys in Hle. rewrite length_map in Hle. lia.
  - destruct (first_unassigned cw a) as [variable|] eqn:Hv.
    + apply first_unassigned_Some in Hv as [Hin Hfresh].
      destruct (dict_find_key cw doms variable Hkeys Hin) as (dv & Hdv).
      unfold dict_get. rewrite Hdv. simpl.
      apply try_values_fails;
        [apply backtrack_fuel_search_ok | assumption | assumption | |].
      * intros w Hw. eapply domain_word_length; eauto.
      * intros w Hw.
        assert (HvX : variable <> X).
        { intros ->. rewrite Hempty in Hdv. injection Hdv as <-. contradiction. }
        apply IH.
        -- apply lengths_ok_extend; [assumption|]. eapply domain_word_length; eauto.
        -- rewrite dict_keys_set_fresh by assumption. apply NoDup_app; auto.
           ++ constructor; [easy | constructor].
           ++ intros v Hv [<-|[]]. now apply dict_find_None in Hfresh.
        -- rewrite dict_keys_set_fresh by assumption.
           intros v Hv. apply in_app_or in Hv as [Hv|[<-|[]]]; auto.
        -- now rewrite dict_find_set_other.
        -- pose proof (unassigned_set_lt cw a variable w Hin Hfresh). lia.
    + eauto.
Qed.
End EmptyDomain.
End SearchTotal.

(** C1 (as the code behaves): [solve] drops the value of [ac3].  When
    [ac3] returns false on a well-formed puzzle, [solve] still calls
    [backtrack] on the empty assignment, and that search returns [None]:
    the slot whose domain is empty cannot be filled. *)
Theorem solve_fails_after_ac3_failure (cw : Crossword) (doms : domains) :
  well_formed cw = true ->
  ac3 cw (enforce_node_consistency (init_domains cw)) None = Ok (false, doms) ->
  exists s tr,
    solve cw = Ok s /\ returned s = None /\ trace s = Enter [] :: tr.
Proof.
  intros Hwf Hac3. unfold solve. rewrite Hac3. simpl.
  destruct (ac3_result_safe cw Hwf _ _
              ltac:(now rewrite dict_keys_enforce, dict_keys_init)
              (enforce_node_consistent _) Hac3) as (Hk & Hnc & Hfail).
  simpl in Hk, Hnc, Hfail. destruct (Hfail eq_refl) as (X & HX & Hempty).
  destruct (backtrack_fuel_fails cw doms Hwf Hk Hnc X HX Hempty
              (S (List.length (variables cw))) [])
    as (s & Hs & Hret).
  - intros v w _ Hf. discriminate.
  - constructor.
  - intros v [].
  - reflexivity.
  - unfold unassigned.
    pose proof (filter_length_le (fun v => negb (dict_mem v (@nil (Slot * string))))
                  (variables cw)). lia.
  - destruct (backtrack_fuel_trace _ _ _ _ _ Hs) as (tr & Htr).
    exists s, tr. auto.
Qed.

(** ** Completeness of the search *)

Section SearchComplete.
Variable cw : Crossword.
Variable doms : domains.
Hypothesis Hwf : well_formed cw = true.
Hypothesis Hkeys : dict_keys doms = variables cw.
Hypothesis Hnc : node_consistent doms.

(** A complete, consistent assignment drawn from the domains. *)
Variable sol : assignment.
Hypothesis Hcomplete : assignment_complete cw sol = true.
Hypothesis Hconsistent : consistent cw sol = Ok true.
Hypothesis Hdrawn : forall v w,
    In v (variables cw) -> dict_find sol v = Some w ->
    exists dv, dict_find doms v = Some dv /\ In w dv.


Lemma sol_at (v : Slot) :
  In v (variables cw) -> exists w, dict_find sol v = Some w /\ w <> "".
Proof.
  intros Hv. unfold assignment_complete in Hcomplete.
  rewrite forallb_forall in Hcomplete. specialize (Hcomplete v Hv).
  destruct (dict_find sol v) as [w|]; [|discriminate].
  exists w. split; [reflexivity | now apply truthy_true].
Qed.

Lemma part_of_sol_consistent (a : assignment) :
  part_of_sol sol a -> consistent cw a = Ok true.
Proof.
  intros Hpart. apply (consistent_iff cw Hwf).
  apply (consistent_iff cw Hwf) in Hconsistent as [Hlen Hpair]. split.
  - intros x wx Hx Hax. apply Hlen; auto.
  - intros x y i j wx wy Hx Hy Hxy Hov Hax Hay. apply (Hpair x y i j); auto.
Qed.

Lemma part_of_sol_lengths (a : assignment) : part_of_sol sol a -> lengths_ok cw a.
Proof.
  intros Hpart v w Hv Ha Hne.
  apply (consistent_iff cw Hwf) in Hconsistent as [Hlen _]. apply Hlen; auto.
Qed.

Lemma part_of_sol_extend (a : assignment) (v : Slot) (w : string) :
  part_of_sol sol a -> dict_find sol v = Some w -> part_of_sol sol (dict_set a v w).
Proof.
  intros Hpart Hw u wu Hu. destruct (key_eq_dec v u) as [<-|Hvu].
  - rewrite dict_find_set_same in Hu. congruence.
  - rewrite dict_find_set_other in Hu by assumption. auto.
Qed.

Lemma try_values_finds (recurse : assignment -> result search)
  (variable : Slot) (a : assignment) (wsol : string) :
  (forall a s, recurse a = Ok s -> search_ok a s) ->
  lengths_ok cw a -> dict_find a variable = None ->
  consistent cw (dict_set a variable wsol) = Ok true ->
  (exists s r, recurse (dict_set a variable wsol) = Ok s /\ returned s = Some r) ->
  forall ds tr,
    In wsol ds ->
    (forall w, In w ds -> String.length w = var_length variable) ->
    (forall w, In w ds -> exists s, recurse (dict_set a variable w) = Ok s) ->
    exists s r, try_values cw recurse variable ds a tr = Ok s /\ returned s = Some r.
Proof.
  intros Hok Hlen Hfresh Hcsol (ssol & rsol & Hssol & Hrsol).
  induction ds as [|domain ds IH]; intros tr Hin Hl Hrec; [contradiction|]. simpl.
  assert (Hl' : forall w, In w ds -> String.length w = var_length variable)
    by (intros w Hw; apply Hl; now right).
  assert (Hrec' : forall w, In w ds -> exists s, recurse (dict_set a variable w) = Ok s)
    by (intros w Hw; apply Hrec; now right).
  pose proof (length_dict_set_fresh a variable domain Hfresh) as Hlen1.
  destruct (string_dec domain wsol) as [->|Hdiff].
  - (* the word of the solution *)
    rewrite Hcsol, Hssol. simpl. apply Hok in Hssol. unfold search_ok in Hssol.
    rewrite Hrsol in Hssol |- *. destruct rsol as [|e r]; simpl.
    + destruct Hssol as [_ Hssol]. simpl in Hssol. lia.
    + do 2 eexists. split; reflexivity.
  - (* another word: it succeeds, or is undone *)
    destruct Hin as [?|Hin]; [contradiction|].
    destruct (consistent_total cw Hwf (dict_set a variable domain)) as (b & ->).
    { apply lengths_ok_extend; auto. apply Hl. now left. }
    simpl. destruct b.
    + destruct (Hrec domain (or_introl eq_refl)) as (sub & Hsub). rewrite Hsub. simpl.
      apply Hok in Hsub. unfold search_ok in Hsub.
      destruct (returned sub) as [[|e r]|] eqn:Hr; simpl.
      * destruct Hsub as [_ Hsub]. simpl in Hsub. lia.
      * do 2 eexists. split; reflexivity.
      * rewrite Hsub, dict_pop_set_fresh by assumption. simpl. auto.
    + rewrite dict_pop_set_fresh by assumption. simpl. auto.
Qed.

Lemma backtrack_fuel_finds (fuel : nat) :
  forall a,
    part_of_sol sol a -> NoDup (dict_keys a) -> incl (dict_keys a) (variables cw) ->
    List.length (unassigned cw a) < fuel ->
    exists s r, backtrack_fuel fuel cw doms a = Ok s /\ returned s = Some r.
Proof.
  induction fuel as [|fuel IH]; intros a Hpart Hnd Hincl Hlt; [lia|]. simpl.
  destruct (List.length (variables cw) =? List.length a) eqn:Hl;
    [do 2 eexists; split; reflexivity|].
  destruct (first_unassigned cw a) as [variable|] eqn:Hv.
  - apply first_unassigned_Some in Hv as [Hin Hfresh].
    destruct (sol_at variable Hin) as (wsol & Hwsol & _).
    destruct (Hdrawn variable wsol Hin Hwsol) as (dv & Hdv & Hwdv).
    unfold dict_get. rewrite Hdv. simpl.
    pose proof (part_of_sol_extend a variable wsol Hpart Hwsol) as Hpart1.
    apply try_values_finds with (wsol := wsol);
      [apply backtrack_fuel_search_ok | now apply part_of_sol_lengths | assumption
      | now apply part_of_sol_consistent | | assumption | |].
    + apply IH; [assumption | | |].
      * rewrite dict_keys_set_fresh by assumption. apply NoDup_app; auto.
        -- constructor; [easy | constructor].
        -- intros v Hv' [<-|[]]. now apply dict_find_None in Hfresh.
      * rewrite dict_keys_set_fresh by assumption.
        intros v Hv'. apply in_app_or in Hv' as [Hv'|[<-|[]]]; auto.
      * pose proof (unassigned_set_lt cw a variable wsol Hin Hfresh). lia.
    + intros w Hw. eapply domain_word_length; eauto.
    + intros w Hw. apply backtrack_fuel_returns; auto.
      * apply lengths_ok_extend; [now apply part_of_sol_lengths|].
        eapply domain_word_length; eauto.
      * pose proof (unassigned_set_lt cw a variable w Hin Hfresh). lia.
  - (* every slot is a key: the assignment is full *)
    exfalso. apply Nat.eqb_neq in Hl. apply Hl.
    unfold first_unassigned in Hv.
    assert (Hall : incl (variables cw) (dict_keys a)).
    { intros v Hin. pose proof (find_none _ _ Hv v Hin) as Hm. simpl in Hm.
      apply negb_false_iff in Hm. now apply dict_mem_In. }
    pose proof (NoDup_incl_length (wf_NoDup cw Hwf) Hall) as H1.
    pose proof (NoDup_incl_length Hnd Hincl) as H2.
    unfold dict_keys in H1, H2. rewrite length_map in H1, H2. lia.
Qed.

(** Slots have positive length, so no domain holds the empty word. *)
Lemma sol_no_empty_word : no_empty_word doms = true.
Proof.
  unfold no_empty_word. apply forallb_forall. intros [v ws] Hin. simpl.
  apply negb_true_iff, set_mem_not_In. intros Hw.
  assert (Hv : In v (variables cw)).
  { rewrite <- Hkeys. apply (in_map fst) in Hin. exact Hin. }
  destruct (sol_at v Hv) as (w & Hsol & Hne).
  apply (consistent_iff cw Hwf) in Hconsistent as [Hlen _].
  pose proof (Hlen v w Hv Hsol Hne) as Hl.
  pose proof (Hnc v ws "" Hin Hw) as H0. simpl in H0.
  destruct w; [contradiction | simpl in Hl; lia].
Qed.

Lemma consistent_empty : consistent cw [] = Ok true.
Proof. apply part_of_sol_consistent. intros v w Hf. discriminate. Qed.

Lemma backtrack_finds :
  exists s r,
    backtrack cw doms [] = Ok s /\ returned s = Some r
    /\ assignment_complete cw r = true /\ consistent cw r = Ok true.
Proof.
  destruct (backtrack_fuel_finds (S (List.length (variables cw))) [])
    as (s & r & Hs & Hret).
  - intros v w Hf. discriminate.
  - constructor.
  - intros v [].
  - unfold unassigned.
    pose proof (filter_length_le (fun v => negb (dict_mem v (@nil (Slot * string))))
                  (variables cw)). lia.
  - exists s, r. split; [assumption|]. split; [assumption|].
    apply (backtrack_fuel_sound cw doms sol_no_empty_word
             (S (List.length (variables cw))) [] s r); auto.
    split; [apply consistent_empty|]. split; [constructor|].
    split; [intros v [] | intros v w []].
Qed.
End SearchComplete.

(** C5: when the domains left by node consistency and [ac3] admit a
    complete, consistent assignment, each word drawn from the domain of
    its slot, [backtrack] started from the empty assignment returns a
    complete, consistent assignment. *)
Theorem backtrack_complete (cw : Crossword) (b : bool) (doms : domains)
  (sol : assignment) :
  well_formed cw = true ->
  ac3 cw (enforce_node_consistency (init_domains cw)) None = Ok (b, doms) ->
  assignment_complete cw sol = true ->
  consistent cw sol = Ok true ->
  (forall v w, In v (variables cw) -> dict_find sol v = Some w ->
               exists dv, dict_find doms v = Some dv /\ In w dv) ->
  exists s r,
    backtrack cw doms [] = Ok s /\ returned s = Some r
    /\ assignment_complete cw r = true /\ consistent cw r = Ok true.
Proof.
  intros Hwf Hac3 Hcomplete Hconsistent Hdrawn.
  destruct (ac3_result_safe cw Hwf _ _
              ltac:(now rewrite dict_keys_enforce, dict_keys_init)
              (enforce_node_consistent _) Hac3) as (Hk & Hnc & _).
  now apply backtrack_finds with (sol := sol).
Qed.

(** ** The order in which the search proceeds *)

Lemma assigned_words_app (v : Slot) (t1 t2 : list event) :
  assigned_words v (t1 ++ t2) = assigned_words v t1 ++ assigned_words v t2.
Proof.
  induction t1 as [|e t1 IH]; cbn [assigned_words app]; [reflexivity|].
  destruct e; auto. destruct (key_eqb variable v); cbn [app]; now rewrite IH.
Qed.

Lemma first_assign_app (t1 t2 : list event) :
  first_assign (t1 ++ t2)
  = match first_assign t1 with Some x => Some x | None => first_assign t2 end.
Proof. induction t1 as [|e t1 IH]; simpl; [reflexivity|]. destruct e; auto. Qed.

Section SearchOrder.
Variable cw : Crossword.
Variable doms : domains.


Lemma try_values_leaves_keys (recurse : assignment -> result search)
  (variable : Slot) :
  (forall a s, recurse a = Ok s -> search_ok a s) ->
  (forall a s, recurse a = Ok s -> leaves_keys a s) ->
  forall ds a tr s v,
    dict_find a variable = None -> In v (dict_keys a) ->
    try_values cw recurse variable ds a tr = Ok s ->
    assigned_words v (trace s) = assigned_words v tr.
Proof.
  intros Hok Hrec. induction ds as [|domain ds IH]; intros a tr s v Hfresh Hv Hs;
    simpl in Hs.
  - now injection Hs as <-.
  - assert (Hvar : key_eqb variable v = false).
    { apply key_eqb_neq. intros ->. now apply dict_find_None in Hfresh. }
    assert (Hv1 : In v (dict_keys (dict_set a variable domain))).
    { rewrite dict_keys_set_fresh by assumption. apply in_or_app. now left. }
    bind_inv Hs. destruct x.
    + bind_inv Hs. rename x into sub.
      pose proof (Hrec _ _ E0 v Hv1) as Hsubv.
      pose proof (Hok _ _ E0) as Hsub. unfold search_ok in Hsub.
      pose proof (length_dict_set_fresh a variable domain Hfresh) as Hlen.
      destruct (returned sub) as [[|e r]|]; simpl in Hs.
      * destruct Hsub as [_ Hsub]. simpl in Hsub. lia.
      * injection Hs as <-. cbn [trace]. rewrite !assigned_words_app, Hsubv. cbn [assigned_words app].
        rewrite Hvar. now rewrite !app_nil_r.
      * rewrite Hsub, dict_pop_set_fresh in Hs by assumption. simpl in Hs.
        rewrite (IH _ _ _ _ Hfresh Hv Hs), !assigned_words_app, Hsubv. cbn [assigned_words app].
        rewrite Hvar. now rewrite !app_nil_r.
    + rewrite dict_pop_set_fresh in Hs by assumption. simpl in Hs.
      rewrite (IH _ _ _ _ Hfresh Hv Hs), !assigned_words_app. cbn [assigned_words app].
      rewrite Hvar. now rewrite !app_nil_r.
Qed.

Lemma backtrack_fuel_leaves_keys (fuel : nat) :
  forall a s, backtrack_fuel fuel cw doms a = Ok s -> leaves_keys a s.
Proof.
  induction fuel as [|fuel IH]; intros a s Hs v Hv; simpl in Hs; [discriminate|].
  destruct (List.length (variables cw) =? List.length a).
  - now injection Hs as <-.
  - destruct (first_unassigned cw a) as [variable|] eqn:Hvar.
    + apply first_unassigned_Some in Hvar as [_ Hfresh]. bind_inv Hs.
      rewrite (try_values_leaves_keys _ variable (backtrack_fuel_search_ok cw doms fuel)
                 IH _ _ _ _ v Hfresh Hv Hs).
      reflexivity.
    + now injection Hs as <-.
Qed.

(** The words tried for [variable] are the words of [ds], in order, up
    to the first success. *)
Lemma try_values_order (recurse : assignment -> result search) (variable : Slot) :
  (forall a s, recurse a = Ok s -> search_ok a s) ->
  (forall a s, recurse a = Ok s -> leaves_keys a s) ->
  forall ds a tr s,
    dict_find a variable = None ->
    try_values cw recurse variable ds a tr = Ok s ->
    exists tried rest,
      ds = tried ++ rest
      /\ assigned_words variable (trace s) = assigned_words variable tr ++ tried
      /\ (returned s = None -> rest = []).
Proof.
  intros Hok Hrec. induction ds as [|domain ds IH]; intros a tr s Hfresh Hs;
    simpl in Hs.
  - injection Hs as <-. exists [], []. simpl. now rewrite app_nil_r.
  - assert (Hv1 : In variable (dict_keys (dict_set a variable domain))).
    { rewrite dict_keys_set_fresh by assumption. apply in_or_app. right. now left. }
    bind_inv Hs. destruct x.
    + bind_inv Hs. rename x into sub.
      pose proof (Hrec _ _ E0 variable Hv1) as Hsubv.
      pose proof (Hok _ _ E0) as Hsub. unfold search_ok in Hsub.
      pose proof (length_dict_set_fresh a variable domain Hfresh) as Hlen.
      destruct (returned sub) as [[|e r]|] eqn:Hr; simpl in Hs.
      * destruct Hsub as [_ Hsub]. simpl in Hsub. lia.
      * injection Hs as <-. exists [domain], ds. cbn [trace returned app].
        rewrite !assigned_words_app, Hsubv. cbn [assigned_words app]. rewrite key_eqb_refl.
        rewrite app_nil_r. repeat split. discriminate.
      * rewrite Hsub, dict_pop_set_fresh in Hs by assumption. simpl in Hs.
        destruct (IH _ _ _ Hfresh Hs) as (tried & rest & -> & Haw & Hnone).
        exists (domain :: tried), rest. rewrite Haw, !assigned_words_app, Hsubv.
        cbn [assigned_words app]. rewrite key_eqb_refl. simpl. rewrite <- !app_assoc. auto.
    + rewrite dict_pop_set_fresh in Hs by assumption. simpl in Hs.
      destruct (IH _ _ _ Hfresh Hs) as (tried & rest & -> & Haw & Hnone).
      exists (domain :: tried), rest. rewrite Haw, !assigned_words_app.
      cbn [assigned_words app]. rewrite key_eqb_refl. simpl. rewrite <- !app_assoc. auto.
Qed.

Lemma try_values_first (recurse : assignment -> result search) (variable : Slot)
  (domain : string) (ds : list string) (a : assignment) (tr : list event)
  (s : search) :
  try_values cw recurse variable (domain :: ds) a tr = Ok s ->
  exists tr', trace s = tr ++ Assign variable domain :: tr'.
Proof.
  simpl. intros Hs. bind_inv Hs. destruct x.
  - bind_inv Hs. destruct (truthy_result (returned x)).
    + injection Hs as <-. simpl. rewrite <- app_assoc. simpl. eauto.
    + bind_inv Hs. apply try_values_trace in Hs as (tr' & ->).
      rewrite <- !app_assoc. simpl. eauto.
  - bind_inv Hs. apply try_values_trace in Hs as (tr' & ->).
    rewrite <- !app_assoc. simpl. eauto.
Qed.
End SearchOrder.

(** C2 (as the code behaves): on an assignment that does not yet have as
    many entries as there are slots, [backtrack] works on the first slot,
    in iteration order, that is not a key of the assignment, and tries the
    words of its domain in the domain's own order, up to the first
    success; [select_unassigned_variable] and [order_domain_values] play
    no part. *)
Theorem backtrack_static_order (cw : Crossword) (doms : domains)
  (a : assignment) (s : search) (variable : Slot) :
  backtrack cw doms a = Ok s ->
  List.length (variables cw) <> List.length a ->
  first_unassigned cw a = Some variable ->
  exists dv tried rest,
    dict_find doms variable = Some dv
    /\ dv = tried ++ rest
    /\ assigned_words variable (trace s) = tried
    /\ (returned s = None -> rest = [])
    /\ first_assign (trace s)
       = match dv with [] => None | w :: _ => Some (variable, w) end.
Proof.
  intros Hs Hlen Hvar. unfold backtrack in Hs. simpl in Hs.
  apply Nat.eqb_neq in Hlen. rewrite Hlen, Hvar in Hs.
  apply first_unassigned_Some in Hvar as [_ Hfresh].
  bind_inv Hs. rename x into dv. unfold dict_get in E.
  destruct (dict_find doms variable) as [dv'|]; [|discriminate]. injection E as ->.
  pose proof (try_values_order cw _ variable
                (backtrack_fuel_search_ok cw doms _)
                (backtrack_fuel_leaves_keys cw doms _) _ _ _ _ Hfresh Hs)
    as (tried & rest & Hdv & Haw & Hnone).
  exists dv, tried, rest. repeat split; auto.
  destruct dv as [|w dv].
  - simpl in Hs. now injection Hs as <-.
  - apply try_values_first in Hs as (tr' & ->). reflexivity.
Qed.

(** * The properties on the sample puzzles *)

(** C1, the claim as stated fails: on the unsolvable sample [ac3] returns
    false, and [solve] nevertheless enters [backtrack]. *)
Lemma solve_enters_backtrack_after_ac3_failure :
  ac3 Sample.unsolvable (Sample.pruned Sample.unsolvable) None
  = Ok (false, [(Sample.across, []); (Sample.down, ["CAT"; "DOG"])])
  /\ exists s,
      solve Sample.unsolvable = Ok s
      /\ returned s = None /\ calls (trace s) = [[]] /\ calls (trace s) <> [].
Proof.
  split; [reflexivity|]. eexists. split; [reflexivity|].
  repeat split. discriminate.
Qed.

(** C1 on the unsolvable sample. *)
Lemma solve_fails_after_ac3_failure_witness :
  well_formed Sample.unsolvable = true
  /\ exists s tr,
      solve Sample.unsolvable = Ok s /\ returned s = None /\ trace s = Enter [] :: tr.
Proof.
  split; [reflexivity|].
  apply (solve_fails_after_ac3_failure Sample.unsolvable
           [(Sample.across, []); (Sample.down, ["CAT"; "DOG"])]);
    reflexivity.
Defined.

(** C2, the claim as stated fails: with three slots the MRV choice is the
    slot with one candidate and the least constraining word of the across
    slot is CAT, but the search starts with the across slot and with DOG,
    the first slot and the first word in iteration order. *)
Lemma backtrack_ignores_heuristics :
  select_unassigned_variable Sample.three_slots (Sample.pruned Sample.three_slots) []
  = Ok Sample.apart
  /\ order_domain_values Sample.three_slots (Sample.pruned Sample.three_slots)
       Sample.across []
     = Ok ["CAT"; "DOG"; "ARE"]
  /\ exists s,
      backtrack Sample.three_slots (Sample.pruned Sample.three_slots) [] = Ok s
      /\ first_assign (trace s) = Some (Sample.across, "DOG")
      /\ assigned_words Sample.across (trace s) = ["DOG"; "CAT"].
Proof.
  split; [reflexivity|]. split; [reflexivity|].
  eexists. split; [reflexivity|]. split; reflexivity.
Qed.

(** C2 on the sample with three slots. *)
Lemma backtrack_static_order_witness :
  exists s,
    backtrack Sample.three_slots (Sample.pruned Sample.three_slots) [] = Ok s
    /\ exists dv tried rest,
        dict_find (Sample.pruned Sample.three_slots) Sample.across = Some dv
        /\ dv = tried ++ rest
        /\ assigned_words Sample.across (trace s) = tried
        /\ (returned s = None -> rest = [])
        /\ first_assign (trace s)
           = match dv with [] => None | w :: _ => Some (Sample.across, w) end.
Proof.
  eexists. split; [reflexivity|].
  apply (backtrack_static_order Sample.three_slots (Sample.pruned Sample.three_slots) []).
  - reflexivity.
  - simpl. lia.
  - reflexivity.
Defined.

(** C3 on the two slots that do not meet. *)
Lemma revise_no_overlap_raises_witness :
  dict_find (overlaps Sample.disjoint) (Sample.across, Sample.apart) = Some None
  /\ revise Sample.disjoint (Sample.pruned Sample.disjoint) Sample.across Sample.apart
     = Raise TypeError.
Proof.
  split; [reflexivity|].
  apply (revise_no_overlap_raises Sample.disjoint (Sample.pruned Sample.disjoint)
           Sample.across Sample.apart).
  reflexivity.
Defined.

(** C4, the claim as stated fails: a starting assignment that already has
    one entry per slot is returned as it is, consistent or not. *)
Lemma backtrack_returns_inconsistent_start :
  exists s r,
    backtrack Sample.solvable (Sample.pruned Sample.solvable)
      [(Sample.across, "XX"); (Sample.down, "XX")] = Ok s
    /\ returned s = Some r
    /\ consistent Sample.solvable r = Ok false.
Proof. do 2 eexists. split; [reflexivity|]. split; reflexivity. Qed.

(** C4 on the solvable sample, from the empty assignment. *)
Lemma backtrack_sound_witness :
  exists s r,
    backtrack Sample.solvable (Sample.pruned Sample.solvable) [] = Ok s
    /\ returned s = Some r
    /\ assignment_complete Sample.solvable r = true
    /\ consistent Sample.solvable r = Ok true.
Proof.
  do 2 eexists. split; [reflexivity|]. split; [reflexivity|].
  eapply (backtrack_sound Sample.solvable (Sample.pruned Sample.solvable) []);
    reflexivity.
Defined.

(** C5 on the solvable sample: CAT across and ARE down is a solution
    within the domains that [ac3] leaves. *)
Lemma backtrack_complete_witness :
  exists s r,
    backtrack Sample.solvable [(Sample.across, ["CAT"]); (Sample.down, ["ARE"])] []
    = Ok s
    /\ returned s = Some r
    /\ assignment_complete Sample.solvable r = true
    /\ consistent Sample.solvable r = Ok true.
Proof.
  apply (backtrack_complete Sample.solvable true
           [(Sample.across, ["CAT"]); (Sample.down, ["ARE"])]
           [(Sample.across, "CAT"); (Sample.down, "ARE")]);
    try reflexivity.
  intros v w [<-|[<-|[]]] Hw; injection Hw as <-;
    eexists; (split; [reflexivity | now left]).
Defined.

(** C6 on the solvable sample. *)
Lemma ac3_success_arc_consistent_witness :
  arc_consistent Sample.solvable [(Sample.across, ["CAT"]); (Sample.down, ["ARE"])].
Proof.
  apply (ac3_success_arc_consistent Sample.solvable (Sample.pruned Sample.solvable)).
  reflexivity.
Defined.

(** C7 on the solvable sample. *)
Lemma domains_only_shrink_witness :
  exists b doms2,
    ac3 Sample.solvable (Sample.pruned Sample.solvable) None = Ok (b, doms2)
    /\ forall v, In v (variables Sample.solvable) ->
         exists d1 d2,
           dict_find (Sample.pruned Sample.solvable) v = Some d1
           /\ dict_find doms2 v = Some d2
           /\ incl d2 d1 /\ incl d1 (words Sample.solvable)
           /\ List.length d2 <= List.length d1 <= List.length (words Sample.solvable).
Proof. apply (domains_only_shrink Sample.solvable). reflexivity. Defined.

(** C8, the claim as stated fails: a slot mapped to the empty word is a
    key of the assignment whose word does not have the slot's length, and
    [consistent] returns true. *)
Lemma consistent_passes_empty_word :
  consistent Sample.solvable [(Sample.across, "")] = Ok true
  /\ ~ consistent_as_stated Sample.solvable [(Sample.across, "")].
Proof.
  split; [reflexivity|]. intros [Hlen _].
  specialize (Hlen Sample.across "" (or_introl eq_refl) eq_refl). discriminate.
Qed.

(** C8 on the solution of the solvable sample. *)
Lemma consistent_characterised_witness :
  well_formed Sample.solvable = true
  /\ (consistent Sample.solvable [(Sample.across, "CAT"); (Sample.down, "ARE")] = Ok true
      <-> consistent_nonempty Sample.solvable
            [(Sample.across, "CAT"); (Sample.down, "ARE")]).
Proof.
  split; [reflexivity|].
  apply (consistent_characterised Sample.solvable). reflexivity.
Defined.

(** C9 on the across slot of the sample with three slots. *)
Lemma order_domain_values_sorted_witness :
  exists l,
    order_domain_values Sample.three_slots (Sample.pruned Sample.three_slots)
      Sample.across [] = Ok l
    /\ Permutation l ["DOG"; "CAT"; "ARE"]
    /\ StronglySorted
         (fun w1 w2 =>
            elimination_count Sample.three_slots (Sample.pruned Sample.three_slots)
              [] Sample.across w1
            <= elimination_count Sample.three_slots (Sample.pruned Sample.three_slots)
                 [] Sample.across w2) l.
Proof.
  destruct (order_domain_values_sorted Sample.three_slots
              (Sample.pruned Sample.three_slots) Sample.across []
              ["DOG"; "CAT"; "ARE"] eq_refl eq_refl) as [Hsorted Hreturns].
  destruct Hreturns as (l & Hl);
    [reflexivity | reflexivity | apply enforce_node_consistent | now left |].
  exists l. split; [exact Hl | exact (Hsorted l Hl)].
Defined.

(** C10 on the unsolvable sample with node-consistent domains: both
    words of the across slot are tried and undone. *)
Lemma backtrack_failure_restores_witness :
  exists s,
    backtrack Sample.unsolvable (Sample.pruned Sample.unsolvable) [] = Ok s
    /\ returned s = None
    /\ assigned_words Sample.across (trace s) = ["CAT"; "DOG"]
    /\ final s = [].
Proof.
  eexists. split; [reflexivity|]. split; [reflexivity|]. split; [reflexivity|].
  apply (backtrack_failure_restores Sample.unsolvable (Sample.pruned Sample.unsolvable) []);
    reflexivity.
Defined.

(** * Further properties of the code *)

(** ** Pruning keeps every solution *)

Lemma revise_inner_false (wordX : string) (i j : nat) (dy : list string) :
  revise_inner wordX i j dy = Ok false ->
  forall wordY, In wordY dy -> ~ agree i j wordX wordY.
Proof.
  induction dy as [|w dy IH]; simpl; [intros _ wordY []|]. intros Hr.
  bind_inv Hr. bind_inv Hr. apply str_index_Ok in E, E0.
  destruct (Ascii.eqb x x0) eqn:Ec; [discriminate|].
  intros wordY [<-|Hin]; [|now apply IH].
  intros (c & Hcx & Hcy). rewrite E in Hcx. rewrite E0 in Hcy.
  injection Hcx as ->. injection Hcy as ->. rewrite Ascii.eqb_refl in Ec. discriminate.
Qed.

(** [valid_words] misses no supported word. *)
Lemma revise_outer_complete (doms : domains) (y : Slot) (i j : nat) :
  forall dx acc valid_words,
    revise_outer doms y i j dx acc = Ok valid_words ->
    forall w, In w dx -> supported doms y i j w -> In w valid_words.
Proof.
  induction dx as [|wordX dx IH]; intros acc valid Hr w Hw Hs; [contradiction|].
  simpl in Hr. bind_inv Hr. rename x into dy. bind_inv Hr. rename x into found.
  destruct Hw as [->|Hw]; [|eauto].
  destruct found.
  - apply revise_outer_inv in Hr as (_ & Hincl & _). apply Hincl.
    apply set_add_In. now right.
  - exfalso. destruct Hs as (dy' & w' & Hdy & Hw' & Hag).
    unfold dict_get in E. rewrite Hdy in E. injection E as <-.
    exact (revise_inner_false _ _ _ _ E0 w' Hw' Hag).
Qed.

(** The domain that [revise] leaves for [x]: the supported words of the
    old one. *)
Lemma revise_domain (cw : Crossword) (doms doms' : domains) (x y : Slot)
  (b : bool) :
  revise cw doms x y = Ok (b, doms') ->
  exists i j dx dx',
    dict_find (overlaps cw) (x, y) = Some (Some (i, j))
    /\ dict_find doms x = Some dx
    /\ dict_find doms' x = Some dx'
    /\ (forall w, In w dx' <-> In w dx /\ supported doms y i j w)
    /\ (forall v, v <> x -> dict_find doms' v = dict_find doms v).
Proof.
  unfold revise, dict_get. intros Hr.
  destruct (dict_find (overlaps cw) (x, y)) as [[[i j]|]|]; simpl in Hr; try discriminate.
  destruct (dict_find doms x) as [dx|] eqn:Hx; simpl in Hr; [|discriminate].
  bind_inv Hr. rename x0 into valid.
  pose proof (revise_outer_complete _ _ _ _ _ _ _ E) as Hc.
  apply revise_outer_inv in E as (Hsup & _ & _).
  assert (Hvalid : forall w, In w valid <-> In w dx /\ supported doms y i j w).
  { intros w. split.
    - intros Hw. apply Hsup in Hw as [[]|Hw]. exact Hw.
    - intros [Hw Hs]. now apply Hc. }
  exists i, j, dx. destruct (set_eq valid dx) eqn:Heq; injection Hr as <- <-.
  - exists dx. split; [reflexivity|]. split; [reflexivity|]. split; [assumption|].
    split; [|reflexivity].
    intros w. split; [|tauto]. intros Hw. split; [assumption|].
    apply Hvalid. now apply (proj1 (set_eq_iff _ _) Heq).
  - exists valid. rewrite dict_find_set_same.
    split; [reflexivity|]. split; [reflexivity|]. split; [reflexivity|].
    split; [exact Hvalid|].
    intros v Hv. apply dict_find_set_other. auto.
Qed.

Section PruningKeepsSolutions.
Variable cw : Crossword.
Hypothesis Hwf : well_formed cw = true.
Variable sol : assignment.
Hypothesis Hcomplete : assignment_complete cw sol = true.
Hypothesis Hconsistent : consistent cw sol = Ok true.

Lemma solution_word (v : Slot) :
  In v (variables cw) ->
  exists w, dict_find sol v = Some w /\ w <> "" /\ String.length w = var_length v.
Proof.
  intros Hv. unfold assignment_complete in Hcomplete.
  rewrite forallb_forall in Hcomplete. specialize (Hcomplete v Hv).
  destruct (dict_find sol v) as [w|] eqn:Hw; [|discriminate].
  apply truthy_true in Hcomplete. exists w. repeat split; auto.
  apply (consistent_iff cw Hwf) in Hconsistent as [Hlen _]. now apply Hlen.
Qed.

Lemma init_keeps_solution :
  in_vocabulary cw sol -> drawn_from cw (init_domains cw) sol.
Proof.
  intros Hvoc v w Hv Hw. exists (words cw). split; [now apply dict_find_init | eauto].
Qed.

Lemma enforce_keeps_solution (doms : domains) :
  drawn_from cw doms sol -> drawn_from cw (enforce_node_consistency doms) sol.
Proof.
  intros Hd v w Hv Hw. destruct (Hd v w Hv Hw) as (dv & Hdv & Hin).
  rewrite dict_find_enforce, Hdv. simpl. eexists. split; [reflexivity|].
  apply filter_In. split; [assumption|]. apply Nat.eqb_eq.
  destruct (solution_word v Hv) as (w' & Hw' & _ & Hl). congruence.
Qed.

Lemma revise_keeps_solution (doms doms' : domains) (X Y : Slot) (b : bool) :
  In X (variables cw) -> In Y (neighbors cw X) ->
  drawn_from cw doms sol -> revise cw doms X Y = Ok (b, doms') ->
  drawn_from cw doms' sol.
Proof.
  intros HX HY Hd Hr.
  apply revise_domain in Hr as (i & j & dx & dx' & Hov & Hdx & Hdx' & Hmem & Hother).
  destruct (wf_neighbor cw Hwf X Y HX HY) as (i' & j' & Hov' & _ & _ & HYv & HXY & _).
  rewrite Hov in Hov'. injection Hov' as <- <-.
  intros v w Hv Hw. destruct (key_eq_dec v X) as [->|HvX].
  - exists dx'. split; [assumption|]. apply Hmem.
    destruct (Hd X w HX Hw) as (dx0 & Hdx0 & Hin). rewrite Hdx in Hdx0.
    injection Hdx0 as <-. split; [assumption|].
    destruct (solution_word Y HYv) as (wy & Hwy & Hney & _).
    destruct (solution_word X HX) as (wx & Hwx & Hnex & _).
    rewrite Hw in Hwx. injection Hwx as <-.
    destruct (Hd Y wy HYv Hwy) as (dy & Hdy & Hiny).
    exists dy, wy. repeat split; auto.
    apply (consistent_iff cw Hwf) in Hconsistent as [_ Hpair].
    now apply (Hpair X Y i j w wy).
  - rewrite Hother by assumption. auto.
Qed.

Lemma ac3_keeps_solution (doms : domains) (r : bool * domains) :
  dict_keys doms = variables cw -> node_consistent doms ->
  drawn_from cw doms sol -> ac3 cw doms None = Ok r ->
  fst r = true /\ drawn_from cw (snd r) sol.
Proof.
  intros Hk Hnc Hd Hr. unfold ac3 in Hr.
  pose proof (ac3_loop_invariant cw
                (fun d arcs => ac3_safe cw d arcs /\ drawn_from cw d sol)) as Hrule.
  assert (Hpost : ac3_post cw (fun d arcs => ac3_safe cw d arcs /\ drawn_from cw d sol) r).
  { apply (Hrule) with (fuel := S (domains_size doms)) (doms := doms)
                       (arcs := all_arcs cw).
    - intros d X Y arcs [Hs Hdr] Hrev. split; [|assumption].
      eapply ac3_safe_unchanged; eauto.
    - intros d d' X Y arcs [Hs Hdr] Hrev. split.
      + eapply ac3_safe_changed; eauto.
      + destruct Hs as (_ & _ & Harcs).
        destruct (Harcs X Y (or_introl eq_refl)) as [HX HY].
        eapply revise_keeps_solution; eauto.
    - split; [now apply ac3_safe_start | assumption].
    - exact Hr. }
  unfold ac3_post in Hpost. destruct (fst r).
  - split; [reflexivity | apply Hpost].
  - exfalso. destruct Hpost as (d & X & Y & arcs & [Hs Hdr] & Hrev & Hempty).
    destruct Hs as (_ & _ & Harcs).
    destruct (Harcs X Y (or_introl eq_refl)) as [HX HY].
    pose proof (revise_keeps_solution d (snd r) X Y true HX HY Hdr Hrev) as Hd'.
    destruct (solution_word X HX) as (w & Hw & _).
    destruct (Hd' X w HX Hw) as (dX & HdX & Hin).
    rewrite Hempty in HdX. injection HdX as <-. contradiction.
Qed.
End PruningKeepsSolutions.

(** If the puzzle has a solution made of vocabulary words, node
    consistency followed by [ac3] returns true and leaves every word of
    the solution in the domain of its slot. *)
Theorem pruning_keeps_solutions (cw : Crossword) (sol : assignment) :
  well_formed cw = true ->
  assignment_complete cw sol = true ->
  consistent cw sol = Ok true ->
  in_vocabulary cw sol ->
  exists doms,
    ac3 cw (enforce_node_consistency (init_domains cw)) None = Ok (true, doms)
    /\ drawn_from cw doms sol.
Proof.
  intros Hwf Hc Hcons Hvoc.
  assert (Hk : dict_keys (enforce_node_consistency (init_domains cw)) = variables cw)
    by now rewrite dict_keys_enforce, dict_keys_init.
  destruct (ac3_total cw Hwf _ Hk (enforce_node_consistent _)) as ([b doms] & Hr).
  destruct (ac3_keeps_solution cw Hwf sol Hc Hcons _ _ Hk (enforce_node_consistent _)
              (enforce_keeps_solution cw Hwf sol Hc Hcons _
                 (init_keeps_solution cw sol Hvoc)) Hr) as [Hb Hd].
  simpl in Hb, Hd. subst b. eauto.
Qed.

(** ** [revise] *)

Lemma not_incl_witness (dx valid : list string) :
  ~ incl dx valid -> exists w, In w dx /\ ~ In w valid.
Proof.
  induction dx as [|w dx IH]; intros Hnot.
  - exfalso. apply Hnot. intros w [].
  - destruct (in_dec string_dec w valid) as [Hw|Hw]; [|exists w; split; [now left | assumption]].
    destruct IH as (w' & Hin & Hn).
    + intros Hincl. apply Hnot. intros z [<-|Hz]; auto.
    + exists w'. split; [now right | assumption].
Qed.

(** What [revise] does: the new domain of [x] holds exactly the words of
    the old one that have a partner in the domain of [y]; the other
    domains are untouched; the returned value tells whether a word was
    removed, and without removal the store is the same. *)
Theorem revise_effect (cw : Crossword) (doms doms' : domains) (x y : Slot)
  (b : bool) :
  revise cw doms x y = Ok (b, doms') ->
  exists i j dx dx',
    dict_find (overlaps cw) (x, y) = Some (Some (i, j))
    /\ dict_find doms x = Some dx
    /\ dict_find doms' x = Some dx'
    /\ (forall w, In w dx' <-> In w dx /\ supported doms y i j w)
    /\ (forall v, v <> x -> dict_find doms' v = dict_find doms v)
    /\ (b = true <-> exists w, In w dx /\ ~ supported doms y i j w)
    /\ (b = false -> doms' = doms).
Proof.
  intros Hr.
  destruct (revise_domain _ _ _ _ _ _ Hr)
    as (i & j & dx & dx' & Hov & Hdx & Hdx' & Hmem & Hother).
  exists i, j, dx, dx'. do 5 (split; [assumption|]).
  apply revise_inv in Hr
    as (i' & j' & dx0 & valid & _ & Hdx0 & _ & _ & _ & Hb).
  rewrite Hdx in Hdx0. injection Hdx0 as <-.
  destruct Hb as [(-> & -> & Hall) | (-> & -> & Hnot)].
  - split; [|reflexivity]. split; [discriminate|].
    intros (w & Hw & Hn). exfalso. apply Hn.
    rewrite Hdx in Hdx'. injection Hdx' as <-. now apply Hmem.
  - split; [|discriminate]. split; [|reflexivity]. intros _.
    rewrite dict_find_set_same in Hdx'. injection Hdx' as <-.
    destruct (not_incl_witness _ _ Hnot) as (w & Hw & Hn).
    exists w. split; [assumption|]. intros Hs. apply Hn. now apply Hmem.
Qed.

(** Every word kept by the outer loop of [revise] was found a partner. *)
Lemma revise_outer_found (doms : domains) (y : Slot) (i j : nat) :
  forall dx acc valid_words,
    revise_outer doms y i j dx acc = Ok valid_words ->
    forall w, In w valid_words ->
      In w acc
      \/ exists dy, dict_find doms y = Some dy /\ revise_inner w i j dy = Ok true.
Proof.
  induction dx as [|wordX dx IH]; intros acc valid Hr w Hw; simpl in Hr.
  - injection Hr as <-. now left.
  - bind_inv Hr. rename x into dy. bind_inv Hr. rename x into found.
    unfold dict_get in E. destruct (dict_find doms y) as [dy'|] eqn:Hy; [|discriminate].
    injection E as ->. destruct (IH _ _ Hr w Hw) as [Hacc|Hf]; [|now right].
    destruct found; [|now left].
    apply set_add_In in Hacc as [Hacc| ->]; [now left|]. right. eauto.
Qed.

Lemma revise_outer_all_found (doms : domains) (y : Slot) (i j : nat)
  (dy : list string) :
  dict_find doms y = Some dy ->
  forall dx acc,
    (forall w, In w dx -> revise_inner w i j dy = Ok true) ->
    exists valid_words,
      revise_outer doms y i j dx acc = Ok valid_words
      /\ forall w, In w valid_words <-> In w acc \/ In w dx.
Proof.
  intros Hy. induction dx as [|wordX dx IH]; intros acc Hall; simpl.
  - exists acc. split; [reflexivity|]. intros w. tauto.
  - unfold dict_get. rewrite Hy. simpl. rewrite (Hall wordX (or_introl eq_refl)). simpl.
    destruct (IH (set_add acc wordX)) as (valid & Hr & Hmem).
    { intros w Hw. apply Hall. now right. }
    exists valid. split; [assumption|]. intros w. rewrite Hmem, set_add_In.
    split; [intros [[?| ->]|?]; auto | intros [?|[->|?]]; auto].
Qed.

(** Revising the same arc again changes nothing: a second call of
    [revise(x, y)] returns false and leaves the store as the first call
    left it. *)
Theorem revise_idempotent (cw : Crossword) (doms doms' : domains) (x y : Slot)
  (b : bool) :
  x <> y ->
  revise cw doms x y = Ok (b, doms') ->
  revise cw doms' x y = Ok (false, doms').
Proof.
  intros Hxy Hr. pose proof Hr as Hr0. unfold revise, dict_get in Hr.
  destruct (dict_find (overlaps cw) (x, y)) as [[[i j]|]|] eqn:Hov; simpl in Hr;
    try discriminate.
  destruct (dict_find doms x) as [dx|] eqn:Hx; simpl in Hr; [|discriminate].
  bind_inv Hr. rename x0 into valid.
  pose proof (revise_outer_found _ _ _ _ _ _ _ E) as Hfound.
  assert (Hkept : exists dx', dict_find doms' x = Some dx'
                              /\ forall w, In w dx' -> In w valid).
  { destruct (set_eq valid dx) eqn:Heq; injection Hr as <- <-.
    - exists dx. split; [assumption|]. intros w Hw.
      now apply (proj1 (set_eq_iff _ _) Heq).
    - exists valid. split; [apply dict_find_set_same | auto]. }
  assert (Hy : dict_find doms' y = dict_find doms y).
  { destruct (set_eq valid dx); injection Hr as <- <-; [reflexivity|].
    apply dict_find_set_other. assumption. }
  destruct Hkept as (dx' & Hdx' & Hin).
  unfold revise, dict_get. rewrite Hov, Hdx'. simpl.
  destruct dx' as [|w0 dx'].
  - simpl. reflexivity.
  - destruct (Hfound w0 (Hin w0 (or_introl eq_refl))) as [[]|(dy & Hdy & _)].
    rewrite <- Hy in Hdy.
    destruct (revise_outer_all_found doms' y i j dy Hdy (w0 :: dx') [])
      as (valid2 & Hr2 & Hmem).
    { intros w Hw. destruct (Hfound w (Hin w Hw)) as [[]|(dy' & Hdy' & Hf)].
      rewrite <- Hy, Hdy in Hdy'. now injection Hdy' as <-. }
    rewrite Hr2. simpl.
    assert (Heq : set_eq valid2 (w0 :: dx') = true).
    { apply set_eq_iff. intros w. rewrite Hmem. simpl. tauto. }
    now rewrite Heq.
Qed.

(** ** What [ac3] leaves *)




(** ** [solve] from end to end *)

Lemma consistent_nil (cw : Crossword) : consistent cw [] = Ok true.
Proof.
  unfold consistent. induction (variables cw) as [|v vs IH]; simpl; auto.
Qed.

Lemma positive_no_empty_word (cw : Crossword) (doms : domains) :
  positive_lengths cw = true -> dict_keys doms = variables cw ->
  node_consistent doms -> no_empty_word doms = true.
Proof.
  intros Hpos Hk Hnc. unfold no_empty_word. apply forallb_forall.
  intros [v ws] Hin. simpl. apply negb_true_iff, set_mem_not_In. intros Hw.
  assert (Hv : In v (variables cw)).
  { rewrite <- Hk. apply (in_map fst) in Hin. exact Hin. }
  unfold positive_lengths in Hpos. rewrite forallb_forall in Hpos.
  specialize (Hpos v Hv). apply Nat.ltb_lt in Hpos.
  pose proof (Hnc v ws "" Hin Hw) as H0. simpl in H0. lia.
Qed.

Lemma unassigned_nil_lt (cw : Crossword) :
  List.length (unassigned cw []) < S (List.length (variables cw)).
Proof.
  unfold unassigned.
  pose proof (filter_length_le (fun v => negb (dict_mem v (@nil (Slot * string))))
                (variables cw)). lia.
Qed.

(** On a well-formed puzzle whose slots have at least one cell, [solve]
    raises nothing, and what it returns is [None] or an assignment that
    passes [assignment_complete] and [consistent]. *)
Theorem solve_sound (cw : Crossword) :
  well_formed cw = true -> positive_lengths cw = true ->
  exists s,
    solve cw = Ok s
    /\ forall r, returned s = Some r ->
                 assignment_complete cw r = true /\ consistent cw r = Ok true.
Proof.
  intros Hwf Hpos.
  assert (Hk : dict_keys (enforce_node_consistency (init_domains cw)) = variables cw)
    by now rewrite dict_keys_enforce, dict_keys_init.
  destruct (ac3_total cw Hwf _ Hk (enforce_node_consistent _)) as ([b doms] & Hr).
  destruct (ac3_result_safe cw Hwf _ _ Hk (enforce_node_consistent _) Hr)
    as (Hk' & Hnc' & _). simpl in Hk', Hnc'.
  destruct (backtrack_fuel_returns cw doms Hwf Hk' Hnc'
              (S (List.length (variables cw))) [])
    as (s & Hs); [intros v w _ Hf; discriminate | apply unassigned_nil_lt |].
  exists s. unfold solve. rewrite Hr. simpl. split; [exact Hs|].
  intros r Hret.
  apply (backtrack_fuel_sound cw doms (positive_no_empty_word cw doms Hpos Hk' Hnc')
           (S (List.length (variables cw))) [] s r); auto.
  split; [apply consistent_nil|]. split; [constructor|].
  split; [intros v [] | intros v w []].
Qed.

(** On a well-formed puzzle that has a solution made of vocabulary words,
    [solve] returns a complete, consistent assignment. *)
Theorem solve_complete (cw : Crossword) (sol : assignment) :
  well_formed cw = true ->
  assignment_complete cw sol = true ->
  consistent cw sol = Ok true ->
  in_vocabulary cw sol ->
  exists s r,
    solve cw = Ok s /\ returned s = Some r
    /\ assignment_complete cw r = true /\ consistent cw r = Ok true.
Proof.
  intros Hwf Hc Hcons Hvoc.
  assert (Hk : dict_keys (enforce_node_consistency (init_domains cw)) = variables cw)
    by now rewrite dict_keys_enforce, dict_keys_init.
  destruct (ac3_total cw Hwf _ Hk (enforce_node_consistent _)) as ([b doms] & Hr).
  destruct (ac3_result_safe cw Hwf _ _ Hk (enforce_node_consistent _) Hr)
    as (Hk' & Hnc' & _). simpl in Hk', Hnc'.
  destruct (ac3_keeps_solution cw Hwf sol Hc Hcons _ _ Hk (enforce_node_consistent _)
              (enforce_keeps_solution cw Hwf sol Hc Hcons _
                 (init_keeps_solution cw sol Hvoc)) Hr) as [_ Hd].
  simpl in Hd. unfold solve. rewrite Hr. simpl.
  exact (backtrack_finds cw doms Hwf Hk' Hnc' sol Hc Hcons Hd).
Qed.

(** ** What [backtrack] returns *)

Section SearchExtends.
Variable cw : Crossword.
Variable doms : domains.

Lemma try_values_extends (recurse : assignment -> result search)
  (variable : Slot) (dv : list string) :
  (forall a s, recurse a = Ok s -> search_ok a s) ->
  (forall a s r, recurse a = Ok s -> returned s = Some r -> extension_of cw doms a r) ->
  In variable (variables cw) -> dict_find doms variable = Some dv ->
  forall ds a tr s r,
    incl ds dv -> dict_find a variable = None ->
    try_values cw recurse variable ds a tr = Ok s ->
    returned s = Some r -> extension_of cw doms a r.
Proof.
  intros Hok Hrec Hv Hdv. induction ds as [|domain ds IH];
    intros a tr s r Hincl Hfresh Hs Hret; simpl in Hs.
  - injection Hs as <-. discriminate.
  - assert (Hds : incl ds dv) by (intros w Hw; apply Hincl; now right).
    bind_inv Hs. destruct x.
    + bind_inv Hs. rename x into sub.
      pose proof (Hok _ _ E0) as Hsub. unfold search_ok in Hsub.
      pose proof (length_dict_set_fresh a variable domain Hfresh) as Hlen.
      destruct (returned sub) as [[|e r']|] eqn:Hr; simpl in Hs.
      * destruct Hsub as [_ Hsub]. simpl in Hsub. lia.
      * injection Hs as <-. simpl in Hret. injection Hret as <-.
        destruct (Hrec _ _ _ E0 Hr) as (ext & Hext & Hwords).
        rewrite dict_set_fresh, <- app_assoc in Hext by assumption.
        exists ((variable, domain) :: ext). split; [exact Hext|].
        intros v w [[= <- <-]|Hin]; [|auto].
        split; [assumption|]. exists dv. split; [assumption|]. apply Hincl. now left.
      * rewrite Hsub, dict_pop_set_fresh in Hs by assumption. simpl in Hs. eauto.
    + rewrite dict_pop_set_fresh in Hs by assumption. simpl in Hs. eauto.
Qed.

Lemma backtrack_fuel_extends (fuel : nat) :
  forall a s r,
    backtrack_fuel fuel cw doms a = Ok s -> returned s = Some r ->
    extension_of cw doms a r.
Proof.
  induction fuel as [|fuel IH]; intros a s r Hs Hret; simpl in Hs; [discriminate|].
  destruct (List.length (variables cw) =? List.length a).
  - injection Hs as <-. simpl in Hret. injection Hret as <-.
    exists []. split; [now rewrite app_nil_r | intros v w []].
  - destruct (first_unassigned cw a) as [variable|] eqn:Hv.
    + apply first_unassigned_Some in Hv as [Hin Hfresh].
      bind_inv Hs. rename x into dv. unfold dict_get in E.
      destruct (dict_find doms variable) as [dv'|] eqn:Hdv; [|discriminate].
      injection E as ->.
      eapply try_values_extends with (ds := dv);
        eauto using backtrack_fuel_search_ok, incl_refl.
    + injection Hs as <-. discriminate.
Qed.
End SearchExtends.

(** The assignment that [backtrack] returns is the starting assignment,
    entries and order unchanged, followed by new entries for slots of the
    puzzle, each carrying a word of the domain of its slot. *)
Theorem backtrack_extends (cw : Crossword) (doms : domains) (a r : assignment)
  (s : search) :
  backtrack cw doms a = Ok s -> returned s = Some r -> extension_of cw doms a r.
Proof. apply backtrack_fuel_extends. Qed.

(** On a well-formed puzzle with node-consistent domains [backtrack]
    raises nothing when the non-empty words of the starting assignment
    have the length of their slots. *)
Theorem backtrack_no_exception (cw : Crossword) (doms : domains) (a : assignment) :
  well_formed cw = true -> dict_keys doms = variables cw -> node_consistent doms ->
  lengths_ok cw a ->
  exists s, backtrack cw doms a = Ok s.
Proof.
  intros Hwf Hk Hnc Hlen. apply backtrack_fuel_returns; auto.
  unfold unassigned.
  pose proof (filter_length_le (fun v => negb (dict_mem v a)) (variables cw)). lia.
Qed.

(** On a well-formed puzzle with node-consistent domains, when [backtrack]
    returns [None] from an assignment with distinct keys among the slots
    of the puzzle, no complete, consistent assignment drawn from the
    domains agrees with that assignment on its keys. *)
Theorem backtrack_failure_no_solution (cw : Crossword) (doms : domains)
  (a sol : assignment) (s : search) :
  well_formed cw = true -> dict_keys doms = variables cw -> node_consistent doms ->
  distinct (dict_keys a) = true ->
  set_subset (dict_keys a) (variables cw) = true ->
  backtrack cw doms a = Ok s -> returned s = None ->
  assignment_complete cw sol = true -> consistent cw sol = Ok true ->
  drawn_from cw doms sol ->
  ~ part_of_sol sol a.
Proof.
  intros Hwf Hk Hnc Hd Hsub Hs Hret Hc Hcons Hdrawn Hpart.
  destruct (backtrack_fuel_finds cw doms Hwf Hk Hnc sol Hc Hcons Hdrawn
              (S (List.length (variables cw))) a Hpart)
    as (s' & r & Hs' & Hret').
  - now apply distinct_NoDup.
  - now apply set_subset_incl.
  - unfold unassigned.
    pose proof (filter_length_le (fun v => negb (dict_mem v a)) (variables cw)). lia.
  - unfold backtrack in Hs. rewrite Hs in Hs'. injection Hs' as <-. congruence.
Qed.

(** ** More on [consistent] *)

Section ConsistentErrors.
Variable cw : Crossword.
Hypothesis Hwf : well_formed cw = true.
Variable a : assignment.

(** Some slot of the puzzle carries a non-empty word of the wrong length. *)
Lemma consistent_neighbors_raise (v : Slot) (value : string) (e : exn) :
  In v (variables cw) -> String.length value = var_length v ->
  forall ns, incl ns (neighbors cw v) ->
    consistent_neighbors cw a v value ns = Raise e ->
    e = IndexError
    /\ exists n w, In n (variables cw) /\ dict_find a n = Some w /\ w <> ""
                   /\ String.length w <> var_length n.
Proof.
  intros Hv Hl. induction ns as [|n ns IH]; intros Hincl Hr; simpl in Hr; [discriminate|].
  assert (Hns : incl ns (neighbors cw v)) by (intros z Hz; apply Hincl; now right).
  destruct (dict_find a n) as [n_value|] eqn:Hn; [|auto].
  destruct (truthy n_value) eqn:Ht; [|auto]. apply truthy_true in Ht.
  destruct (String.eqb value n_value); [discriminate|].
  destruct (wf_neighbor cw Hwf v n Hv (Hincl n (or_introl eq_refl)))
    as (i & j & Hov & Hi & Hj & Hnv & _).
  unfold dict_get in Hr. rewrite Hov in Hr. simpl in Hr.
  destruct (get_lt_Some value i) as (cx & Hcx); [lia|].
  unfold str_index in Hr. rewrite Hcx in Hr. simpl in Hr.
  destruct (String.get j n_value) as [cy|] eqn:Hcy; simpl in Hr.
  - destruct (negb (Ascii.eqb cx cy)); [discriminate | auto].
  - injection Hr as <-. split; [reflexivity|]. exists n, n_value.
    repeat split; auto. intros Hlen.
    destruct (get_lt_Some n_value j) as (c & Hc); [lia | congruence].
Qed.

Lemma consistent_vars_raise (e : exn) :
  forall vs, incl vs (variables cw) ->
    consistent_vars cw a vs = Raise e ->
    e = IndexError
    /\ exists n w, In n (variables cw) /\ dict_find a n = Some w /\ w <> ""
                   /\ String.length w <> var_length n.
Proof.
  induction vs as [|v vs IH]; intros Hincl Hr; simpl in Hr; [discriminate|].
  assert (Hvs : incl vs (variables cw)) by (intros z Hz; apply Hincl; now right).
  destruct (dict_find a v) as [value|] eqn:Ha; [|auto].
  destruct (truthy value); [|auto].
  destruct (String.length value =? var_length v) eqn:Hl; simpl in Hr; [|discriminate].
  apply Nat.eqb_eq in Hl.
  assert (Hv : In v (variables cw)) by (apply Hincl; now left).
  destruct (consistent_neighbors cw a v value (neighbors cw v)) as [[|]| |] eqn:Hn;
    simpl in Hr; try discriminate.
  - exact (IH Hvs Hr).
  - injection Hr as <-.
    exact (consistent_neighbors_raise v value e0 Hv Hl _ (incl_refl _) Hn).
Qed.
End ConsistentErrors.

(** On a well-formed puzzle the only exception of [consistent] is
    IndexError, and it takes a slot mapped to a non-empty word whose
    length is not the slot's. *)
Theorem consistent_raises_only_on_bad_length (cw : Crossword) (a : assignment)
  (e : exn) :
  well_formed cw = true ->
  consistent cw a = Raise e ->
  e = IndexError
  /\ exists n w, In n (variables cw) /\ dict_find a n = Some w /\ w <> ""
                 /\ String.length w <> var_length n.
Proof.
  intros Hwf Hr. eapply consistent_vars_raise; eauto using incl_refl.
Qed.

(** Taking entries away from an assignment that [consistent] accepts
    gives an assignment that it accepts. *)
Theorem consistent_restrict (cw : Crossword) (a a' : assignment) :
  well_formed cw = true ->
  (forall v w, dict_find a v = Some w -> dict_find a' v = Some w) ->
  consistent cw a' = Ok true ->
  consistent cw a = Ok true.
Proof.
  intros Hwf Hsub Hc. apply (consistent_iff cw Hwf).
  apply (consistent_iff cw Hwf) in Hc as [Hlen Hpair]. split.
  - intros x wx Hx Hax. apply Hlen; auto.
  - intros x y i j wx wy Hx Hy Hxy Hov Hax Hay. apply (Hpair x y i j); auto.
Qed.

(** ** [letter_grid] *)

Lemma list_index_Ok {A} (l : list A) (n : nat) (x : A) :
  list_index l n = Ok x <-> nth_error l n = Some x.
Proof. unfold list_index. destruct (nth_error l n); split; congruence. Qed.

Lemma list_set_inv {A} (l : list A) (x : A) :
  forall n l',
    list_set l n x = Ok l' ->
    n < List.length l /\ List.length l' = List.length l
    /\ nth_error l' n = Some x
    /\ forall m, m <> n -> nth_error l' m = nth_error l m.
Proof.
  induction l as [|y l IH]; intros [|n] l' Hs; simpl in Hs; try discriminate.
  - injection Hs as <-. simpl. repeat split; try lia.
    intros [|m] Hm; [contradiction | reflexivity].
  - bind_inv Hs. injection Hs as <-. apply IH in E as (Hn & Hl & Hx & Ho).
    simpl. repeat split; try lia; auto.
    intros [|m] Hm; [reflexivity|]. simpl. apply Ho. lia.
Qed.

Lemma list_set_total {A} (l : list A) (x : A) :
  forall n, n < List.length l -> exists l', list_set l n x = Ok l'.
Proof.
  induction l as [|y l IH]; intros [|n] Hn; simpl in *; try lia; eauto.
  destruct (IH n) as (l' & ->); [lia|]. simpl. eauto.
Qed.

Lemma list_set_raise {A} (l : list A) (x : A) :
  forall n e, list_set l n x = Raise e -> e = IndexError /\ List.length l <= n.
Proof.
  induction l as [|y l IH]; intros n e Hs; simpl in Hs.
  - destruct n; injection Hs as <-; simpl; split; auto; lia.
  - destruct n; [discriminate|].
    destruct (list_set l n x) as [l'| |] eqn:E; simpl in Hs; try discriminate.
    injection Hs as <-. apply IH in E as [-> Hl]. split; [reflexivity | simpl; lia].
Qed.

Lemma list_set_not_fuel {A} (l : list A) (x : A) :
  forall n, list_set l n x <> OutOfFuel.
Proof.
  induction l as [|y l IH]; intros [|n]; simpl; try discriminate.
  apply bind_not_fuel; [apply IH | discriminate].
Qed.

Lemma grid_set_inv (h w : nat) (g g' : grid) (i j : nat) (c : ascii) :
  grid_shape h w g -> grid_set g i j c = Ok g' ->
  i < h /\ j < w /\ grid_shape h w g'
  /\ grid_get g' i j = Some (Some c)
  /\ forall i' j', (i', j') <> (i, j) -> grid_get g' i' j' = grid_get g i' j'.
Proof.
  intros [Hh Hw] Hs. unfold grid_set in Hs. bind_inv Hs. rename x into row.
  bind_inv Hs. rename x into row'. apply list_index_Ok in E.
  apply list_set_inv in E0 as (Hj & Hl' & Hx & Ho).
  apply list_set_inv in Hs as (Hi & Hl & Hr & Hor).
  assert (Hrow : List.length row = w) by (apply Hw; eapply nth_error_In; eauto).
  split; [lia|]. split; [lia|]. split; [|split].
  - split; [lia|]. intros r Hin. apply In_nth_error in Hin as (m & Hm).
    destruct (Nat.eq_dec m i) as [->|Hmi].
    + rewrite Hr in Hm. injection Hm as <-. lia.
    + rewrite Hor in Hm by assumption. apply Hw. eapply nth_error_In; eauto.
  - unfold grid_get. now rewrite Hr.
  - intros i' j' Hne. unfold grid_get. destruct (Nat.eq_dec i' i) as [->|Hi'].
    + rewrite Hr, E. apply Ho. intros ->. now apply Hne.
    + now rewrite Hor.
Qed.

Lemma grid_set_total (h w : nat) (g : grid) (i j : nat) (c : ascii) :
  grid_shape h w g -> i < h -> j < w -> exists g', grid_set g i j c = Ok g'.
Proof.
  intros [Hh Hw] Hi Hj. unfold grid_set.
  destruct (nth_error g i) as [row|] eqn:Hrow.
  - unfold list_index. rewrite Hrow. simpl.
    assert (Hl : List.length row = w) by (apply Hw; eapply nth_error_In; eauto).
    destruct (list_set_total row (Some c) j) as (row' & ->); [lia|]. simpl.
    apply list_set_total. lia.
  - apply nth_error_None in Hrow. lia.
Qed.

Lemma grid_set_raise (h w : nat) (g : grid) (i j : nat) (c : ascii) (e : exn) :
  grid_shape h w g -> grid_set g i j c = Raise e ->
  e = IndexError /\ ~ (i < h /\ j < w).
Proof.
  intros Hshape Hs. split.
  - unfold grid_set, list_index in Hs. destruct (nth_error g i) as [row|]; simpl in Hs;
      [|now injection Hs as <-].
    destruct (list_set row j (Some c)) as [row'| |] eqn:E; simpl in Hs.
    + now apply list_set_raise in Hs.
    + injection Hs as <-. now apply list_set_raise in E.
    + discriminate.
  - intros [Hi Hj]. destruct (grid_set_total h w g i j c Hshape Hi Hj) as (g' & Hg).
    congruence.
Qed.

Section LetterGrid.
Variables height width : nat.

(** One word: the cells written, the cells left alone. *)
Lemma letter_grid_word_inv (variable : Slot) (word : string) :
  forall ks g g',
    grid_shape height width g ->
    letter_grid_word variable word ks g = Ok g' ->
    grid_shape height width g'
    /\ (forall k, In k ks ->
          cell_row variable k < height /\ cell_col variable k < width)
    /\ (forall i j c, grid_get g' i j = Some (Some c) ->
          grid_get g i j = Some (Some c)
          \/ exists k, In k ks /\ cell_row variable k = i /\ cell_col variable k = j
                       /\ String.get k word = Some c)
    /\ (forall i j,
          (exists c, grid_get g i j = Some (Some c))
          \/ (exists k, In k ks /\ cell_row variable k = i /\ cell_col variable k = j) ->
          exists c, grid_get g' i j = Some (Some c)).
Proof.
  induction ks as [|k ks IH]; intros g g' Hshape Hr; simpl in Hr.
  - injection Hr as <-. split; [assumption|]. split; [intros k []|].
    split; [auto|]. intros i j [H|(k & [] & _)]. exact H.
  - bind_inv Hr. rename x into c0. bind_inv Hr. rename x into g1.
    apply str_index_Ok in E.
    destruct (grid_set_inv _ _ _ _ _ _ _ Hshape E0) as (Hi & Hj & Hshape1 & Hget & Hother).
    destruct (IH _ _ Hshape1 Hr) as (Hshape' & Hfit & Hsound & Hcover).
    split; [assumption|]. split; [|split].
    + intros k' [<-|Hk']; auto.
    + intros i j c Hc. destruct (Hsound i j c Hc) as [H1|(k' & Hk' & Hrest)].
      * destruct (Nat.eq_dec i (cell_row variable k)) as [->|Hne];
          [destruct (Nat.eq_dec j (cell_col variable k)) as [->|Hne]|].
        -- right. exists k. rewrite Hget in H1. injection H1 as <-.
           repeat split; auto. now left.
        -- left. rewrite <- Hother; [assumption | congruence].
        -- left. rewrite <- Hother; [assumption | congruence].
      * right. exists k'. split; [now right | assumption].
    + intros i j Hc. apply Hcover.
      destruct (Nat.eq_dec i (cell_row variable k)) as [->|Hne];
        [destruct (Nat.eq_dec j (cell_col variable k)) as [->|Hne]|].
      * left. eauto.
      * destruct Hc as [(c & Hc)|(k' & [<-|Hk'] & Hr' & Hc')]; try congruence.
        -- left. exists c. rewrite Hother; [assumption | congruence].
        -- right. eauto.
      * destruct Hc as [(c & Hc)|(k' & [<-|Hk'] & Hr' & Hc')]; try congruence.
        -- left. exists c. rewrite Hother; [assumption | congruence].
        -- right. eauto.
Qed.

Lemma letter_grid_items_inv :
  forall items g g',
    grid_shape height width g ->
    letter_grid_items items g = Ok g' ->
    grid_shape height width g'
    /\ fits height width items
    /\ (forall i j c, grid_get g' i j = Some (Some c) ->
          grid_get g i j = Some (Some c) \/ written items i j c)
    /\ (forall i j,
          (exists c, grid_get g i j = Some (Some c)) \/ (exists c, written items i j c) ->
          exists c, grid_get g' i j = Some (Some c)).
Proof.
  induction items as [|[variable word] items IH]; intros g g' Hshape Hr; simpl in Hr.
  - injection Hr as <-. split; [assumption|]. split; [intros v w k []|].
    split; [auto|]. intros i j [H|(c & v & w & [] & _)]. exact H.
  - bind_inv Hr. rename x into g1.
    destruct (letter_grid_word_inv _ _ _ _ _ Hshape E) as (Hshape1 & Hfit1 & Hsound1 & Hcover1).
    destruct (IH _ _ Hshape1 Hr) as (Hshape' & Hfit & Hsound & Hcover).
    split; [assumption|]. split; [|split].
    + intros v w k [[= <- <-]|Hin] Hk; [|eauto].
      apply Hfit1. apply in_seq. lia.
    + intros i j c Hc. destruct (Hsound i j c Hc) as [H1|(v & w & Hin & Hcov)].
      * destruct (Hsound1 i j c H1) as [H0|(k & _ & Hrow & Hcol & Hget)]; [now left|].
        right. exists variable, word. split; [now left|]. exists k. auto.
      * right. exists v, w. split; [now right | assumption].
    + intros i j Hc. apply Hcover.
      destruct Hc as [Hc|(c & v & w & [[= <- <-]|Hin] & Hcov)].
      * left. apply Hcover1. now left.
      * left. apply Hcover1. right. destruct Hcov as (k & Hrow & Hcol & Hget).
        exists k. repeat split; auto. apply in_seq. apply get_Some_lt in Hget. lia.
      * right. exists c, v, w. auto.
Qed.

Lemma blank_grid_shape : grid_shape height width (blank_grid height width).
Proof.
  unfold blank_grid. split; [apply repeat_length|].
  intros row Hin. apply repeat_spec in Hin. subst. apply repeat_length.
Qed.

Lemma blank_grid_get (i j : nat) (x : option ascii) :
  grid_get (blank_grid height width) i j = Some x -> x = None.
Proof.
  unfold grid_get, blank_grid. destruct (nth_error _ i) as [row|] eqn:Hrow; [|discriminate].
  apply nth_error_In, repeat_spec in Hrow. subst row. intros Hx.
  apply nth_error_In, repeat_spec in Hx. exact Hx.
Qed.

Lemma grid_get_in_range (g : grid) (i j : nat) :
  grid_shape height width g -> i < height -> j < width ->
  exists x, grid_get g i j = Some x.
Proof.
  intros [Hh Hw] Hi Hj. unfold grid_get.
  destruct (nth_error g i) as [row|] eqn:Hrow.
  - destruct (nth_error row j) as [x|] eqn:Hx; [eauto|].
    apply nth_error_None in Hx. apply nth_error_In, Hw in Hrow. lia.
  - apply nth_error_None in Hrow. lia.
Qed.

Lemma letter_grid_word_total (variable : Slot) (word : string) :
  forall ks g,
    grid_shape height width g ->
    (forall k, In k ks -> k < String.length word
                          /\ cell_row variable k < height
                          /\ cell_col variable k < width) ->
    exists g', letter_grid_word variable word ks g = Ok g'.
Proof.
  induction ks as [|k ks IH]; intros g Hshape Hks; simpl; [eauto|].
  destruct (Hks k (or_introl eq_refl)) as (Hk & Hi & Hj).
  destruct (get_lt_Some word k Hk) as (c & Hc). unfold str_index. rewrite Hc. simpl.
  destruct (grid_set_total _ _ g _ _ c Hshape Hi Hj) as (g1 & Hg1). rewrite Hg1. simpl.
  apply IH.
  - now destruct (grid_set_inv _ _ _ _ _ _ _ Hshape Hg1) as (_ & _ & Hs & _).
  - intros k' Hk'. apply Hks. now right.
Qed.

Lemma letter_grid_items_total :
  forall items g,
    grid_shape height width g -> fits height width items ->
    exists g', letter_grid_items items g = Ok g'.
Proof.
  induction items as [|[variable word] items IH]; intros g Hshape Hfits; simpl; [eauto|].
  destruct (letter_grid_word_total variable word (seq 0 (String.length word)) g Hshape)
    as (g1 & Hg1).
  { intros k Hk. apply in_seq in Hk. split; [lia|].
    apply (Hfits variable word k); [now left | lia]. }
  rewrite Hg1. simpl. apply IH.
  - now destruct (letter_grid_word_inv _ _ _ _ _ Hshape Hg1) as (Hs & _).
  - intros v w k Hin Hk. apply (Hfits v w k); [now right | assumption].
Qed.
End LetterGrid.

Lemma letter_grid_word_failure (height width : nat) (variable : Slot)
  (word : string) :
  forall ks g,
    grid_shape height width g ->
    match letter_grid_word variable word ks g with
    | Ok g' => grid_shape height width g'
    | Raise e => e = IndexError
    | OutOfFuel => False
    end.
Proof.
  induction ks as [|k ks IH]; intros g Hshape; simpl; [assumption|].
  unfold str_index. destruct (String.get k word) as [c|]; simpl; [|reflexivity].
  destruct (grid_set g (cell_row variable k) (cell_col variable k) c) as [g1|e|] eqn:E;
    simpl.
  - apply IH. now destruct (grid_set_inv _ _ _ _ _ _ _ Hshape E) as (_ & _ & Hs & _).
  - now apply (grid_set_raise _ _ _ _ _ _ _ Hshape) in E.
  - unfold grid_set, list_index in E.
    destruct (nth_error g (cell_row variable k)) as [row|]; simpl in E; [|discriminate].
    destruct (list_set row (cell_col variable k) (Some c)) as [row'| |] eqn:E1;
      simpl in E; try discriminate.
    + now apply list_set_not_fuel in E.
    + now apply list_set_not_fuel in E1.
Qed.

Lemma letter_grid_items_failure (height width : nat) :
  forall items g,
    grid_shape height width g ->
    match letter_grid_items items g with
    | Ok g' => grid_shape height width g'
    | Raise e => e = IndexError
    | OutOfFuel => False
    end.
Proof.
  induction items as [|[variable word] items IH]; intros g Hshape; simpl; [assumption|].
  pose proof (letter_grid_word_failure height width variable word
                (seq 0 (String.length word)) g Hshape) as Hw.
  destruct (letter_grid_word variable word (seq 0 (String.length word)) g) as [g1|e|];
    simpl; [apply IH; exact Hw | exact Hw | exact Hw].
Qed.

(** [letter_grid] returns a grid exactly when every cell of every word of
    the assignment lies inside the grid; the grid has [height] rows of
    [width] cells; when a word sticks out, IndexError is raised. *)
Theorem letter_grid_returns_iff_fits (height width : nat) (a : assignment) :
  (fits height width a <-> exists g, letter_grid height width a = Ok g)
  /\ (forall g, letter_grid height width a = Ok g -> grid_shape height width g)
  /\ (~ fits height width a -> letter_grid height width a = Raise IndexError).
Proof.
  assert (Hinv : forall g, letter_grid height width a = Ok g ->
                           grid_shape height width g /\ fits height width a).
  { intros g Hg.
    destruct (letter_grid_items_inv height width _ _ _
                (blank_grid_shape height width) Hg) as (Hs & Hf & _). auto. }
  split; [split|split].
  - intros Hfits. apply letter_grid_items_total with (height := height) (width := width);
      [apply blank_grid_shape | assumption].
  - intros (g & Hg). now apply Hinv in Hg.
  - intros g Hg. now apply Hinv in Hg.
  - intros Hnot.
    pose proof (letter_grid_items_failure height width a _
                  (blank_grid_shape height width)) as Hf.
    fold (letter_grid height width a) in Hf.
    destruct (letter_grid height width a) as [g|e|] eqn:E.
    + exfalso. apply Hnot. now apply (Hinv g).
    + now subst e.
    + contradiction.
Qed.

(** When the entries of the assignment agree on the cells they share,
    every letter of every word can be read back from the grid at its
    cell. *)
Theorem letter_grid_reads_back (height width : nat) (a : assignment) (g : grid)
  (i j : nat) (c : ascii) :
  letter_grid height width a = Ok g -> compatible a ->
  written a i j c -> grid_get g i j = Some (Some c).
Proof.
  intros Hg Hcompat Hw.
  destruct (letter_grid_items_inv height width _ _ _ (blank_grid_shape height width) Hg)
    as (_ & _ & Hsound & Hcover).
  destruct (Hcover i j (or_intror (ex_intro _ c Hw))) as (c' & Hc').
  destruct (Hsound i j c' Hc') as [Hb|Hw'].
  - apply blank_grid_get in Hb. discriminate.
  - now rewrite (Hcompat i j c c' Hw Hw').
Qed.

(** A cell of the grid on which no entry of the assignment puts a letter
    holds [None]. *)
Theorem letter_grid_blank_cell (height width : nat) (a : assignment) (g : grid)
  (i j : nat) :
  letter_grid height width a = Ok g -> i < height -> j < width ->
  (forall c, ~ written a i j c) ->
  grid_get g i j = Some None.
Proof.
  intros Hg Hi Hj Hnone.
  destruct (letter_grid_items_inv height width _ _ _ (blank_grid_shape height width) Hg)
    as (Hshape & _ & Hsound & _).
  destruct (grid_get_in_range height width g i j Hshape Hi Hj) as ([c|] & Hx);
    [|assumption].
  exfalso. destruct (Hsound i j c Hx) as [Hb|Hw].
  - apply blank_grid_get in Hb. discriminate.
  - exact (Hnone c Hw).
Qed.

(** ** [enforce_node_consistency] *)

(** [enforce_node_consistency] keeps the keys of the store; each domain
    keeps exactly its words of the slot's length; a second run changes
    nothing. *)
Theorem enforce_node_consistency_effect (doms : domains) :
  dict_keys (enforce_node_consistency doms) = dict_keys doms
  /\ (forall v ws, dict_find doms v = Some ws ->
        exists ws', dict_find (enforce_node_consistency doms) v = Some ws'
                    /\ forall w, In w ws' <-> In w ws /\ String.length w = var_length v)
  /\ enforce_node_consistency (enforce_node_consistency doms)
     = enforce_node_consistency doms.
Proof.
  split; [apply dict_keys_enforce|]. split.
  - intros v ws Hv. rewrite dict_find_enforce, Hv. simpl. eexists. split; [reflexivity|].
    intros w. rewrite filter_In, Nat.eqb_eq. tauto.
  - unfold enforce_node_consistency. rewrite map_map. apply map_ext_in.
    intros [v ws] _. simpl. f_equal.
    induction ws as [|w ws IH]; simpl; [reflexivity|].
    destruct (String.length w =? var_length v) eqn:E; simpl; [rewrite E|]; now rewrite IH.
Qed.

(** ** The order of the slots does not matter to [consistent] *)

Lemma NoDup_distinct {K} `{EqKey K} (l : list K) : NoDup l -> distinct l = true.
Proof.
  induction 1 as [|x l Hx Hl IH]; simpl; [reflexivity|].
  apply andb_true_iff. split; [|assumption].
  apply negb_true_iff. now apply set_mem_not_In.
Qed.

Lemma well_formed_permutation (cw cw' : Crossword) :
  Permutation (variables cw) (variables cw') -> overlaps cw = overlaps cw' ->
  well_formed cw = true -> well_formed cw' = true.
Proof.
  intros Hperm Hov Hwf. unfold well_formed in *.
  apply andb_true_iff in Hwf as [Hd Hall]. apply andb_true_iff. split.
  - apply NoDup_distinct. eapply Permutation_NoDup; [exact Hperm|].
    now apply distinct_NoDup.
  - rewrite forallb_forall in Hall. apply forallb_forall. intros x Hx.
    apply forallb_forall. intros y Hy.
    apply (Permutation_in _ (Permutation_sym Hperm)) in Hx, Hy.
    specialize (Hall x Hx). rewrite forallb_forall in Hall. specialize (Hall y Hy).
    unfold overlap_entry_ok in *. now rewrite <- Hov.
Qed.

Lemma consistent_nonempty_permutation (cw cw' : Crossword) (a : assignment) :
  Permutation (variables cw) (variables cw') -> overlaps cw = overlaps cw' ->
  consistent_nonempty cw a -> consistent_nonempty cw' a.
Proof.
  intros Hperm Hov [Hlen Hpair]. apply Permutation_sym in Hperm. split.
  - intros x wx Hx. apply Hlen. eapply Permutation_in; eauto.
  - intros x y i j wx wy Hx Hy Hxy Ho. rewrite <- Hov in Ho.
    apply (Hpair x y i j); auto; eapply Permutation_in; eauto.
Qed.

(** On a well-formed puzzle, whether [consistent] returns true does not
    depend on the order in which the slots are iterated. *)
Theorem consistent_order_independent (cw cw' : Crossword) (a : assignment) :
  well_formed cw = true ->
  Permutation (variables cw) (variables cw') -> overlaps cw = overlaps cw' ->
  (consistent cw a = Ok true <-> consistent cw' a = Ok true).
Proof.
  intros Hwf Hperm Hov.
  pose proof (well_formed_permutation cw cw' Hperm Hov Hwf) as Hwf'.
  rewrite (consistent_iff cw Hwf), (consistent_iff cw' Hwf'). split.
  - now apply consistent_nonempty_permutation.
  - apply consistent_nonempty_permutation; [now apply Permutation_sym | now symmetry].
Qed.

(** ** [select_unassigned_variable] *)

Lemma set_of_list_length {K} `{EqKey K} (l : list K) :
  forall acc,
    List.length (fold_left set_add l acc) <= List.length acc + List.length l
    /\ (List.length (fold_left set_add l acc) = List.length acc + List.length l ->
        NoDup l /\ forall x, In x l -> ~ In x acc).
Proof.
  induction l as [|x l IH]; intros acc; simpl.
  - split; [lia|]. intros _. split; [constructor | intros x []].
  - destruct (IH (set_add acc x)) as [Hle Heq]. unfold set_add in *.
    destruct (set_mem x acc) eqn:Hm.
    + split; [lia|]. intros Hl. lia.
    + apply set_mem_not_In in Hm. rewrite length_app in Hle, Heq. simpl in Hle, Heq.
      split; [lia|]. intros Hl. destruct Heq as [Hnd Hnot]; [lia|]. split.
      * constructor; [|assumption]. intros Hx. apply (Hnot x Hx).
        apply in_or_app. right. now left.
      * intros y [<-|Hy]; [assumption|]. intros Hacc. apply (Hnot y Hy).
        apply in_or_app. now left.
Qed.

Lemma set_of_list_NoDup {K} `{EqKey K} (l : list K) :
  List.length l = List.length (set_of_list l) -> NoDup l.
Proof.
  intros Hl. unfold set_of_list in Hl.
  destruct (set_of_list_length l []) as [_ Heq]. simpl in Heq.
  now destruct Heq.
Qed.

Lemma NoDup_snd_injective {K} (l : list (K * nat)) (k k' : K) (c : nat) :
  NoDup (map snd l) -> In (k, c) l -> In (k', c) l -> k = k'.
Proof.
  induction l as [|[k0 c0] l IH]; simpl; [contradiction|].
  intros Hnd Hk Hk'. inversion Hnd as [|? ? Hc0 Hnd']; subst.
  destruct Hk as [Hk|Hk], Hk' as [Hk'|Hk']; auto.
  - congruence.
  - exfalso. injection Hk as -> ->. apply Hc0. apply (in_map snd) in Hk'. exact Hk'.
  - exfalso. injection Hk' as -> ->. apply Hc0. apply (in_map snd) in Hk. exact Hk.
Qed.

Section SelectUnassigned.
Variable cw : Crossword.
Variable doms : domains.
Variable a : assignment.

Lemma suv_init :
  forall vs (acc : list (Slot * nat)),
    NoDup vs -> (forall v, In v vs -> ~ In v (dict_keys acc)) ->
    fold_left (fun d variable =>
                 if negb (dict_mem variable a) then dict_set d variable 0 else d)
              vs acc
    = acc ++ map (fun v => (v, 0)) (filter (fun v => negb (dict_mem v a)) vs).
Proof.
  induction vs as [|v vs IH]; intros acc Hnd Hfresh; simpl.
  - now rewrite app_nil_r.
  - inversion Hnd as [|? ? Hv Hnd']; subst.
    destruct (negb (dict_mem v a)); simpl.
    + assert (Hf : dict_find acc v = None).
      { apply dict_find_None. apply Hfresh. now left. }
      rewrite IH; [|assumption|].
      * rewrite dict_set_fresh by assumption. now rewrite <- app_assoc.
      * intros u Hu. rewrite dict_keys_set_fresh by assumption.
        intros Hin. apply in_app_or in Hin as [Hin|[<-|[]]]; [|contradiction].
        apply (Hfresh u); [now right | assumption].
    + apply IH; [assumption|]. intros u Hu. apply Hfresh. now right.
Qed.

Lemma suv_sizes_spec :
  forall vs vv vv',
    NoDup vs -> suv_sizes doms a vs vv = Ok vv' ->
    dict_keys vv' = dict_keys vv
    /\ (forall v c, In v vs -> dict_mem v a = false -> dict_find vv v = Some c ->
                    dict_find vv' v = Some (c + domain_size doms v))
    /\ (forall v, ~ In v vs \/ dict_mem v a = true -> dict_find vv' v = dict_find vv v).
Proof.
  induction vs as [|var vs IH]; intros vv vv' Hnd Hr; simpl in Hr.
  - injection Hr as <-. split; [reflexivity|]. split; [intros v c []|reflexivity].
  - inversion Hnd as [|? ? Hvar Hnd']; subst.
    destruct (dict_mem var a) eqn:Hm; simpl in Hr.
    + destruct (IH _ _ Hnd' Hr) as (Hk & Hin & Hout). split; [assumption|]. split.
      * intros v c [<-|Hv] Hv'; [congruence | auto].
      * intros v [Hv|Hv]; apply Hout; [left; intros Hin'; apply Hv; now right | now right].
    + bind_inv Hr. rename x into dv. bind_inv Hr. rename x into vv1.
      unfold dict_get in E. destruct (dict_find doms var) as [dv'|] eqn:Hdv; [|discriminate].
      injection E as ->. unfold dict_incr in E0. bind_inv E0. injection E0 as <-.
      unfold dict_get in E. destruct (dict_find vv var) as [c0|] eqn:Hc0; [|discriminate].
      injection E as ->.
      destruct (IH _ _ Hnd' Hr) as (Hk & Hin & Hout). split; [|split].
      * rewrite Hk. eapply dict_keys_set_found; eauto.
      * intros v c [<-|Hv] Hv' Hc.
        -- rewrite Hout by (now left). rewrite dict_find_set_same.
           unfold domain_size. rewrite Hdv. congruence.
        -- apply Hin; auto. rewrite dict_find_set_other; [assumption|].
           intros ->. contradiction.
      * intros v Hv. rewrite Hout.
        -- apply dict_find_set_other. intros ->. destruct Hv as [Hv|Hv]; [|congruence].
           apply Hv. now left.
        -- destruct Hv as [Hv|Hv]; [left; intros Hin'; apply Hv; now right | now right].
Qed.

(** The dictionary of domain sizes: one entry for each slot outside the
    assignment. *)
Lemma suv_variable_values (vv : list (Slot * nat)) :
  NoDup (variables cw) ->
  suv_sizes doms a (variables cw)
    (fold_left (fun d variable =>
                  if negb (dict_mem variable a) then dict_set d variable 0 else d)
               (variables cw) []) = Ok vv ->
  dict_keys vv = unassigned cw a
  /\ forall k c, In (k, c) vv -> c = domain_size doms k.
Proof.
  intros Hnd Hr. rewrite (suv_init _ [] Hnd) in Hr by (intros v _ []). simpl in Hr.
  apply suv_sizes_spec in Hr as (Hk & Hin & _); [|assumption].
  assert (Hkeys : dict_keys vv = unassigned cw a).
  { rewrite Hk. unfold dict_keys, unassigned. rewrite map_map. simpl. apply map_id. }
  split; [assumption|]. intros k c Hkc.
  assert (HU : In k (unassigned cw a)).
  { rewrite <- Hkeys. apply (in_map fst) in Hkc. exact Hkc. }
  assert (HndU : NoDup (unassigned cw a)) by now apply NoDup_filter.
  apply dict_In_find in Hkc; [|now rewrite Hkeys].
  unfold unassigned in HU. apply filter_In in HU as [Hv Hm].
  apply negb_true_iff in Hm.
  rewrite (Hin k 0 Hv Hm) in Hkc; [now injection Hkc as <-|].
  apply dict_In_find.
  - unfold dict_keys. rewrite map_map. simpl. rewrite map_id. exact HndU.
  - apply in_map_iff. exists k. split; [reflexivity|].
    apply filter_In. split; [assumption | now apply negb_true_iff].
Qed.
End SelectUnassigned.

Lemma fold_collect {A B} (f : A -> result B) (g : A -> B) :
  forall xs l0,
    (forall x, In x xs -> f x = Ok (g x)) ->
    fold_left (fun acc x => l <- acc ;; v <- f x ;; Ok (l ++ [v])) xs (Ok l0)
    = Ok (l0 ++ map g xs).
Proof.
  induction xs as [|x xs IH]; intros l0 Hf; simpl.
  - now rewrite app_nil_r.
  - rewrite (Hf x (or_introl eq_refl)). simpl. rewrite IH.
    + now rewrite <- app_assoc.
    + intros y Hy. apply Hf. now right.
Qed.

Lemma fold_duplicates (sorted_values : list nat) (v0 : nat) :
  nth_error sorted_values 0 = Some v0 ->
  forall js l0,
    (forall j, In j js -> j < List.length sorted_values) ->
    fold_left (fun acc j =>
                 l <- acc ;;
                 v0 <- list_index sorted_values 0 ;;
                 vj <- list_index sorted_values j ;;
                 Ok (if v0 =? vj then l ++ [(0, j)] else l))
              js (Ok l0)
    = Ok (l0 ++ map (pair 0)
                    (filter (fun j => v0 =? nth j sorted_values 0) js)).
Proof.
  intros H0. induction js as [|j js IH]; intros l0 Hjs.
  - simpl. now rewrite app_nil_r.
  - cbn [fold_left filter].
    match goal with
    | |- fold_left _ _ ?x = _ =>
        replace x with (Ok (A:=list (nat * nat))
                          (if v0 =? nth j sorted_values 0
                           then l0 ++ [(0, j)] else l0))
    end.
    + rewrite IH by (intros j' Hj'; apply Hjs; now right).
      destruct (v0 =? nth j sorted_values 0); simpl;
        [now rewrite <- app_assoc | reflexivity].
    + destruct (nth_error sorted_values j) as [vj|] eqn:Hj.
      * unfold list_index. rewrite H0, Hj. simpl.
        now rewrite (nth_error_nth _ _ 0 Hj).
      * apply nth_error_None in Hj. specialize (Hjs j (or_introl eq_refl)). lia.
Qed.

Lemma insert_sorted_sorted_rev {A} (key : A -> nat) (x : A) (l : list A) :
  StronglySorted (fun x y => key y <= key x) l ->
  StronglySorted (fun x y => key y <= key x)
    (insert_sorted (fun x y => key y <? key x) x l).
Proof.
  induction 1 as [|y l Hl IH Hy]; simpl.
  - repeat constructor.
  - destruct (key y <? key x) eqn:E.
    + apply Nat.ltb_lt in E. constructor; [now constructor|].
      constructor; [lia|].
      eapply Forall_impl; [|exact Hy]. simpl. intros z Hz. lia.
    + apply Nat.ltb_ge in E. constructor; [assumption|].
      eapply Permutation_Forall; [symmetry; apply insert_sorted_perm|].
      constructor; assumption.
Qed.

Lemma sorted_by_value_rev_sorted {K} (d : list (K * nat)) :
  StronglySorted (fun x y => snd y <= snd x) (sorted_by_value_rev d).
Proof.
  unfold sorted_by_value_rev, sorted_items.
  assert (Hgen : forall acc,
             StronglySorted (fun x y : K * nat => snd y <= snd x) acc ->
             StronglySorted (fun x y : K * nat => snd y <= snd x)
               (fold_left (fun acc x => insert_sorted (fun x y => snd y <? snd x) x acc)
                          d acc)).
  { induction d as [|x d IH]; intros acc Hacc; simpl; [assumption|].
    apply IH. now apply (insert_sorted_sorted_rev (@snd K nat)). }
  apply Hgen. constructor.
Qed.

Lemma dict_keys_set_In {K V} `{EqKey K} (d : list (K * V)) (k k' : K) (v : V) :
  In k' (dict_keys (dict_set d k v)) <-> In k' (dict_keys d) \/ k' = k.
Proof.
  destruct (dict_find d k) as [v0|] eqn:E.
  - rewrite (dict_keys_set_found _ _ _ _ E). split; [auto|].
    intros [?| ->]; [assumption | eauto using dict_find_Some_key].
  - rewrite dict_keys_set_fresh by assumption. rewrite in_app_iff. simpl.
    split; [intros [?|[<-|[]]]; auto | intros [?| ->]; auto].
Qed.

Lemma suv_degrees_spec (cw : Crossword) (sorted_vars : list Slot) :
  forall J num_neigbors,
    (forall j, In j J -> j < List.length sorted_vars) ->
    (J <> [] -> 0 < List.length sorted_vars) ->
    exists nn,
      suv_degrees cw sorted_vars (map (pair 0) J) num_neigbors = Ok nn
      /\ (forall k c, In (k, c) nn ->
            In (k, c) num_neigbors \/ (c = degree cw k /\ tied sorted_vars J k))
      /\ (forall k, In k (dict_keys num_neigbors) -> In k (dict_keys nn))
      /\ (J <> [] -> forall k, tied sorted_vars J k -> In k (dict_keys nn)).
Proof.
  induction J as [|j J IH]; intros nn0 HJ H0; simpl.
  - exists nn0. split; [reflexivity|]. split; [auto|]. split; [auto|].
    intros Hne. contradiction.
  - assert (Hj : j < List.length sorted_vars) by (apply HJ; now left).
    assert (Hpos : 0 < List.length sorted_vars) by (apply H0; discriminate).
    destruct (nth_error sorted_vars 0) as [var1|] eqn:H1;
      [|apply nth_error_None in H1; lia].
    destruct (nth_error sorted_vars j) as [var2|] eqn:H2;
      [|apply nth_error_None in H2; lia].
    unfold list_index. rewrite H1, H2. simpl.
    destruct (IH (dict_set (dict_set nn0 var1 (List.length (neighbors cw var1)))
                           var2 (List.length (neighbors cw var2))))
      as (nn & Hr & Hentries & Hkeys & Hall).
    { intros j' Hj'. apply HJ. now right. }
    { intros _. exact Hpos. }
    exists nn. split; [exact Hr|]. split; [|split].
    + intros k c Hin. destruct (Hentries k c Hin) as [Hin'|[Hc Ht]].
      * apply dict_set_In_inv in Hin' as [Hin'|[-> ->]].
        -- apply dict_set_In_inv in Hin' as [Hin'|[-> ->]]; [now left|].
           right. split; [reflexivity|]. now left.
        -- right. split; [reflexivity|]. right. exists j. split; [now left | assumption].
      * right. split; [assumption|]. destruct Ht as [Ht|(j' & Hj' & Ht)]; [now left|].
        right. exists j'. split; [now right | assumption].
    + intros k Hk. apply Hkeys. apply dict_keys_set_In. left.
      apply dict_keys_set_In. now left.
    + intros _ k [Ht|(j' & [<-|Hj'] & Ht)].
      * apply Hkeys. apply dict_keys_set_In. left. apply dict_keys_set_In. right.
        congruence.
      * apply Hkeys. apply dict_keys_set_In. right. congruence.
      * apply Hall; [|right; eauto]. intros ->. contradiction.
Qed.

Lemma StronglySorted_head {A} (R : A -> A -> Prop) (x : A) (l : list A) (y : A) :
  StronglySorted R (x :: l) -> In y l -> R x y.
Proof.
  intros Hs Hy. inversion Hs as [|? ? _ Hall]; subst.
  rewrite Forall_forall in Hall. auto.
Qed.

(** When [select_unassigned_variable] returns a slot, the slot belongs to
    the puzzle and is not a key of the assignment; no slot outside the
    assignment has a smaller domain, and none with a domain of the same
    size has more neighbors. *)
Theorem select_unassigned_variable_mrv (cw : Crossword) (doms : domains)
  (a : assignment) (v : Slot) :
  distinct (variables cw) = true ->
  select_unassigned_variable cw doms a = Ok v ->
  In v (variables cw) /\ dict_mem v a = false
  /\ forall u, In u (variables cw) -> dict_mem u a = false ->
       domain_size doms v <= domain_size doms u
       /\ (domain_size doms u = domain_size doms v -> degree cw u <= degree cw v).
Proof.
  intros Hd Hr. apply distinct_NoDup in Hd.
  unfold select_unassigned_variable in Hr. cbv zeta in Hr.
  bind_inv Hr. rename x into vv.
  destruct (suv_variable_values cw doms a vv Hd E) as (Hkeys & Hvals).
  clear E.
  pose proof (sorted_by_value_perm vv) as Hperm.
  pose proof (sorted_by_value_sorted vv) as Hsorted.
  assert (Hvals' : forall k c, In (k, c) (sorted_by_value vv) -> c = domain_size doms k).
  { intros k c Hin. apply Hvals. eapply Permutation_in; eauto. }
  apply (StronglySorted_map_fst (domain_size doms) _ Hvals') in Hsorted.
  assert (HU : forall u, In u (map fst (sorted_by_value vv))
                         <-> In u (variables cw) /\ dict_mem u a = false).
  { intros u. rewrite (Permutation_map fst Hperm). fold (dict_keys vv).
    rewrite Hkeys. unfold unassigned. rewrite filter_In, negb_true_iff. tauto. }
  assert (Hget : forall x, In x (map fst (sorted_by_value vv)) ->
                           dict_get vv x = Ok (domain_size doms x)).
  { intros x Hx. rewrite (Permutation_map fst Hperm) in Hx. fold (dict_keys vv) in Hx.
    apply dict_find_key_iff in Hx as (c & Hc). unfold dict_get. rewrite Hc.
    now rewrite (Hvals x c (dict_find_In _ _ _ Hc)). }
  remember (map fst (sorted_by_value vv)) as SV eqn:HSV.
  assert (Hmin : forall v0 u, nth_error SV 0 = Some v0 -> In u SV ->
                              domain_size doms v0 <= domain_size doms u).
  { intros v0 u H0 Hu. destruct SV as [|x SV']; [discriminate|]. injection H0 as ->.
    destruct Hu as [<-|Hu]; [lia|]. exact (StronglySorted_head _ _ _ _ Hsorted Hu). }
  destruct (List.length (map snd vv) =? List.length (set_of_list (map snd vv))) eqn:Hdist.
  - (* all sizes differ: the first slot of the sorted list *)
    apply Nat.eqb_eq, set_of_list_NoDup in Hdist. apply list_index_Ok in Hr.
    assert (Hv : In v SV) by (eapply nth_error_In; eauto).
    split; [now apply HU|]. split; [now apply HU|]. intros u Hu Hm.
    assert (HuSV : In u SV) by now apply HU.
    split; [now apply Hmin|]. intros Heq.
    assert (u = v); [|subst; lia].
    assert (Hin : forall x, In x SV -> In (x, domain_size doms x) vv).
    { intros x Hx. apply Hget in Hx. unfold dict_get in Hx.
      destruct (dict_find vv x) as [c|] eqn:Hc; [|discriminate].
      injection Hx as <-. now apply dict_find_In. }
    apply (NoDup_snd_injective vv u v (domain_size doms v) Hdist).
    + rewrite <- Heq. now apply Hin.
    + now apply Hin.
  - (* some sizes are equal *)
    rewrite (fold_collect (dict_get vv) (domain_size doms) SV [] Hget) in Hr.
    simpl in Hr. rewrite length_map in Hr.
    destruct SV as [|v0 SV'] eqn:HSV0.
    { (* no slot outside the assignment: not this branch *)
      exfalso. symmetry in HSV. apply map_eq_nil in HSV.
      assert (Hvv : vv = []).
      { apply Permutation_nil. now rewrite <- HSV. }
      subst vv. discriminate. }
    rewrite <- HSV0 in *.
    assert (H0 : nth_error SV 0 = Some v0) by (rewrite HSV0; reflexivity).
    rewrite (fold_duplicates (map (domain_size doms) SV) (domain_size doms v0)) in Hr.
    + simpl in Hr.
      set (J := filter (fun j => domain_size doms v0
                                 =? nth j (map (domain_size doms) SV) 0)
                       (seq 1 (List.length SV - 1))) in Hr.
      assert (HJ : forall j, In j J <-> 1 <= j < List.length SV
                                        /\ exists u, nth_error SV j = Some u
                                                     /\ domain_size doms u
                                                        = domain_size doms v0).
      { intros j. unfold J. rewrite filter_In, in_seq, Nat.eqb_eq. split.
        - intros [Hj Hs]. split; [lia|].
          destruct (nth_error SV j) as [u|] eqn:Hu;
            [|apply nth_error_None in Hu; lia].
          exists u. split; [reflexivity|].
          rewrite (nth_error_nth _ _ 0 (map_nth_error (domain_size doms) _ _ Hu)) in Hs.
          congruence.
        - intros [Hj (u & Hu & Hs)]. split; [lia|].
          rewrite (nth_error_nth _ _ 0 (map_nth_error (domain_size doms) _ _ Hu)).
          congruence. }
      destruct (suv_degrees_spec cw SV J []) as (nn & Hnn & Hentries & _ & Hall).
      { intros j Hj. apply HJ in Hj. lia. }
      { intros _. rewrite HSV0. simpl. lia. }
      rewrite Hnn in Hr. simpl in Hr.
      assert (Htied : forall k, tied SV J k ->
                                In k SV /\ domain_size doms k = domain_size doms v0).
      { intros k [Hk|(j & Hj & Hk)].
        - rewrite H0 in Hk. injection Hk as <-. split; [|reflexivity].
          eapply nth_error_In; eauto.
        - apply HJ in Hj as (_ & u & Hu & Hs). rewrite Hk in Hu. injection Hu as <-.
          split; [eapply nth_error_In; eauto | assumption]. }
      assert (Hties : forall u, In u SV -> domain_size doms u = domain_size doms v0 ->
                                u = v0 \/ (J <> [] /\ tied SV J u)).
      { intros u Hu Hs. apply In_nth_error in Hu as (m & Hm).
        destruct m as [|m]; [left; congruence|]. right.
        assert (HmJ : In (S m) J).
        { apply HJ. split; [|eauto]. split; [lia|].
          apply nth_error_Some. congruence. }
        split; [intros HJe; rewrite HJe in HmJ; contradiction|].
        right. eauto. }
      pose proof (sorted_items_perm (fun x y : Slot * nat => snd y <? snd x) nn) as Hpermn.
      fold (sorted_by_value_rev nn) in Hpermn.
      pose proof (sorted_by_value_rev_sorted nn) as Hsortedn.
      destruct (sorted_by_value_rev nn) as [|[v' d] rest] eqn:Hrev; simpl in Hr.
      * (* nothing tied with the first slot *)
        apply list_index_Ok in Hr. rewrite H0 in Hr. injection Hr as ->.
        assert (Hnil : nn = []) by (apply Permutation_nil; now symmetry).
        assert (Hv : In v SV) by (eapply nth_error_In; eauto).
        split; [now apply HU|]. split; [now apply HU|]. intros u Hu Hm.
        assert (HuSV : In u SV) by now apply HU.
        split; [now apply Hmin|]. intros Heq.
        destruct (Hties u HuSV Heq) as [->|[HJne Ht]]; [lia|].
        exfalso. apply (Hall HJne) in Ht. rewrite Hnil in Ht. exact Ht.
      * (* the slot of highest degree among the tied ones *)
        injection Hr as ->.
        assert (Hvin : In (v, d) nn).
        { eapply Permutation_in; [exact Hpermn | now left]. }
        destruct (Hentries v d Hvin) as [[]|[Hdeg Ht]].
        destruct (Htied v Ht) as [HvSV Hvs].
        split; [now apply HU|]. split; [now apply HU|]. intros u Hu Hm.
        assert (HuSV : In u SV) by now apply HU.
        split; [rewrite Hvs; now apply Hmin|]. intros Heq.
        assert (HJne : J <> []).
        { intros HJe. destruct Ht as [Ht|(j & Hj & _)].
          - (* without index the dictionary is empty *)
            rewrite HJe in Hnn. simpl in Hnn. injection Hnn as <-. contradiction.
          - rewrite HJe in Hj. contradiction. }
        assert (Hut : tied SV J u).
        { destruct (Hties u HuSV) as [->|[_ Hut]]; [congruence | now left | assumption]. }
        apply (Hall HJne) in Hut. apply dict_find_key_iff in Hut as (c & Hc).
        apply dict_find_In in Hc. destruct (Hentries u c Hc) as [[]|[-> _]].
        apply (Permutation_in _ (Permutation_sym Hpermn)) in Hc.
        destruct Hc as [[= -> <-]|Hc]; [lia|].
        pose proof (StronglySorted_head _ _ _ _ Hsortedn Hc) as Hle. simpl in Hle. lia.
    + rewrite HSV0. reflexivity.
    + intros j Hj. apply in_seq in Hj. rewrite length_map. lia.
Qed.

Lemma suv_sizes_total (doms : domains) (a : assignment) :
  forall vs vv,
    (forall v, In v vs -> dict_mem v a = false ->
               dict_mem v doms = true /\ In v (dict_keys vv)) ->
    exists vv', suv_sizes doms a vs vv = Ok vv'.
Proof.
  induction vs as [|var vs IH]; intros vv Hok; simpl; [eauto|].
  destruct (dict_mem var a) eqn:Hm; simpl.
  - apply IH. intros v Hv. apply Hok. now right.
  - destruct (Hok var (or_introl eq_refl) Hm) as [Hd Hk].
    unfold dict_mem in Hd. unfold dict_get at 1.
    destruct (dict_find doms var) as [dv|]; [|discriminate]. simpl.
    apply dict_mem_In in Hk. unfold dict_mem in Hk. unfold dict_incr, dict_get.
    destruct (dict_find vv var) as [c|] eqn:Hc; [|discriminate]. simpl.
    apply IH. intros v Hv Hv'. destruct (Hok v (or_intror Hv) Hv') as [Hd' Hk'].
    split; [assumption|]. rewrite (dict_keys_set_found _ _ _ _ Hc). assumption.
Qed.

(** [select_unassigned_variable] on a puzzle whose domains have an entry
    for every slot outside the assignment: with every slot assigned it
    raises [IndexError], and with one left it returns a slot. *)
Theorem select_unassigned_variable_outcome (cw : Crossword) (doms : domains)
  (a : assignment) :
  distinct (variables cw) = true ->
  (forall v, In v (variables cw) -> dict_mem v a = false -> dict_mem v doms = true) ->
  (unassigned cw a = [] -> select_unassigned_variable cw doms a = Raise IndexError)
  /\ (unassigned cw a <> [] -> exists v, select_unassigned_variable cw doms a = Ok v).
Proof.
  intros Hd Hdoms. apply distinct_NoDup in Hd.
  destruct (suv_sizes_total doms a (variables cw)
              (fold_left (fun d variable =>
                            if negb (dict_mem variable a) then dict_set d variable 0 else d)
                         (variables cw) [])) as (vv & Hvv).
  { intros v Hv Hm. split; [now apply Hdoms|].
    rewrite (suv_init a _ [] Hd) by (intros v' _ []). simpl.
    unfold dict_keys. rewrite map_map. simpl. rewrite map_id.
    apply filter_In. split; [assumption | now apply negb_true_iff]. }
  destruct (suv_variable_values cw doms a vv Hd Hvv) as (Hkeys & Hvals).
  unfold select_unassigned_variable. cbv zeta. rewrite Hvv. cbn [bind].
  pose proof (sorted_by_value_perm vv) as Hperm.
  split.
  - intros HU. rewrite HU in Hkeys. apply map_eq_nil in Hkeys. subst vv. reflexivity.
  - intros HU.
    assert (Hget : forall x, In x (map fst (sorted_by_value vv)) ->
                             dict_get vv x = Ok (domain_size doms x)).
    { intros x Hx. rewrite (Permutation_map fst Hperm) in Hx. fold (dict_keys vv) in Hx.
      apply dict_find_key_iff in Hx as (c & Hc). unfold dict_get. rewrite Hc.
      now rewrite (Hvals x c (dict_find_In _ _ _ Hc)). }
    destruct (map fst (sorted_by_value vv)) as [|v0 SV'] eqn:HSV.
    { exfalso. apply HU. rewrite <- Hkeys. unfold dict_keys.
      apply map_eq_nil in HSV. rewrite HSV in Hperm.
      now rewrite (Permutation_nil Hperm). }
    destruct (List.length (map snd vv) =? List.length (set_of_list (map snd vv))).
    + exists v0. reflexivity.
    + rewrite (fold_collect (dict_get vv) (domain_size doms) (v0 :: SV') [] Hget).
      cbn [bind app]. rewrite length_map.
      rewrite (fold_duplicates (map (domain_size doms) (v0 :: SV')) (domain_size doms v0)).
      * cbn [bind app].
        match goal with
        | |- context [suv_degrees cw ?sv (map (pair 0) ?J) []] =>
            destruct (suv_degrees_spec cw sv J []) as (nn & Hnn & _)
        end.
        { intros j Hj. apply filter_In in Hj as [Hj _]. apply in_seq in Hj.
          simpl in *. lia. }
        { intros _. simpl. lia. }
        rewrite Hnn. cbn [bind].
        destruct (map fst (sorted_by_value_rev nn)) as [|v' rest];
          eexists; reflexivity.
      * reflexivity.
      * intros j Hj. apply in_seq in Hj. rewrite length_map. simpl in *. lia.
Qed.

(** * The further properties on the sample puzzles *)

Lemma cat_are_in_vocabulary : in_vocabulary Sample.solvable Sample.cat_are.
Proof.
  intros v w [<-|[<-|[]]] Hw; injection Hw as <-; simpl; tauto.
Qed.

Lemma cat_are_compatible : compatible Sample.cat_are.
Proof.
  intros i j c c' (v1 & w1 & Hin1 & k1 & Hr1 & Hc1 & Hg1)
         (v2 & w2 & Hin2 & k2 & Hr2 & Hc2 & Hg2).
  destruct Hin1 as [[= <- <-]|[[= <- <-]|[]]];
    destruct Hin2 as [[= <- <-]|[[= <- <-]|[]]];
    destruct k1 as [|[|[|k1]]]; destruct k2 as [|[|[|k2]]];
    cbv in Hr1, Hc1, Hg1, Hr2, Hc2, Hg2; congruence.
Qed.

(** [pruning_keeps_solutions] on the solvable sample. *)
Lemma pruning_keeps_solutions_witness :
  exists doms,
    ac3 Sample.solvable (Sample.pruned Sample.solvable) None = Ok (true, doms)
    /\ drawn_from Sample.solvable doms Sample.cat_are.
Proof.
  apply (pruning_keeps_solutions Sample.solvable Sample.cat_are);
    [reflexivity | reflexivity | reflexivity | exact cat_are_in_vocabulary].
Defined.

(** [revise_effect] on the solvable sample: of the three words of the
    across slot only CAT has a partner. *)
Lemma revise_effect_witness :
  exists i j dx dx',
    dict_find (overlaps Sample.solvable) (Sample.across, Sample.down) = Some (Some (i, j))
    /\ dict_find (Sample.pruned Sample.solvable) Sample.across = Some dx
    /\ dict_find [(Sample.across, ["CAT"]); (Sample.down, ["CAT"; "ARE"; "DOG"])]
         Sample.across = Some dx'
    /\ (forall w, In w dx'
                  <-> In w dx /\ supported (Sample.pruned Sample.solvable) Sample.down i j w)
    /\ (forall v, v <> Sample.across ->
          dict_find [(Sample.across, ["CAT"]); (Sample.down, ["CAT"; "ARE"; "DOG"])] v
          = dict_find (Sample.pruned Sample.solvable) v)
    /\ (true = true
        <-> exists w, In w dx
                      /\ ~ supported (Sample.pruned Sample.solvable) Sample.down i j w)
    /\ (true = false ->
        [(Sample.across, ["CAT"]); (Sample.down, ["CAT"; "ARE"; "DOG"])]
        = Sample.pruned Sample.solvable).
Proof.
  apply (revise_effect Sample.solvable (Sample.pruned Sample.solvable)
           [(Sample.across, ["CAT"]); (Sample.down, ["CAT"; "ARE"; "DOG"])]
           Sample.across Sample.down true).
  reflexivity.
Defined.

(** [revise_idempotent] on the solvable sample. *)
Lemma revise_idempotent_witness :
  revise Sample.solvable
    [(Sample.across, ["CAT"]); (Sample.down, ["CAT"; "ARE"; "DOG"])]
    Sample.across Sample.down
  = Ok (false, [(Sample.across, ["CAT"]); (Sample.down, ["CAT"; "ARE"; "DOG"])]).
Proof.
  apply (revise_idempotent Sample.solvable (Sample.pruned Sample.solvable)
           [(Sample.across, ["CAT"]); (Sample.down, ["CAT"; "ARE"; "DOG"])]
           Sample.across Sample.down true);
    [discriminate | reflexivity].
Defined.


(** [solve_sound] on the solvable sample. *)
Lemma solve_sound_witness :
  exists s,
    solve Sample.solvable = Ok s
    /\ forall r, returned s = Some r ->
         assignment_complete Sample.solvable r = true
         /\ consistent Sample.solvable r = Ok true.
Proof. apply (solve_sound Sample.solvable); reflexivity. Defined.

(** [solve_complete] on the solvable sample. *)
Lemma solve_complete_witness :
  exists s r,
    solve Sample.solvable = Ok s /\ returned s = Some r
    /\ assignment_complete Sample.solvable r = true
    /\ consistent Sample.solvable r = Ok true.
Proof.
  apply (solve_complete Sample.solvable Sample.cat_are);
    [reflexivity | reflexivity | reflexivity | exact cat_are_in_vocabulary].
Defined.

(** [backtrack_extends] on the sample with three slots, started with CAT
    in the across slot. *)
Lemma backtrack_extends_witness :
  extension_of Sample.three_slots (Sample.pruned Sample.three_slots)
    [(Sample.across, "CAT")]
    [(Sample.across, "CAT"); (Sample.down, "ARE"); (Sample.apart, "BIRD")].
Proof.
  eapply (backtrack_extends Sample.three_slots (Sample.pruned Sample.three_slots)
            [(Sample.across, "CAT")]);
    reflexivity.
Defined.

(** [backtrack_no_exception] on the unsolvable sample, started with CAT
    in the across slot. *)
Lemma backtrack_no_exception_witness :
  exists s,
    backtrack Sample.unsolvable (Sample.pruned Sample.unsolvable)
      [(Sample.across, "CAT")] = Ok s.
Proof.
  apply (backtrack_no_exception Sample.unsolvable (Sample.pruned Sample.unsolvable)
           [(Sample.across, "CAT")]);
    [reflexivity | reflexivity | apply enforce_node_consistent |].
  intros v w [<-|[<-|[]]] Hw _; [injection Hw as <-; reflexivity | discriminate Hw].
Defined.

(** [backtrack_failure_no_solution] on the solvable sample, started with
    DOG in the across slot. *)
Lemma backtrack_failure_no_solution_witness :
  ~ part_of_sol Sample.cat_are [(Sample.across, "DOG")].
Proof.
  eapply (backtrack_failure_no_solution Sample.solvable (Sample.pruned Sample.solvable)
            [(Sample.across, "DOG")] Sample.cat_are);
    [reflexivity | reflexivity | apply enforce_node_consistent | reflexivity
    | reflexivity | reflexivity | reflexivity | reflexivity | reflexivity |].
  intros v w [<-|[<-|[]]] Hw; injection Hw as <-;
    eexists; (split; [reflexivity | simpl; tauto]).
Defined.

(** [consistent_raises_only_on_bad_length] on the puzzle whose loop
    reaches the down slot first, with a one-letter word across. *)
Lemma consistent_raises_only_on_bad_length_witness :
  consistent Sample.swapped [(Sample.across, "A"); (Sample.down, "ARE")]
  = Raise IndexError
  /\ exists n w,
      In n (variables Sample.swapped)
      /\ dict_find [(Sample.across, "A"); (Sample.down, "ARE")] n = Some w
      /\ w <> "" /\ String.length w <> var_length n.
Proof.
  split; [reflexivity|].
  apply (consistent_raises_only_on_bad_length Sample.swapped
           [(Sample.across, "A"); (Sample.down, "ARE")] IndexError);
    reflexivity.
Defined.

(** [consistent_restrict] on the solvable sample. *)
Lemma consistent_restrict_witness :
  consistent Sample.solvable [(Sample.across, "CAT")] = Ok true.
Proof.
  apply (consistent_restrict Sample.solvable [(Sample.across, "CAT")] Sample.cat_are);
    [reflexivity | | reflexivity].
  intros v w Hw. destruct (key_eqb v Sample.across) eqn:E.
  - apply key_eqb_eq in E. subst v. injection Hw as <-. reflexivity.
  - cbn [dict_find] in Hw. rewrite E in Hw. discriminate Hw.
Defined.

(** [letter_grid_reads_back] on the solution of the solvable sample: the
    middle cell holds the R of ARE. *)
Lemma letter_grid_reads_back_witness :
  exists g,
    letter_grid 3 3 Sample.cat_are = Ok g
    /\ grid_get g 1 1 = Some (Some "R"%char).
Proof.
  eexists. split; [reflexivity|].
  apply (letter_grid_reads_back 3 3 Sample.cat_are _ 1 1 "R"%char);
    [reflexivity | exact cat_are_compatible |].
  exists Sample.down, "ARE". split; [right; now left|].
  exists 1. repeat split.
Defined.

(** [letter_grid_blank_cell] on the solution of the solvable sample: no
    word passes through the first cell of the second row. *)
Lemma letter_grid_blank_cell_witness :
  exists g,
    letter_grid 3 3 Sample.cat_are = Ok g /\ grid_get g 1 0 = Some None.
Proof.
  eexists. split; [reflexivity|].
  apply (letter_grid_blank_cell 3 3 Sample.cat_are _ 1 0); [reflexivity | lia | lia |].
  intros c (v & w & Hin & k & Hr & Hc & Hg).
  destruct Hin as [[= <- <-]|[[= <- <-]|[]]]; cbv in Hr, Hc; lia.
Defined.

(** [consistent_order_independent] on the solvable sample and the same
    puzzle with its slots in the other order. *)
Lemma consistent_order_independent_witness :
  consistent Sample.solvable Sample.cat_are = Ok true
  <-> consistent Sample.swapped Sample.cat_are = Ok true.
Proof.
  apply (consistent_order_independent Sample.solvable Sample.swapped Sample.cat_are);
    [reflexivity | apply perm_swap | reflexivity].
Defined.

(** [select_unassigned_variable_mrv] on the sample with three slots: the
    slot apart from the others has one word left. *)
Lemma select_unassigned_variable_mrv_witness :
  In Sample.apart (variables Sample.three_slots)
  /\ dict_mem Sample.apart (@nil (Slot * string)) = false
  /\ forall u, In u (variables Sample.three_slots) ->
       dict_mem u (@nil (Slot * string)) = false ->
       domain_size (Sample.pruned Sample.three_slots) Sample.apart
       <= domain_size (Sample.pruned Sample.three_slots) u
       /\ (domain_size (Sample.pruned Sample.three_slots) u
           = domain_size (Sample.pruned Sample.three_slots) Sample.apart ->
           degree Sample.three_slots u <= degree Sample.three_slots Sample.apart).
Proof.
  apply (select_unassigned_variable_mrv Sample.three_slots
           (Sample.pruned Sample.three_slots) [] Sample.apart);
    reflexivity.
Defined.

(** [select_unassigned_variable_outcome] on the solvable sample and its
    solution: no slot is left to choose. *)
Lemma select_unassigned_variable_outcome_witness :
  select_unassigned_variable Sample.solvable (Sample.pruned Sample.solvable)
    Sample.cat_are = Raise IndexError.
Proof.
  destruct (select_unassigned_variable_outcome Sample.solvable
              (Sample.pruned Sample.solvable) Sample.cat_are) as [Hnone _];
    [reflexivity | | exact (Hnone eq_refl)].
  intros v [<-|[<-|[]]] _; reflexivity.
Defined.
